(** * Tiered proxy accounting and eviction: [dask_cuda/proxify_host_file.py]

    A shallow embedding of the bookkeeping classes [Proxies],
    [ProxiesOnHost], [ProxiesOnDisk], [ProxiesOnDevice], of [ProxyManager]
    and of the mapping surface of [ProxifyHostFile], followed by the
    properties of the tallies, of the eviction order and of the error
    behaviour.

    Conventions of the embedding.
    - Python [int] is [Z]; object identities ([id(proxy)]) and device
      buffer keys are [nat].
    - A method [def f(self, x)] becomes a function [f x self] that returns
      the updated object inside the monad [M], which carries raised
      exceptions and the warnings emitted so far.
    - The locks are not modelled: every method body is run to completion
      before the next one starts.
    - A [dict] that the code iterates is an association list in insertion
      order; the two dictionaries of [ProxiesOnDevice], which are only
      looked up, are [gmap]s, and a [set] is a [gset]. *)

From Stdlib Require Import ZArith String Ascii.
From stdpp Require Import base option list sets gmap fin_maps fin_sets strings sorting pretty.

Local Open Scope Z_scope.

Set Default Proof Using "Type".

(** ** Exceptions and warnings *)

Inductive exn : Type :=
| AssertionError (msg : string)
| KeyError
| ValueError.

(** The one warning of the module, [warnings.warn("ProxyManager is empty but
    the tally of ... is {self._mem_usage} bytes. Resetting the tally.")],
    with the tally it reports. *)
Inductive Warning : Type :=
| TallyReset (tally : Z).

Inductive M (A : Type) : Type :=
| Ok (ws : list Warning) (a : A)
| Raise (ws : list Warning) (e : exn).
Arguments Ok {A} ws a.
Arguments Raise {A} ws e.

Definition ret {A} (a : A) : M A := Ok [] a.

Definition raise {A} (e : exn) : M A := Raise [] e.

Definition bind {A B} (m : M A) (f : A → M B) : M B :=
  match m with
  | Ok ws a =>
      match f a with
      | Ok ws' b => Ok (ws ++ ws') b
      | Raise ws' e => Raise (ws ++ ws') e
      end
  | Raise ws e => Raise ws e
  end.

Global Instance M_ret : MRet M := @ret.
Global Instance M_bind : MBind M := λ A B f m, bind m f.

Definition warnings_warn (w : Warning) : M unit := Ok [w] tt.

(** [assert cond, msg] *)
Definition assert (cond : bool) (msg : string) : M unit :=
  if cond then mret tt else raise (AssertionError msg).

(** [for x in xs: body] where the body may raise. *)
Fixpoint for_each {A S} (xs : list A) (body : A → S → M S) (s : S) : M S :=
  match xs with
  | [] => mret s
  | x :: xs' => s' ← body x s; for_each xs' body s'
  end.

Definition succeeds {A} (m : M A) : Prop := ∃ ws a, m = Ok ws a.

(** ** Insertion-ordered dictionaries *)

Section pydict.
Context {K V : Type} `{EqDecision K}.

(** [k in d] *)
Definition dict_contains (k : K) (d : list (K * V)) : bool :=
  bool_decide (k ∈ d.*1).

(** [d[k] = v]: an existing key keeps its place, a new one goes last. *)
Fixpoint dict_setitem (k : K) (v : V) (d : list (K * V)) : list (K * V) :=
  match d with
  | [] => [(k, v)]
  | (k', v') :: d' =>
      if decide (k' = k) then (k', v) :: d' else (k', v') :: dict_setitem k v d'
  end.

(** [d.get(k)] *)
Fixpoint dict_get (k : K) (d : list (K * V)) : option V :=
  match d with
  | [] => None
  | (k', v') :: d' => if decide (k' = k) then Some v' else dict_get k d'
  end.

(** [del d[k]], [KeyError] when the key is absent. *)
Definition dict_delitem (k : K) (d : list (K * V)) : M (list (K * V)) :=
  if dict_contains k d then mret (filter (λ kv, kv.1 ≠ k) d) else raise KeyError.

(** [d.values()] *)
Definition dict_values (d : list (K * V)) : list V := d.*2.

End pydict.

(** ** Proxy objects *)

(** What the module reads from a [ProxyObject]: its identity, and through
    [_pxy_get()] the serializer tag and the last access time; the device
    memory objects it reports, in the order the loop visits them; and the
    value [sizeof(proxy)] gives for it. *)
Record ProxyObject : Type := {
  proxy_id : nat;
  serializer : option string;
  last_access : Z;
  _pxy_get_device_memory_objects : list nat;
  sizeof_proxy : Z
}.

Global Instance ProxyObject_eq_dec : EqDecision ProxyObject.
Proof. solve_decision. Defined.

(** A weak reference is the identity of its referent; the objects that are
    still alive are those the heap maps an identity to. *)
Notation weakref := nat (only parsing).
Notation Heap := (gmap nat ProxyObject) (only parsing).

Definition weakref_ref (proxy : ProxyObject) : weakref := proxy_id proxy.

(** An entry of an access snapshot:
    [(<access-time>, <size-of-buffer>, <list-of-proxies>)]. *)
Notation access_info := (Z * Z * list ProxyObject)%type (only parsing).

(** ** class Proxies *)

(** The fields of the base class, and in [ext] those a subclass adds. *)
Record Proxies (E : Type) : Type := {
  _proxy_id_to_proxy : list (nat * weakref);
  _mem_usage : Z;
  ext : E
}.
Arguments _proxy_id_to_proxy {E} _.
Arguments _mem_usage {E} _.
Arguments ext {E} _.
Arguments Build_Proxies {E} _ _ _.

Definition set_proxy_id_to_proxy {E} (d : list (nat * weakref)) (self : Proxies E) : Proxies E :=
  Build_Proxies d (_mem_usage self) (ext self).

Definition set_mem_usage {E} (n : Z) (self : Proxies E) : Proxies E :=
  Build_Proxies (_proxy_id_to_proxy self) n (ext self).

Definition set_ext {E} (e : E) (self : Proxies E) : Proxies E :=
  Build_Proxies (_proxy_id_to_proxy self) (_mem_usage self) e.

(** The abstract methods. *)
Class ProxiesImpl (E : Type) : Type := {
  mem_usage_add : ProxyObject → Proxies E → M (Proxies E);
  mem_usage_remove : ProxyObject → Proxies E → M (Proxies E)
}.

(** [__len__] *)
Definition Proxies_len {E} (self : Proxies E) : nat :=
  length (_proxy_id_to_proxy self).

Definition contains_proxy_id {E} (proxy_id : nat) (self : Proxies E) : bool :=
  dict_contains proxy_id (_proxy_id_to_proxy self).

Definition mem_usage {E} (self : Proxies E) : Z := _mem_usage self.

Definition Proxies_add `{ProxiesImpl E} (proxy : ProxyObject) (self : Proxies E) : M (Proxies E) :=
  assert (negb (contains_proxy_id (proxy_id proxy) self)) "" ;;
  let self :=
    set_proxy_id_to_proxy
      (dict_setitem (proxy_id proxy) (weakref_ref proxy) (_proxy_id_to_proxy self)) self in
  mem_usage_add proxy self.

Definition Proxies_remove `{ProxiesImpl E} (proxy : ProxyObject) (self : Proxies E) : M (Proxies E) :=
  d ← dict_delitem (proxy_id proxy) (_proxy_id_to_proxy self);
  self ← mem_usage_remove proxy (set_proxy_id_to_proxy d self);
  if bool_decide (Proxies_len self = 0%nat) then
    if bool_decide (_mem_usage self ≠ 0) then
      warnings_warn (TallyReset (_mem_usage self)) ;;
      mret (set_mem_usage 0 self)
    else mret self
  else mret self.

(** [get_proxies]: the referents that are still alive, in dictionary order. *)
Definition get_proxies {E} (heap : Heap) (self : Proxies E) : list ProxyObject :=
  omap (λ p : weakref, heap !! p) (dict_values (_proxy_id_to_proxy self)).

(** ** class ProxiesOnHost, class ProxiesOnDisk *)

Definition ProxiesOnHost_mem_usage_add (proxy : ProxyObject) (self : Proxies unit) : M (Proxies unit) :=
  mret (set_mem_usage (_mem_usage self + sizeof_proxy proxy) self).

Definition ProxiesOnHost_mem_usage_remove (proxy : ProxyObject) (self : Proxies unit) : M (Proxies unit) :=
  mret (set_mem_usage (_mem_usage self - sizeof_proxy proxy) self).

Global Instance ProxiesOnHost : ProxiesImpl unit := {
  mem_usage_add := ProxiesOnHost_mem_usage_add;
  mem_usage_remove := ProxiesOnHost_mem_usage_remove
}.

Definition Proxies_init {E} (e : E) : Proxies E := Build_Proxies [] 0 e.

(** ** class ProxiesOnDevice *)

(** The two dictionaries the subclass adds. *)
Record DevMaps : Type := {
  proxy_id_to_dev_mems : gmap nat (gset nat);
  dev_mem_to_proxy_ids : gmap nat (gset nat)
}.

Definition set_proxy_id_to_dev_mems (m : gmap nat (gset nat)) (self : Proxies DevMaps) : Proxies DevMaps :=
  set_ext (Build_DevMaps m (dev_mem_to_proxy_ids (ext self))) self.

Definition set_dev_mem_to_proxy_ids (m : gmap nat (gset nat)) (self : Proxies DevMaps) : Proxies DevMaps :=
  set_ext (Build_DevMaps (proxy_id_to_dev_mems (ext self)) m) self.

Definition ProxiesOnDevice_init : Proxies DevMaps :=
  Proxies_init (Build_DevMaps ∅ ∅).

(** [dask.sizeof.sizeof] on a device memory object: an interface to the
    sizing collaborator, given once for the whole development. *)
Class Sizeof : Type := sizeof : nat → Z.

Section with_sizeof.
Context `{Sizeof}.

(** One round of the loop of [mem_usage_add]. *)
Definition mem_usage_add_dev_mem (proxy_id : nat) (dev_mem : nat) (self : Proxies DevMaps) : M (Proxies DevMaps) :=
  (* self.proxy_id_to_dev_mems[proxy_id].add(dev_mem) *)
  match proxy_id_to_dev_mems (ext self) !! proxy_id with
  | None => raise KeyError
  | Some dev_mems =>
      let self :=
        set_proxy_id_to_dev_mems
          (<[proxy_id := dev_mems ∪ {[dev_mem]}]> (proxy_id_to_dev_mems (ext self))) self in
      (* ps = self.dev_mem_to_proxy_ids[dev_mem], a defaultdict(set) *)
      let ps := default ∅ (dev_mem_to_proxy_ids (ext self) !! dev_mem) in
      let self :=
        if bool_decide (size ps = 0%nat)
        then set_mem_usage (_mem_usage self + sizeof dev_mem) self
        else self in
      mret (set_dev_mem_to_proxy_ids
             (<[dev_mem := ps ∪ {[proxy_id]}]> (dev_mem_to_proxy_ids (ext self))) self)
  end.

Definition ProxiesOnDevice_mem_usage_add (proxy : ProxyObject) (self : Proxies DevMaps) : M (Proxies DevMaps) :=
  let proxy_id := proxy_id proxy in
  assert (bool_decide (proxy_id_to_dev_mems (ext self) !! proxy_id = None)) "" ;;
  let self :=
    set_proxy_id_to_dev_mems (<[proxy_id := ∅]> (proxy_id_to_dev_mems (ext self))) self in
  for_each (_pxy_get_device_memory_objects proxy) (mem_usage_add_dev_mem proxy_id) self.

(** One round of the loop of [mem_usage_remove]. *)
Definition mem_usage_remove_dev_mem (proxy_id : nat) (dev_mem : nat) (self : Proxies DevMaps) : M (Proxies DevMaps) :=
  (* self.dev_mem_to_proxy_ids[dev_mem].remove(proxy_id) *)
  let ps := default ∅ (dev_mem_to_proxy_ids (ext self) !! dev_mem) in
  if bool_decide (proxy_id ∈ ps) then
    let ps := ps ∖ {[proxy_id]} in
    let self :=
      set_dev_mem_to_proxy_ids (<[dev_mem := ps]> (dev_mem_to_proxy_ids (ext self))) self in
    if bool_decide (size ps = 0%nat) then
      let self :=
        set_dev_mem_to_proxy_ids (delete dev_mem (dev_mem_to_proxy_ids (ext self))) self in
      mret (set_mem_usage (_mem_usage self - sizeof dev_mem) self)
    else mret self
  else raise KeyError.

Definition ProxiesOnDevice_mem_usage_remove (proxy : ProxyObject) (self : Proxies DevMaps) : M (Proxies DevMaps) :=
  let proxy_id := proxy_id proxy in
  (* self.proxy_id_to_dev_mems.pop(proxy_id) *)
  match proxy_id_to_dev_mems (ext self) !! proxy_id with
  | None => raise KeyError
  | Some dev_mems =>
      let self :=
        set_proxy_id_to_dev_mems (delete proxy_id (proxy_id_to_dev_mems (ext self))) self in
      for_each (elements dev_mems) (mem_usage_remove_dev_mem proxy_id) self
  end.

Global Instance ProxiesOnDevice : ProxiesImpl DevMaps := {
  mem_usage_add := ProxiesOnDevice_mem_usage_add;
  mem_usage_remove := ProxiesOnDevice_mem_usage_remove
}.

(** *** Sequences of registry operations *)

Inductive registry_op : Type :=
| OpAdd (proxy : ProxyObject)
| OpRemove (proxy : ProxyObject).

Definition run_op `{ProxiesImpl E} (o : registry_op) (self : Proxies E) : M (Proxies E) :=
  match o with
  | OpAdd proxy => Proxies_add proxy self
  | OpRemove proxy => Proxies_remove proxy self
  end.

Definition run_ops `{ProxiesImpl E} (ops : list registry_op) (self : Proxies E) : M (Proxies E) :=
  for_each ops run_op self.

(** The sum of the reported sizes of a set of device buffers. *)
Definition sum_sizes (X : gset nat) : Z :=
  foldr (λ dev_mem acc, sizeof dev_mem + acc) 0 (elements X).

(** The device buffers some tracked proxy refers to, each once. *)
Definition referenced_dev_mems (refs : gmap nat (gset nat)) : gset nat :=
  ⋃ (map_to_list refs).*2.

(** What the registry should hold after a sequence of operations, read off
    the operations alone: for each tracked identity the buffers its proxy
    reported when it was added. *)
Fixpoint tracked_after (ops : list registry_op) (refs : gmap nat (gset nat)) : gmap nat (gset nat) :=
  match ops with
  | [] => refs
  | OpAdd proxy :: ops' =>
      tracked_after ops'
        (<[proxy_id proxy := list_to_set (_pxy_get_device_memory_objects proxy)]> refs)
  | OpRemove proxy :: ops' => tracked_after ops' (delete (proxy_id proxy) refs)
  end.

(** The buffers of [dev_mems] that no tracked proxy other than [pid]
    refers to. *)
Definition unshared_dev_mems (pid : nat) (dev_mems : gset nat) (refs : gmap nat (gset nat)) : gset nat :=
  dev_mems ∖ referenced_dev_mems (delete pid refs).

(** ** class ProxyManager *)

(** The three collections a manager owns; a reference to one of them
    ([self._disk], [self._host], [self._dev]) is its name here, and
    [is] / [is not] on such references is (in)equality of names. *)
Inductive Tier : Type := Disk | Host | Dev.

Global Instance Tier_eq_dec : EqDecision Tier.
Proof. solve_decision. Defined.

Record ProxyManager : Type := {
  _disk : Proxies unit;
  _host : Proxies unit;
  _dev : Proxies DevMaps;
  _device_memory_limit : Z;
  _host_memory_limit : Z
}.

Definition ProxyManager_init (device_memory_limit memory_limit : Z) : ProxyManager :=
  {| _disk := Proxies_init tt;
     _host := Proxies_init tt;
     _dev := ProxiesOnDevice_init;
     _device_memory_limit := device_memory_limit;
     _host_memory_limit := memory_limit |}.

Definition set_disk (r : Proxies unit) (self : ProxyManager) : ProxyManager :=
  {| _disk := r; _host := _host self; _dev := _dev self;
     _device_memory_limit := _device_memory_limit self;
     _host_memory_limit := _host_memory_limit self |}.

Definition set_host (r : Proxies unit) (self : ProxyManager) : ProxyManager :=
  {| _disk := _disk self; _host := r; _dev := _dev self;
     _device_memory_limit := _device_memory_limit self;
     _host_memory_limit := _host_memory_limit self |}.

Definition set_dev (r : Proxies DevMaps) (self : ProxyManager) : ProxyManager :=
  {| _disk := _disk self; _host := _host self; _dev := r;
     _device_memory_limit := _device_memory_limit self;
     _host_memory_limit := _host_memory_limit self |}.

(** [__len__] *)
Definition ProxyManager_len (self : ProxyManager) : nat :=
  (Proxies_len (_disk self) + Proxies_len (_host self) + Proxies_len (_dev self))%nat.

Definition get_proxies_by_serializer (serializer : option string) : Tier :=
  if bool_decide (serializer = Some "disk"%string) then Disk
  else if bool_decide (serializer = Some "dask"%string)
          || bool_decide (serializer = Some "pickle"%string) then Host
  else Dev.

Definition get_proxies_by_proxy_object (proxy : ProxyObject) (self : ProxyManager) : option Tier :=
  let proxy_id := proxy_id proxy in
  if contains_proxy_id proxy_id (_dev self) then Some Dev
  else if contains_proxy_id proxy_id (_host self) then Some Host
  else if contains_proxy_id proxy_id (_disk self) then Some Disk
  else None.

Definition ProxyManager_contains (proxy_id : nat) (self : ProxyManager) : bool :=
  contains_proxy_id proxy_id (_disk self)
  || contains_proxy_id proxy_id (_host self)
  || contains_proxy_id proxy_id (_dev self).

(** [proxies.add(proxy)] and [proxies.remove(proxy)] on the collection
    that [proxies] refers to. *)
Definition tier_add (proxies : Tier) (proxy : ProxyObject) (self : ProxyManager) : M ProxyManager :=
  match proxies with
  | Disk => r ← Proxies_add proxy (_disk self); mret (set_disk r self)
  | Host => r ← Proxies_add proxy (_host self); mret (set_host r self)
  | Dev => r ← Proxies_add proxy (_dev self); mret (set_dev r self)
  end.

Definition tier_remove (proxies : Tier) (proxy : ProxyObject) (self : ProxyManager) : M ProxyManager :=
  match proxies with
  | Disk => r ← Proxies_remove proxy (_disk self); mret (set_disk r self)
  | Host => r ← Proxies_remove proxy (_host self); mret (set_host r self)
  | Dev => r ← Proxies_remove proxy (_dev self); mret (set_dev r self)
  end.

Definition ProxyManager_add (proxy : ProxyObject) (serializer : option string) (self : ProxyManager) : M ProxyManager :=
  let old_proxies := get_proxies_by_proxy_object proxy self in
  let new_proxies := get_proxies_by_serializer serializer in
  if bool_decide (old_proxies ≠ Some new_proxies) then
    self ← match old_proxies with
           | Some old => tier_remove old proxy self
           | None => mret self
           end;
    tier_add new_proxies proxy self
  else mret self.

Definition ProxyManager_remove (proxy : ProxyObject) (self : ProxyManager) : M ProxyManager :=
  let proxies : option Tier := None in
  let proxies :=
    if contains_proxy_id (proxy_id proxy) (_disk self) then Some Disk else proxies in
  proxies ←
    (if contains_proxy_id (proxy_id proxy) (_host self) then
       assert (bool_decide (proxies = None)) "Proxy in multiple locations" ;;
       mret (Some Host)
     else mret proxies);
  proxies ←
    (if contains_proxy_id (proxy_id proxy) (_dev self) then
       assert (bool_decide (proxies = None)) "Proxy in multiple locations" ;;
       mret (Some Dev)
     else mret proxies);
  match proxies with
  | None => raise (AssertionError "Trying to remove unknown proxy")
  | Some proxies => tier_remove proxies proxy self
  end.

(** *** Access snapshots *)

(** [buffer_to_proxies[buffer].append(proxy)] on a [defaultdict(list)]. *)
Definition buffer_to_proxies_append (buffer : nat) (proxy : ProxyObject)
    (buffer_to_proxies : list (nat * list ProxyObject)) : list (nat * list ProxyObject) :=
  dict_setitem buffer (default [] (dict_get buffer buffer_to_proxies) ++ [proxy]) buffer_to_proxies.

Definition map_buffers_to_proxies (proxies : list ProxyObject) : list (nat * list ProxyObject) :=
  foldl (λ buffer_to_proxies proxy,
           foldl (λ buffer_to_proxies buffer,
                    buffer_to_proxies_append buffer proxy buffer_to_proxies)
             buffer_to_proxies (_pxy_get_device_memory_objects proxy))
    [] proxies.

(** [max(p._pxy_get().last_access for p in proxies)], a [ValueError] on an
    empty sequence. *)
Definition max_last_access (proxies : list ProxyObject) : M Z :=
  match proxies with
  | [] => raise ValueError
  | p :: proxies' => mret (foldl (λ acc q, Z.max acc (last_access q)) (last_access p) proxies')
  end.

Definition get_dev_access_info (heap : Heap) (self : ProxyManager) : M (list access_info) :=
  let buffer_to_proxies := map_buffers_to_proxies (get_proxies heap (_dev self)) in
  for_each buffer_to_proxies
    (λ '(dev_buf, proxies) ret,
       last_access ← max_last_access proxies;
       let size := sizeof dev_buf in
       mret (ret ++ [(last_access, size, proxies)]))
    [].

Definition get_host_access_info (heap : Heap) (self : ProxyManager) : list access_info :=
  foldl (λ ret p, let size := sizeof_proxy p in ret ++ [(last_access p, size, [p])])
    [] (get_proxies heap (_host self)).

(** *** Eviction *)

(** The key [lambda x: (x[0], -x[1])] and the order of Python tuples. *)
Definition sort_key (x : access_info) : Z * Z := (x.1.1, - x.1.2).

Definition key_ltb (k1 k2 : Z * Z) : bool :=
  (k1.1 <? k2.1) || ((k1.1 =? k2.1) && (k1.2 <? k2.2)).

(** [access.sort(key=...)]: [list.sort] is stable, and its result is the
    one stable arrangement of the list in key order; it is computed here
    by insertion from the right. *)
Fixpoint sort_insert (x : access_info) (l : list access_info) : list access_info :=
  match l with
  | [] => [x]
  | y :: l' =>
      if key_ltb (sort_key y) (sort_key x) then y :: sort_insert x l' else x :: l
  end.

Definition sort_access (access : list access_info) : list access_info :=
  foldr sort_insert [] access.

(** The first loop of [evict], with its [break]. *)
Fixpoint evict_walk (nbytes : Z) (access : list access_info)
    (freed_memory : Z) (proxies_to_serialize : list ProxyObject) : Z * list ProxyObject :=
  match access with
  | [] => (freed_memory, proxies_to_serialize)
  | (_, size, proxies) :: access' =>
      let proxies_to_serialize := proxies_to_serialize ++ proxies in
      let freed_memory := freed_memory + size in
      if bool_decide (freed_memory >= nbytes) then (freed_memory, proxies_to_serialize)
      else evict_walk nbytes access' freed_memory proxies_to_serialize
  end.

(** The second loop of [evict]. *)
Fixpoint evict_serialize {S} (proxies_to_serialize : list ProxyObject)
    (serialized_proxies : gset nat) (serializer : ProxyObject → S → M S) (s : S) : M S :=
  match proxies_to_serialize with
  | [] => mret s
  | p :: rest =>
      if bool_decide (proxy_id p ∉ serialized_proxies) then
        s ← serializer p s;
        evict_serialize rest (serialized_proxies ∪ {[proxy_id p]}) serializer s
      else evict_serialize rest serialized_proxies serializer s
  end.

(** [evict] touches the manager only through its two callbacks, so it is
    stated over any state [S] they act on. *)
Definition evict {S} (nbytes : Z) (proxies_access : S → M (list access_info))
    (serializer : ProxyObject → S → M S) (s : S) : M (Z * S) :=
  access ← proxies_access s;
  let access := sort_access access in
  let '(freed_memory, proxies_to_serialize) := evict_walk nbytes access 0 [] in
  s ← evict_serialize proxies_to_serialize ∅ serializer s;
  mret (freed_memory, s).

(** The manager together with the proxy objects that are alive. *)
Record World : Type := {
  manager : ProxyManager;
  heap : gmap nat ProxyObject
}.

Definition set_manager (m : ProxyManager) (w : World) : World :=
  {| manager := m; heap := heap w |}.

Definition set_heap (h : gmap nat ProxyObject) (w : World) : World :=
  {| manager := manager w; heap := h |}.

(** The two demotions belong to the proxy objects: [p._pxy_serialize(
    serializers=...)] re-serializes [p] and reports the new tag back to the
    manager, [ProxifyHostFile.serialize_proxy_to_disk_inplace] does so
    through the file system. They are taken as given, as an interface. *)
Class Serializers : Type := {
  _pxy_serialize : list string → ProxyObject → World → M World;
  serialize_proxy_to_disk_inplace : ProxyObject → World → M World
}.
Context `{Serializers}.

Definition dev_access (w : World) : M (list access_info) :=
  get_dev_access_info (heap w) (manager w).

Definition host_access (w : World) : M (list access_info) :=
  mret (get_host_access_info (heap w) (manager w)).

Definition maybe_evict_from_device (extra_dev_mem : Z) (w : World) : M World :=
  let mem_over_usage :=
    mem_usage (_dev (manager w)) + extra_dev_mem - _device_memory_limit (manager w) in
  if bool_decide (mem_over_usage > 0) then
    r ← evict mem_over_usage dev_access
          (λ p, _pxy_serialize ["dask"; "pickle"]%string p) w;
    mret r.2
  else mret w.

Definition maybe_evict_from_host (extra_host_mem : Z) (w : World) : M World :=
  let mem_over_usage :=
    mem_usage (_host (manager w)) + extra_host_mem - _host_memory_limit (manager w) in
  if bool_decide (mem_over_usage > 0) then
    r ← evict mem_over_usage host_access serialize_proxy_to_disk_inplace w;
    mret r.2
  else mret w.

Definition maybe_evict (extra_dev_mem : Z) (w : World) : M World :=
  w ← maybe_evict_from_device extra_dev_mem w;
  maybe_evict_from_host 0 w.

(** The callback [oom] that [initialize_spill_on_demand_once] hands to the
    allocator. [gc.collect()] runs finalizers outside this module and is
    taken as given. *)
Definition oom (gc_collect : World → M World) (nbytes : Z) (w : World) : M (bool * World) :=
  r ← evict nbytes dev_access (_pxy_serialize ["dask"; "pickle"]%string) w;
  let memory_freed := r.1 in
  w ← gc_collect r.2;
  if bool_decide (memory_freed > 0) then mret (true, w) else mret (false, w).

(** *** The end of a proxy's life *)

(** Modelled from the spec: the end of a proxy handle's life, which is code
    of the proxy object (proxy_object.py) and not of this module. The spec,
    section 3: the registries hold weak references only, proxies are owned
    by the caller's data structures, a proxy carries a back-reference to
    the manager that tracks it, and a tracked proxy is "removed from
    tracking when the owning container deletes the key or when the handle
    is garbage-collected"; section 4.4: untracking is "the collaborator's
    responsibility through explicit removal". So a proxy that loses its
    last reference is taken out of the manager that tracks it by that
    manager's [remove], and its weak references resolve to nothing from
    then on. Python reports an exception raised in a finalizer and goes on;
    here it stays visible as a raise, which a manager reached by [add] and
    [remove] never produces. *)
Definition proxy_finalize (i : nat) (w : World) : M World :=
  match heap w !! i with
  | None => mret w
  | Some p =>
      m ← (if ProxyManager_contains (proxy_id p) (manager w)
           then ProxyManager_remove p (manager w)
           else mret (manager w));
      mret {| manager := m; heap := delete i (heap w) |}
  end.

(** A container slot lets go of the proxies [dropped]. Python counts
    references: each of them that nothing in [referenced] holds ends its
    life at once, in the order of the slot. *)
Definition release (referenced : gset nat) (dropped : list nat) (w : World) : M World :=
  for_each dropped
    (λ i w, if bool_decide (i ∈ referenced) then mret w else proxy_finalize i w) w.

(** *** proxify *)

Section with_values.

(** The stored values and [proxify_device_objects(obj, {}, [])], which
    returns the proxified value and the proxies it found, and may create
    proxy objects. *)
Variable Value : Type.
Variable proxify_device_objects :
  Value → gmap nat ProxyObject → Value * list ProxyObject * gmap nat ProxyObject.

Definition set_last_access (t : Z) (p : ProxyObject) : ProxyObject :=
  {| proxy_id := proxy_id p;
     serializer := serializer p;
     last_access := t;
     _pxy_get_device_memory_objects := _pxy_get_device_memory_objects p;
     sizeof_proxy := sizeof_proxy p |}.

(** [now] is what [time.monotonic()] returns during the call. *)
Definition proxify (now : Z) (obj : Value) (w : World) : M (Value * World) :=
  let '(ret, found_proxies, h) := proxify_device_objects obj (heap w) in
  let w := set_heap h w in
  let last_access := now in
  w ← for_each found_proxies
        (λ p w,
           let p := set_last_access last_access p in
           let w := set_heap (<[proxy_id p := p]> (heap w)) w in
           if negb (ProxyManager_contains (proxy_id p) (manager w)) then
             m ← ProxyManager_add p (serializer p) (manager w);
             mret (set_manager m w)
           else mret w)
        w;
  w ← maybe_evict 0 w;
  mret (ret, w).

(** ** class ProxifyHostFile: the mapping surface *)

Record ProxifyHostFile : Type := {
  store : list (string * Value);
  world : World;
  spill_on_demand_initialized : option bool
}.

(** The callback this installs lives in the allocator, outside the state
    kept here; what remains is the flag. *)
Definition initialize_spill_on_demand_once (self : ProxifyHostFile) : ProxifyHostFile :=
  if bool_decide (spill_on_demand_initialized self = Some false) then
    {| store := store self; world := world self; spill_on_demand_initialized := Some true |}
  else self.

Definition ProxifyHostFile_contains (key : string) (self : ProxifyHostFile) : bool :=
  dict_contains key (store self).

(** The proxy objects a value holds a reference to, by identity. For a
    stored value these are the proxies that [proxify_device_objects] found
    in it; a value handed in by the caller may hold proxies already. *)
Variable held_proxies : Value → list nat.

(** The proxies that the values of a dictionary hold. *)
Definition store_refs (d : list (string * Value)) : gset nat :=
  list_to_set (d.*2 ≫= held_proxies).

(** [del self.store[key]] takes the store's reference to the value away.
    The registries hold weak references only, so the proxies of that value
    live on exactly when something else holds them: another stored value,
    or the caller, whose references during the call are [referenced]. The
    others end their lives, see [release]. *)
Definition ProxifyHostFile_delitem (referenced : gset nat) (key : string)
    (self : ProxifyHostFile) : M ProxifyHostFile :=
  d ← dict_delitem key (store self);
  let dropped := default [] (held_proxies <$> dict_get key (store self)) in
  w ← release (referenced ∪ store_refs d) dropped (world self);
  mret {| store := d; world := w;
          spill_on_demand_initialized := spill_on_demand_initialized self |}.

(** During [del self[key]] the caller still holds [value], and with it the
    proxies that [value] holds. *)
Definition ProxifyHostFile_setitem (referenced : gset nat) (now : Z) (key : string)
    (value : Value) (self : ProxifyHostFile) : M ProxifyHostFile :=
  let self := initialize_spill_on_demand_once self in
  self ← (if ProxifyHostFile_contains key self
          then ProxifyHostFile_delitem
                 (referenced ∪ list_to_set (held_proxies value)) key self
          else mret self);
  r ← proxify now value (world self);
  mret {| store := dict_setitem key r.1 (store self); world := r.2;
          spill_on_demand_initialized := spill_on_demand_initialized self |}.

(** [__len__], [__iter__] *)
Definition ProxifyHostFile_len (self : ProxifyHostFile) : nat := length (store self).

Definition ProxifyHostFile_iter (self : ProxifyHostFile) : list string := (store self).*1.

(** [unproxify_device_objects(ret, skip_explicit_proxies=True)], another
    collaborator; [compatibility_mode] is the attribute of that name, fixed
    when the host file is made. *)
Variable unproxify_device_objects : Value → World → M (Value * World).

Definition ProxifyHostFile_getitem (compatibility_mode : bool) (key : string)
    (self : ProxifyHostFile) : M (Value * ProxifyHostFile) :=
  match dict_get key (store self) with
  | None => raise KeyError
  | Some ret =>
      if compatibility_mode then
        r ← unproxify_device_objects ret (world self);
        w ← maybe_evict 0 r.2;
        mret (r.1, {| store := store self; world := w;
                      spill_on_demand_initialized := spill_on_demand_initialized self |})
      else mret (ret, self)
  end.

End with_values.

End with_sizeof.

Arguments store {Value} _.
Arguments world {Value} _.
Arguments spill_on_demand_initialized {Value} _.
Arguments Build_ProxifyHostFile {Value} _ _ _.
Arguments proxify {_ _ Value} _ _ _ _.
Arguments ProxifyHostFile_contains {Value} _ _.
Arguments store_refs {Value} _ _.
Arguments ProxifyHostFile_delitem {_ Value} _ _ _ _.
Arguments ProxifyHostFile_setitem {_ _ Value} _ _ _ _ _ _ _.
Arguments initialize_spill_on_demand_once {Value} _.
Arguments ProxifyHostFile_len {Value} _.
Arguments ProxifyHostFile_iter {Value} _.
Arguments ProxifyHostFile_getitem {_ _ Value} _ _ _ _.

(** ** class ProxifyHostFile: the spill directory and the file names *)

(** The class attributes behind [gen_file_path] and
    [register_disk_spilling]; [_spill_shared_filesystem] has no value
    before the first registration. *)
Record SpillState : Type := {
  _spill_directory : option string;
  _spill_shared_filesystem : option bool;
  _spill_to_disk_prefix : string;
  _spill_to_disk_counter : Z
}.

(** [os.path.join(a, b)] on a POSIX system. *)
Definition os_path_join (a b : string) : string :=
  if String.prefix "/" b then b
  else if bool_decide (a = ""%string) || bool_decide (String.get (String.length a - 1)%nat a = Some "/"%char)
       then a +:+ b
  else a +:+ "/" +:+ b.

(** [f"{prefix}-{counter}"] *)
Definition spill_file_name (prefix : string) (counter : Z) : string :=
  prefix +:+ "-" +:+ pretty counter.

(** The counter is advanced before the assertion is checked. A call that
    raises yields no state here; in the source the counter it advanced
    stays advanced. *)
Definition gen_file_path (cls : SpillState) : M (string * SpillState) :=
  let cls :=
    {| _spill_directory := _spill_directory cls;
       _spill_shared_filesystem := _spill_shared_filesystem cls;
       _spill_to_disk_prefix := _spill_to_disk_prefix cls;
       _spill_to_disk_counter := _spill_to_disk_counter cls + 1 |} in
  match _spill_directory cls with
  | None => raise (AssertionError "")
  | Some dir =>
      mret (os_path_join dir
              (spill_file_name (_spill_to_disk_prefix cls) (_spill_to_disk_counter cls)),
            cls)
  end.

(** [x or y] on values that are [None] or strings. *)
Definition py_or (x y : option string) : option string :=
  match x with
  | Some s => if bool_decide (s = ""%string) then y else x
  | None => y
  end.

(** [register_disk_spilling], as far as the class attributes go. What the
    process configuration and [os.getcwd()] answer is passed in;
    [os.makedirs] and the registration of the serialization family act
    outside these attributes. The [ValueError] carries the message "Cannot
    change the JIT-Unspilling disk path". *)
Definition register_disk_spilling
    (config_temporary_directory : option string) (getcwd : string)
    (config_shared_fs : bool)
    (local_directory : option string) (shared_filesystem : option bool)
    (cls : SpillState) : M SpillState :=
  let base :=
    default getcwd (py_or (py_or local_directory config_temporary_directory) (Some getcwd)) in
  let path :=
    os_path_join (os_path_join base "dask-worker-space") "jit-unspill-disk-storage" in
  dir ←
    match _spill_directory cls with
    | None => mret path
    | Some dir => if bool_decide (dir ≠ path) then raise ValueError else mret dir
    end;
  let shared :=
    match shared_filesystem with
    | None => config_shared_fs
    | Some b => b
    end in
  mret {| _spill_directory := Some dir;
          _spill_shared_filesystem := Some shared;
          _spill_to_disk_prefix := _spill_to_disk_prefix cls;
          _spill_to_disk_counter := _spill_to_disk_counter cls |}.

(** * Properties *)

(** ** The monad *)

Lemma bind_Ok {A B} (m : M A) (f : A → M B) ws b :
  m ≫= f = Ok ws b ↔ ∃ ws1 a ws2, m = Ok ws1 a ∧ f a = Ok ws2 b ∧ ws = ws1 ++ ws2.
Proof.
  unfold mbind, M_bind, bind. split.
  - destruct m as [ws1 a|]; [|done]. destruct (f a) as [ws2 b'|] eqn:Hf; [|done].
    intros [= <- <-]. by exists ws1, a, ws2.
  - intros (ws1 & a & ws2 & -> & Hf & ->). by rewrite Hf.
Qed.

Lemma bind_ret_l {A B} (a : A) (f : A → M B) : mret a ≫= f = f a.
Proof. unfold mbind, M_bind, bind, mret, M_ret, ret. by destruct (f a). Qed.

Lemma bind_Ok_nil {A B} (m : M A) (f : A → M B) a :
  m = Ok [] a → m ≫= f = f a.
Proof. intros ->. apply (bind_ret_l a f). Qed.

Lemma assert_bind {B} (cond : bool) msg (f : unit → M B) :
  cond = true → assert cond msg ≫= f = f tt.
Proof. intros ->. apply (bind_ret_l tt). Qed.

Lemma assert_bind_fails {B} (cond : bool) msg (f : unit → M B) :
  cond = false → assert cond msg ≫= f = Raise [] (AssertionError msg).
Proof. by intros ->. Qed.

Ltac msimpl :=
  repeat first
    [ rewrite bind_ret_l
    | rewrite assert_bind by done
    | rewrite assert_bind_fails by done ].

Lemma for_each_app {A S} (xs ys : list A) (body : A → S → M S) (s : S) :
  for_each (xs ++ ys) body s = for_each xs body s ≫= for_each ys body.
Proof.
  revert s. induction xs as [|x xs IH]; intros s; simpl.
  - symmetry. apply (bind_ret_l s).
  - unfold mbind, M_bind, bind. destruct (body x s) as [ws s'|]; [|done].
    rewrite IH. unfold mbind, M_bind, bind.
    destruct (for_each xs body s') as [ws1 s1|]; [|done].
    destruct (for_each ys body s1); by rewrite ?app_assoc.
Qed.

(** A loop whose rounds neither raise nor warn while an invariant holds. *)
Lemma for_each_quiet {A S} (I : list A → S → Prop) (body : A → S → M S) :
  (∀ x xs s, I (x :: xs) s → ∃ s', body x s = Ok [] s' ∧ I xs s') →
  ∀ xs s, I xs s → ∃ s', for_each xs body s = Ok [] s' ∧ I [] s'.
Proof.
  intros Hstep. induction xs as [|x xs IH]; intros s HI; simpl.
  - by exists s.
  - destruct (Hstep _ _ _ HI) as (s1 & -> & HI1).
    destruct (IH _ HI1) as (s2 & Hs2 & HI2).
    exists s2. by rewrite (bind_Ok_nil _ _ s1).
Qed.

(** ** Dictionaries *)

Section pydict_facts.
Context {K V : Type} `{EqDecision K}.
Implicit Types (d : list (K * V)) (k : K) (v : V).

Lemma dict_contains_true k d : dict_contains k d = true ↔ k ∈ d.*1.
Proof. unfold dict_contains. by rewrite bool_decide_eq_true. Qed.

Lemma dict_contains_false k d : dict_contains k d = false ↔ k ∉ d.*1.
Proof. unfold dict_contains. by rewrite bool_decide_eq_false. Qed.

Lemma dict_setitem_fresh k v d : k ∉ d.*1 → dict_setitem k v d = d ++ [(k, v)].
Proof.
  induction d as [|[k' v'] d IH]; simpl; [done|].
  rewrite not_elem_of_cons. intros [Hne Hk].
  rewrite decide_False by done. by rewrite IH.
Qed.

Lemma dict_setitem_keys k v d : k ∈ d.*1 → (dict_setitem k v d).*1 = d.*1.
Proof.
  induction d as [|[k' v'] d IH]; simpl; [by intros ?%elem_of_nil|].
  destruct (decide (k' = k)) as [->|Hne]; [done|].
  rewrite elem_of_cons. intros [?|Hk]; [done|]. cbn. f_equal. by apply IH.
Qed.

Lemma dict_get_None k d : dict_get k d = None ↔ k ∉ d.*1.
Proof.
  induction d as [|[k' v'] d IH]; simpl.
  { split; [intros _; apply not_elem_of_nil|done]. }
  rewrite not_elem_of_cons. destruct (decide (k' = k)); naive_solver.
Qed.

Lemma dict_get_Some k v d : dict_get k d = Some v → (k, v) ∈ d.
Proof.
  induction d as [|[k' v'] d IH]; simpl; [done|].
  destruct (decide (k' = k)) as [->|]; [intros [= ->]; left|right; auto].
Qed.

Lemma dict_get_setitem k v d : dict_get k (dict_setitem k v d) = Some v.
Proof.
  induction d as [|[k' v'] d IH]; simpl.
  - by rewrite decide_True.
  - destruct (decide (k' = k)) as [->|Hne]; simpl.
    + by rewrite decide_True.
    + by rewrite decide_False.
Qed.

Lemma dict_get_setitem_ne k k' v d :
  k ≠ k' → dict_get k' (dict_setitem k v d) = dict_get k' d.
Proof.
  intros Hne. induction d as [|[k'' v''] d IH]; simpl.
  - by rewrite decide_False.
  - destruct (decide (k'' = k)) as [->|Hne']; simpl.
    + by rewrite !decide_False.
    + destruct (decide (k'' = k')); auto.
Qed.

Lemma dict_setitem_keys_elem k k' v d :
  k' ∈ (dict_setitem k v d).*1 ↔ k' = k ∨ k' ∈ d.*1.
Proof.
  destruct (decide (k ∈ d.*1)) as [Hin|Hout].
  - rewrite dict_setitem_keys by done. naive_solver.
  - rewrite dict_setitem_fresh by done. rewrite fmap_app, elem_of_app. simpl.
    rewrite list_elem_of_singleton. naive_solver.
Qed.

Lemma dict_setitem_NoDup k v d : NoDup d.*1 → NoDup (dict_setitem k v d).*1.
Proof.
  intros Hnd. destruct (decide (k ∈ d.*1)) as [Hin|Hout].
  - by rewrite dict_setitem_keys.
  - rewrite dict_setitem_fresh by done. rewrite fmap_app. simpl.
    apply NoDup_app. split_and!; [done| |apply NoDup_singleton].
    intros x Hx ->%list_elem_of_singleton. done.
Qed.

Lemma dict_delitem_Ok k d :
  k ∈ d.*1 → dict_delitem k d = Ok [] (filter (λ kv, kv.1 ≠ k) d).
Proof. intros Hk. unfold dict_delitem. by rewrite (proj2 (dict_contains_true k d)). Qed.

Lemma dict_delitem_KeyError k d : k ∉ d.*1 → dict_delitem k d = Raise [] KeyError.
Proof. intros Hk. unfold dict_delitem. by rewrite (proj2 (dict_contains_false k d)). Qed.

Lemma filter_keys_elem k k' d :
  k' ∈ (filter (λ kv : K * V, kv.1 ≠ k) d).*1 ↔ k' ≠ k ∧ k' ∈ d.*1.
Proof.
  rewrite !list_elem_of_fmap. split.
  - intros ([k1 v1] & -> & [Hne Hin]%list_elem_of_filter). split; [done|].
    by exists (k1, v1).
  - intros (Hne & [k1 v1] & -> & Hin). exists (k1, v1). split; [done|].
    by apply list_elem_of_filter.
Qed.

Lemma filter_keys_NoDup k d : NoDup d.*1 → NoDup (filter (λ kv : K * V, kv.1 ≠ k) d).*1.
Proof.
  induction d as [|[k1 v1] d IH]; simpl; [done|].
  rewrite NoDup_cons. intros [Hk1 Hnd].
  rewrite filter_cons. case_decide; simpl; [|auto].
  apply NoDup_cons. split; [|auto].
  rewrite filter_keys_elem. naive_solver.
Qed.

End pydict_facts.

Section device_facts.
Context `{!Sizeof}.

(** ** Sums of buffer sizes *)

Lemma sum_sizes_perm (l1 l2 : list nat) :
  l1 ≡ₚ l2 →
  foldr (λ dev_mem acc, sizeof dev_mem + acc) 0 l1
  = foldr (λ dev_mem acc, sizeof dev_mem + acc) 0 l2.
Proof.
  intros Hp. apply (foldr_permutation_proper (=)); [solve_proper| |done].
  intros; lia.
Qed.

Lemma sum_sizes_empty : sum_sizes ∅ = 0.
Proof. unfold sum_sizes. by rewrite elements_empty. Qed.

Lemma sum_sizes_insert (b : nat) (X : gset nat) :
  b ∉ X → sum_sizes ({[b]} ∪ X) = sizeof b + sum_sizes X.
Proof.
  intros Hb. unfold sum_sizes.
  by rewrite (sum_sizes_perm _ _ (elements_union_singleton X b Hb)).
Qed.

Lemma sum_sizes_delete (b : nat) (X : gset nat) :
  b ∈ X → sum_sizes (X ∖ {[b]}) = sum_sizes X - sizeof b.
Proof.
  intros Hb.
  assert (X = {[b]} ∪ (X ∖ {[b]})) as HX.
  { apply set_eq. intros x. rewrite elem_of_union, elem_of_difference, elem_of_singleton.
    destruct (decide (x = b)); naive_solver. }
  rewrite HX at 2. rewrite sum_sizes_insert by set_solver. lia.
Qed.

Lemma sum_sizes_disj_union (X Y : gset nat) :
  X ## Y → sum_sizes (X ∪ Y) = sum_sizes X + sum_sizes Y.
Proof.
  intros Hd. unfold sum_sizes.
  rewrite (sum_sizes_perm _ _ (elements_disj_union X Y Hd)).
  induction (elements X) as [|x l IH]; simpl; lia.
Qed.

Lemma sum_sizes_union (X Y : gset nat) :
  sum_sizes (X ∪ Y) = sum_sizes X + sum_sizes (Y ∖ X).
Proof.
  rewrite <-sum_sizes_disj_union by set_solver. f_equal.
  apply set_eq. intros x. rewrite !elem_of_union, elem_of_difference.
  destruct (decide (x ∈ X)); naive_solver.
Qed.

Lemma sum_sizes_difference (X Y : gset nat) :
  sum_sizes (X ∖ Y) = sum_sizes X - sum_sizes (X ∩ Y).
Proof.
  assert (X = (X ∖ Y) ∪ (X ∩ Y)) as HX.
  { apply set_eq. intros x. rewrite elem_of_union, elem_of_difference, elem_of_intersection.
    destruct (decide (x ∈ Y)); naive_solver. }
  rewrite HX at 2. rewrite sum_sizes_disj_union by set_solver. lia.
Qed.

(** ** The device registry: the aliasing invariant *)

(** [extra i b] lets the invariant speak about the middle of the loop of
    [mem_usage_remove], where proxy [i] is already gone from
    [proxy_id_to_dev_mems] and still listed under the buffers [b] that the
    loop has not reached. *)
Record dev_core (self : Proxies DevMaps) (extra : nat → nat → Prop) : Prop := {
  core_rel : ∀ b i,
    (∃ ps, dev_mem_to_proxy_ids (ext self) !! b = Some ps ∧ i ∈ ps)
    ↔ ((∃ bs, proxy_id_to_dev_mems (ext self) !! i = Some bs ∧ b ∈ bs) ∨ extra i b);
  core_nonempty : ∀ b ps, dev_mem_to_proxy_ids (ext self) !! b = Some ps → ps ≠ ∅;
  core_tally : _mem_usage self = sum_sizes (dom (dev_mem_to_proxy_ids (ext self)))
}.

Record dev_inv (self : Proxies DevMaps) : Prop := {
  inv_core : dev_core self (λ _ _, False);
  inv_sync : ∀ i,
    i ∈ (_proxy_id_to_proxy self).*1 ↔ is_Some (proxy_id_to_dev_mems (ext self) !! i);
  inv_nodup : NoDup (_proxy_id_to_proxy self).*1
}.

Lemma default_empty_elem (m : gmap nat (gset nat)) (b i : nat) :
  i ∈ default ∅ (m !! b) ↔ ∃ ps, m !! b = Some ps ∧ i ∈ ps.
Proof. destruct (m !! b) as [ps|]; simpl; [naive_solver|set_solver]. Qed.

Lemma dev_core_dom self :
  dev_core self (λ _ _, False) →
  dom (dev_mem_to_proxy_ids (ext self)) = referenced_dev_mems (proxy_id_to_dev_mems (ext self)).
Proof.
  intros [Hrel Hne _]. apply set_eq. intros b.
  unfold referenced_dev_mems. rewrite elem_of_dom, elem_of_union_list. split.
  - intros [ps Hps]. destruct (set_choose_L ps (Hne _ _ Hps)) as [i Hi].
    destruct (proj1 (Hrel b i)) as [(bs & Hbs & Hb)|[]]; [by eauto|].
    exists bs. split; [|done]. apply list_elem_of_fmap. exists (i, bs).
    split; [done|]. by apply elem_of_map_to_list.
  - intros (bs & ([i bs'] & -> & Hin%elem_of_map_to_list)%list_elem_of_fmap & Hb).
    destruct (proj2 (Hrel b i)) as (ps & Hps & _); [left; by eauto|]. by exists ps.
Qed.

Lemma referenced_dev_mems_elem (refs : gmap nat (gset nat)) (b : nat) :
  b ∈ referenced_dev_mems refs ↔ ∃ i bs, refs !! i = Some bs ∧ b ∈ bs.
Proof.
  unfold referenced_dev_mems. rewrite elem_of_union_list. split.
  - intros (bs & ([i bs'] & -> & Hin%elem_of_map_to_list)%list_elem_of_fmap & Hb).
    by exists i, bs'.
  - intros (i & bs & Hi & Hb). exists bs. split; [|done].
    apply list_elem_of_fmap. exists (i, bs). split; [done|]. by apply elem_of_map_to_list.
Qed.

Lemma referenced_dev_mems_insert (refs : gmap nat (gset nat)) (i : nat) (bs : gset nat) :
  referenced_dev_mems (<[i := bs]> refs) = bs ∪ referenced_dev_mems (delete i refs).
Proof.
  apply set_eq. intros b. rewrite elem_of_union, !referenced_dev_mems_elem. split.
  - intros (j & bs' & Hj & Hb). destruct (decide (i = j)) as [->|Hne].
    + rewrite lookup_insert_eq in Hj. left. congruence.
    + rewrite lookup_insert_ne in Hj by done. right. exists j, bs'.
      by rewrite lookup_delete_ne.
  - intros [Hb|(j & bs' & Hj & Hb)].
    + exists i, bs. by rewrite lookup_insert_eq.
    + destruct (decide (i = j)) as [->|Hne]; [by rewrite lookup_delete_eq in Hj|].
      rewrite lookup_delete_ne in Hj by done. exists j, bs'. by rewrite lookup_insert_ne.
Qed.

Lemma mem_usage_add_dev_mem_spec pid b bs self :
  dev_core self (λ _ _, False) →
  proxy_id_to_dev_mems (ext self) !! pid = Some bs →
  ∃ self', mem_usage_add_dev_mem pid b self = Ok [] self'
    ∧ dev_core self' (λ _ _, False)
    ∧ proxy_id_to_dev_mems (ext self') = <[pid := bs ∪ {[b]}]> (proxy_id_to_dev_mems (ext self))
    ∧ _proxy_id_to_proxy self' = _proxy_id_to_proxy self.
Proof.
  intros [Hrel Hne Htally] Hpid.
  destruct self as [ids tally [refs d2p]]; simpl in *.
  unfold mem_usage_add_dev_mem; simpl. rewrite Hpid.
  exists (Build_Proxies ids
            (if bool_decide (size (default ∅ (d2p !! b)) = 0%nat)
             then tally + sizeof b else tally)
            (Build_DevMaps (<[pid := bs ∪ {[b]}]> refs)
               (<[b := default ∅ (d2p !! b) ∪ {[pid]}]> d2p))).
  split; [by destruct (bool_decide _)|]. split; [|done].
  split; simpl.
  - intros b' i. rewrite !lookup_insert.
    specialize (Hrel b' i). pose proof (default_empty_elem d2p b i) as Hdef.
    destruct (decide (b = b')) as [<-|Hb]; destruct (decide (pid = i)) as [<-|Hi].
    + split; [|intros _; eexists; split; [done|set_solver]].
      intros _. left. eexists. split; [done|set_solver].
    + rewrite <-Hrel. split.
      * intros (ps & [= <-] & [Hin|Hin%elem_of_singleton]%elem_of_union); [|done].
        by apply Hdef.
      * intros Hin%Hdef. eexists. split; [done|set_solver].
    + rewrite Hrel. split.
      * intros [(bs' & Hbs' & Hin)|[]]. left. eexists. split; [done|].
        assert (bs' = bs) as -> by congruence. set_solver.
      * intros [(bs' & [= <-] & [Hin|Hin%elem_of_singleton]%elem_of_union)|[]]; [|done].
        left. by exists bs.
    + done.
  - intros b' ps'. rewrite lookup_insert. case_decide as Hb; [|by apply Hne].
    intros [= <-]. set_solver.
  - destruct (d2p !! b) as [ps|] eqn:Hps; simpl.
    + rewrite bool_decide_eq_false_2.
      * rewrite Htally. f_equal. rewrite dom_insert_L.
        assert (b ∈ dom d2p) by (apply elem_of_dom; eauto). set_solver.
      * rewrite size_empty_iff. intros Hemp. apply (Hne _ _ Hps). by apply leibniz_equiv.
    + rewrite bool_decide_eq_true_2 by done.
      rewrite dom_insert_L, sum_sizes_insert, Htally; [lia|].
      by apply not_elem_of_dom.
Qed.

Lemma mem_usage_add_loop_spec pid l : ∀ bs self,
  dev_core self (λ _ _, False) →
  proxy_id_to_dev_mems (ext self) !! pid = Some bs →
  ∃ self', for_each l (mem_usage_add_dev_mem pid) self = Ok [] self'
    ∧ dev_core self' (λ _ _, False)
    ∧ proxy_id_to_dev_mems (ext self')
      = <[pid := bs ∪ list_to_set l]> (proxy_id_to_dev_mems (ext self))
    ∧ _proxy_id_to_proxy self' = _proxy_id_to_proxy self.
Proof.
  induction l as [|b l IH]; intros bs self Hcore Hpid; simpl.
  - exists self. split_and!; [done..| |done].
    rewrite (right_id_L ∅ (∪)). by rewrite insert_id.
  - destruct (mem_usage_add_dev_mem_spec pid b bs self Hcore Hpid)
      as (self1 & -> & Hcore1 & Hrefs1 & Hids1).
    destruct (IH (bs ∪ {[b]}) self1 Hcore1) as (self2 & Hrun & Hcore2 & Hrefs2 & Hids2).
    { rewrite Hrefs1. apply lookup_insert_eq. }
    exists self2. rewrite (bind_Ok_nil _ _ self1) by done.
    split_and!; [done..| |congruence].
    rewrite Hrefs2, Hrefs1, insert_insert_eq. f_equal. set_solver.
Qed.

Lemma Proxies_add_dev_spec proxy self :
  dev_inv self →
  contains_proxy_id (proxy_id proxy) self = false →
  ∃ self', Proxies_add proxy self = Ok [] self'
    ∧ dev_inv self'
    ∧ proxy_id_to_dev_mems (ext self')
      = <[proxy_id proxy := list_to_set (_pxy_get_device_memory_objects proxy)]>
          (proxy_id_to_dev_mems (ext self))
    ∧ _proxy_id_to_proxy self'
      = _proxy_id_to_proxy self ++ [(proxy_id proxy, weakref_ref proxy)]
    ∧ _mem_usage self'
      = _mem_usage self
        + sum_sizes (list_to_set (_pxy_get_device_memory_objects proxy)
                       ∖ referenced_dev_mems (proxy_id_to_dev_mems (ext self))).
Proof.
  intros [Hcore Hsync Hnd] Hfresh.
  apply dict_contains_false in Hfresh.
  assert (proxy_id_to_dev_mems (ext self) !! proxy_id proxy = None) as Hnone.
  { apply eq_None_not_Some. by rewrite <-Hsync. }
  unfold Proxies_add, contains_proxy_id.
  rewrite assert_bind by (by rewrite (proj2 (dict_contains_false _ _) Hfresh)).
  cbn [mem_usage_add ProxiesOnDevice]. unfold ProxiesOnDevice_mem_usage_add.
  rewrite assert_bind by (by apply bool_decide_eq_true_2).
  rewrite dict_setitem_fresh by done.
  set (self0 := set_proxy_id_to_dev_mems _ _).
  assert (dev_core self0 (λ _ _, False)) as Hcore0.
  { destruct Hcore as [Hrel Hne Htally]. subst self0. split; simpl; [|done..].
    intros b i. rewrite Hrel, lookup_insert.
    case_decide as Hi; [subst i|done]. rewrite Hnone.
    split; [by intros [(bs & [=] & _)|[]]|].
    intros [(bs & [= <-] & Hb)|[]]. by apply elem_of_empty in Hb. }
  destruct (mem_usage_add_loop_spec (proxy_id proxy)
              (_pxy_get_device_memory_objects proxy) ∅ self0 Hcore0)
    as (self' & Hrun & Hcore' & Hrefs' & Hids').
  { apply lookup_insert_eq. }
  exists self'. split; [done|].
  assert (proxy_id_to_dev_mems (ext self')
          = <[proxy_id proxy := list_to_set (_pxy_get_device_memory_objects proxy)]>
              (proxy_id_to_dev_mems (ext self))) as Hrefs.
  { rewrite Hrefs'. simpl. rewrite insert_insert_eq. f_equal. set_solver. }
  split_and!; [|done|done|].
  - split; [done| |].
    + intros i. rewrite Hids', Hrefs. simpl.
      rewrite fmap_app, elem_of_app, lookup_insert, Hsync. simpl.
      rewrite list_elem_of_singleton. case_decide; naive_solver.
    + rewrite Hids'. simpl. rewrite fmap_app. simpl.
      apply NoDup_app. split_and!; [done| |apply NoDup_singleton].
      by intros x Hx ->%list_elem_of_singleton.
  - rewrite (core_tally _ _ Hcore'), (core_tally _ _ Hcore).
    rewrite (dev_core_dom _ Hcore'), (dev_core_dom _ Hcore), Hrefs.
    rewrite referenced_dev_mems_insert, delete_id by done.
    rewrite (comm_L (∪)). apply sum_sizes_union.
Qed.

Lemma mem_usage_remove_dev_mem_spec pid b rest self :
  dev_core self (λ i b', i = pid ∧ b' ∈ b :: rest) →
  proxy_id_to_dev_mems (ext self) !! pid = None →
  b ∉ rest →
  ∃ self', mem_usage_remove_dev_mem pid b self = Ok [] self'
    ∧ dev_core self' (λ i b', i = pid ∧ b' ∈ rest)
    ∧ proxy_id_to_dev_mems (ext self') = proxy_id_to_dev_mems (ext self)
    ∧ _proxy_id_to_proxy self' = _proxy_id_to_proxy self.
Proof.
  intros [Hrel Hne Htally] Hpid Hb.
  destruct self as [ids tally [refs d2p]]; simpl in *.
  unfold mem_usage_remove_dev_mem; simpl.
  destruct (proj2 (Hrel b pid)) as (ps & Hps & Hin); [right; split; [done|left]|].
  rewrite Hps; simpl. rewrite bool_decide_eq_true_2 by done.
  assert (∀ i, i ∈ ps ∖ {[pid]} ↔ ∃ bs, refs !! i = Some bs ∧ b ∈ bs) as Hrest.
  { intros i. rewrite elem_of_difference, elem_of_singleton. split.
    - intros [Hi Hne']. destruct (proj1 (Hrel b i)) as [?|[? _]]; [by eauto|done..].
    - intros (bs & Hbs & Hbbs). split; [|congruence].
      destruct (proj2 (Hrel b i)) as (ps' & Hps' & Hi); [left; by eauto|]. congruence. }
  destruct (decide (size (ps ∖ {[pid]}) = 0%nat)) as [Hsz|Hsz].
  - rewrite bool_decide_eq_true_2 by done.
    eexists. split; [reflexivity|]. split; [|done]. simpl.
    rewrite delete_insert_eq.
    apply size_empty_inv, leibniz_equiv in Hsz.
    split; simpl.
    + intros b' i. rewrite lookup_delete. case_decide as Hbb.
      * subst b'. split; [by intros (? & ? & _)|].
        intros [Hi|[-> Hin']]; [|done]. apply Hrest in Hi. set_solver.
      * rewrite Hrel. rewrite elem_of_cons. naive_solver.
    + intros b' ps'. rewrite lookup_delete. case_decide; [done|apply Hne].
    + rewrite dom_delete_L, sum_sizes_delete, Htally; [done|].
      apply elem_of_dom. eauto.
  - rewrite bool_decide_eq_false_2 by done.
    eexists. split; [reflexivity|]. split; [|done].
    split; simpl.
    + intros b' i. rewrite lookup_insert. case_decide as Hbb.
      * subst b'. split.
        -- intros (ps' & [= <-] & Hi). left. by apply Hrest.
        -- intros [Hi|[-> Hin']]; [|done]. eexists. split; [done|]. by apply Hrest.
      * rewrite Hrel. rewrite elem_of_cons. naive_solver.
    + intros b' ps'. rewrite lookup_insert. case_decide; [|apply Hne].
      intros [= <-] Hemp. apply Hsz. rewrite Hemp. done.
    + rewrite Htally. f_equal. rewrite dom_insert_L.
      assert (b ∈ dom d2p) by (apply elem_of_dom; eauto). set_solver.
Qed.

Lemma mem_usage_remove_loop_spec pid l : ∀ self,
  NoDup l →
  dev_core self (λ i b', i = pid ∧ b' ∈ l) →
  proxy_id_to_dev_mems (ext self) !! pid = None →
  ∃ self', for_each l (mem_usage_remove_dev_mem pid) self = Ok [] self'
    ∧ dev_core self' (λ _ _, False)
    ∧ proxy_id_to_dev_mems (ext self') = proxy_id_to_dev_mems (ext self)
    ∧ _proxy_id_to_proxy self' = _proxy_id_to_proxy self.
Proof.
  induction l as [|b l IH]; intros self Hnd Hcore Hpid; simpl.
  - exists self. split_and!; [done| |done..].
    destruct Hcore as [Hrel Hne Htally]. split; [|done..].
    intros b i. rewrite Hrel. set_solver.
  - apply NoDup_cons in Hnd as [Hb Hnd].
    destruct (mem_usage_remove_dev_mem_spec pid b l self Hcore Hpid Hb)
      as (self1 & -> & Hcore1 & Hrefs1 & Hids1).
    destruct (IH self1 Hnd Hcore1) as (self2 & Hrun & Hcore2 & Hrefs2 & Hids2).
    { by rewrite Hrefs1. }
    exists self2. rewrite (bind_Ok_nil _ _ self1) by done.
    split_and!; [done..|congruence|congruence].
Qed.

Lemma dev_inv_empty_tally self :
  dev_inv self → _proxy_id_to_proxy self = [] → _mem_usage self = 0.
Proof.
  intros [Hcore Hsync _] Hids.
  rewrite (core_tally _ _ Hcore), (dev_core_dom _ Hcore).
  replace (referenced_dev_mems (proxy_id_to_dev_mems (ext self))) with (∅ : gset nat);
    [apply sum_sizes_empty|].
  symmetry. apply set_eq. intros b. rewrite referenced_dev_mems_elem. split; [|set_solver].
  intros (i & bs & Hi & _). assert (i ∈ (_proxy_id_to_proxy self).*1) as Hin.
  { apply Hsync. eauto. }
  rewrite Hids in Hin. by apply elem_of_nil in Hin.
Qed.

Lemma Proxies_remove_dev_spec proxy self :
  dev_inv self →
  contains_proxy_id (proxy_id proxy) self = true →
  ∃ self' bs, Proxies_remove proxy self = Ok [] self'
    ∧ dev_inv self'
    ∧ proxy_id_to_dev_mems (ext self) !! proxy_id proxy = Some bs
    ∧ proxy_id_to_dev_mems (ext self')
      = delete (proxy_id proxy) (proxy_id_to_dev_mems (ext self))
    ∧ _proxy_id_to_proxy self'
      = filter (λ kv, kv.1 ≠ proxy_id proxy) (_proxy_id_to_proxy self)
    ∧ _mem_usage self'
      = _mem_usage self
        - sum_sizes (unshared_dev_mems (proxy_id proxy) bs (proxy_id_to_dev_mems (ext self))).
Proof.
  intros Hinv Hin. pose proof Hinv as [Hcore Hsync Hnd].
  apply dict_contains_true in Hin.
  destruct (proj1 (Hsync _) Hin) as [bs Hbs].
  unfold Proxies_remove. rewrite (bind_Ok_nil _ _ _ (dict_delitem_Ok _ _ Hin)).
  cbn [mem_usage_remove ProxiesOnDevice]. unfold ProxiesOnDevice_mem_usage_remove.
  cbn [set_proxy_id_to_proxy ext]. rewrite Hbs.
  set (self0 := set_proxy_id_to_dev_mems _ _).
  assert (dev_core self0 (λ i b', i = proxy_id proxy ∧ b' ∈ elements bs)) as Hcore0.
  { destruct Hcore as [Hrel Hne Htally]. subst self0. split; simpl; [|done..].
    intros b i. rewrite Hrel, lookup_delete, elem_of_elements.
    case_decide as Hi; [subst i|naive_solver]. rewrite Hbs. naive_solver. }
  destruct (mem_usage_remove_loop_spec (proxy_id proxy) (elements bs) self0
              (NoDup_elements bs) Hcore0)
    as (self1 & Hrun & Hcore1 & Hrefs1 & Hids1).
  { subst self0. simpl. apply lookup_delete_eq. }
  rewrite (bind_Ok_nil _ _ _ Hrun).
  assert (dev_inv self1) as Hinv1.
  { split; [done| |].
    - intros i. rewrite Hrefs1, Hids1. subst self0. simpl.
      rewrite filter_keys_elem, lookup_delete, Hsync.
      case_decide; [subst i|]; split; try naive_solver.
    - rewrite Hids1. subst self0. simpl. by apply filter_keys_NoDup. }
  exists self1, bs.
  assert (_mem_usage self1
          = _mem_usage self
            - sum_sizes (unshared_dev_mems (proxy_id proxy) bs (proxy_id_to_dev_mems (ext self))))
    as Htally1.
  { rewrite (core_tally _ _ Hcore1), (core_tally _ _ Hcore).
    rewrite (dev_core_dom _ Hcore1), (dev_core_dom _ Hcore), Hrefs1. subst self0. simpl.
    rewrite <-(insert_id _ _ _ Hbs) at 2.
    rewrite referenced_dev_mems_insert, (comm_L (∪)), sum_sizes_union.
    unfold unshared_dev_mems. lia. }
  split_and!; [|done|done|by rewrite Hrefs1|by rewrite Hids1|done].
  unfold Proxies_len. destruct (_proxy_id_to_proxy self1) as [|kv d1] eqn:Hd1; simpl.
  - rewrite bool_decide_eq_false_2; [reflexivity|].
    intros Hnz. apply Hnz. by apply dev_inv_empty_tally.
  - reflexivity.
Qed.

Lemma ProxiesOnDevice_init_inv : dev_inv ProxiesOnDevice_init.
Proof.
  split; [split|..]; simpl.
  - intros b i. rewrite !lookup_empty. naive_solver.
  - intros b ps. by rewrite lookup_empty.
  - by rewrite dom_empty_L, sum_sizes_empty.
  - intros i. rewrite lookup_empty. split; [by intros ?%elem_of_nil|by intros ?%is_Some_None].
  - apply NoDup_nil_2.
Qed.

(** *** Sequences of operations on the device registry *)

(** The sequences that raise nothing: every added identity is untracked,
    every removed one is tracked. *)
Fixpoint valid_ops (ops : list registry_op) (refs : gmap nat (gset nat)) : bool :=
  match ops with
  | [] => true
  | OpAdd proxy :: ops' =>
      bool_decide (refs !! proxy_id proxy = None)
      && valid_ops ops'
           (<[proxy_id proxy := list_to_set (_pxy_get_device_memory_objects proxy)]> refs)
  | OpRemove proxy :: ops' =>
      bool_decide (is_Some (refs !! proxy_id proxy))
      && valid_ops ops' (delete (proxy_id proxy) refs)
  end.

Lemma Proxies_add_tracked `{ProxiesImpl E} proxy (self : Proxies E) :
  contains_proxy_id (proxy_id proxy) self = true →
  Proxies_add proxy self = Raise [] (AssertionError "").
Proof. intros Hin. unfold Proxies_add. by rewrite assert_bind_fails by (by rewrite Hin). Qed.

Lemma Proxies_remove_untracked `{ProxiesImpl E} proxy (self : Proxies E) :
  contains_proxy_id (proxy_id proxy) self = false →
  Proxies_remove proxy self = Raise [] KeyError.
Proof.
  intros Hin%dict_contains_false. unfold Proxies_remove.
  by rewrite (dict_delitem_KeyError _ _ Hin).
Qed.

Lemma dev_inv_contains self i :
  dev_inv self →
  contains_proxy_id i self = bool_decide (is_Some (proxy_id_to_dev_mems (ext self) !! i)).
Proof.
  intros [_ Hsync _]. unfold contains_proxy_id, dict_contains.
  apply bool_decide_ext, Hsync.
Qed.

Lemma run_ops_dev_inv ops : ∀ self ws self',
  dev_inv self →
  run_ops ops self = Ok ws self' →
  ws = [] ∧ dev_inv self'
  ∧ proxy_id_to_dev_mems (ext self') = tracked_after ops (proxy_id_to_dev_mems (ext self))
  ∧ valid_ops ops (proxy_id_to_dev_mems (ext self)) = true.
Proof.
  unfold run_ops. induction ops as [|o ops IH]; intros self ws self' Hinv; simpl.
  - by intros [= <- <-].
  - intros (ws1 & self1 & ws2 & Hop & Hrest & ->)%bind_Ok.
    destruct o as [proxy|proxy]; simpl in Hop.
    + destruct (contains_proxy_id (proxy_id proxy) self) eqn:Hin.
      { by rewrite Proxies_add_tracked in Hop. }
      destruct (Proxies_add_dev_spec proxy self Hinv Hin)
        as (self1' & Hadd & Hinv1 & Hrefs1 & _).
      rewrite Hadd in Hop. injection Hop as <- <-.
      destruct (IH _ _ _ Hinv1 Hrest) as (-> & Hinv' & Hrefs' & Hvalid).
      rewrite Hrefs1 in Hrefs', Hvalid. split_and!; [done..|].
      rewrite Hvalid, andb_true_r. apply bool_decide_eq_true_2.
      rewrite (dev_inv_contains _ _ Hinv) in Hin.
      apply bool_decide_eq_false in Hin. by apply eq_None_not_Some.
    + destruct (contains_proxy_id (proxy_id proxy) self) eqn:Hin.
      2:{ by rewrite Proxies_remove_untracked in Hop. }
      destruct (Proxies_remove_dev_spec proxy self Hinv Hin)
        as (self1' & bs & Hrem & Hinv1 & Hbs & Hrefs1 & _).
      rewrite Hrem in Hop. injection Hop as <- <-.
      destruct (IH _ _ _ Hinv1 Hrest) as (-> & Hinv' & Hrefs' & Hvalid).
      rewrite Hrefs1 in Hrefs', Hvalid. split_and!; [done..|].
      rewrite Hvalid, andb_true_r. apply bool_decide_eq_true_2. by eauto.
Qed.

Lemma run_ops_dev_total ops : ∀ self,
  dev_inv self →
  valid_ops ops (proxy_id_to_dev_mems (ext self)) = true →
  ∃ self', run_ops ops self = Ok [] self'.
Proof.
  unfold run_ops. induction ops as [|o ops IH]; intros self Hinv; simpl.
  - intros _. by exists self.
  - destruct o as [proxy|proxy]; simpl;
      intros [Hhd%bool_decide_eq_true Hvalid]%andb_true_iff.
    + destruct (Proxies_add_dev_spec proxy self Hinv)
        as (self1 & Hadd & Hinv1 & Hrefs1 & _).
      { rewrite (dev_inv_contains _ _ Hinv). apply bool_decide_eq_false_2.
        rewrite Hhd. by intros ?%is_Some_None. }
      rewrite (bind_Ok_nil _ _ _ Hadd). apply IH; [done|]. by rewrite Hrefs1.
    + destruct (Proxies_remove_dev_spec proxy self Hinv)
        as (self1 & bs & Hrem & Hinv1 & _ & Hrefs1 & _).
      { rewrite (dev_inv_contains _ _ Hinv). by apply bool_decide_eq_true_2. }
      rewrite (bind_Ok_nil _ _ _ Hrem). apply IH; [done|]. by rewrite Hrefs1.
Qed.

Lemma run_ops_dev_tally ops ws self :
  run_ops ops ProxiesOnDevice_init = Ok ws self →
  _mem_usage self = sum_sizes (referenced_dev_mems (tracked_after ops ∅)).
Proof.
  intros Hrun.
  destruct (run_ops_dev_inv ops _ _ _ ProxiesOnDevice_init_inv Hrun)
    as (_ & [Hcore _ _] & Hrefs & _).
  by rewrite (core_tally _ _ Hcore), (dev_core_dom _ Hcore), Hrefs.
Qed.

Lemma sum_sizes_singleton (b : nat) : sum_sizes {[b]} = sizeof b.
Proof. unfold sum_sizes. rewrite elements_singleton. simpl. lia. Qed.

Lemma run_ops_dev_from_init ops (X : gset nat) :
  valid_ops ops ∅ = true →
  referenced_dev_mems (tracked_after ops ∅) = X →
  ∃ self, run_ops ops ProxiesOnDevice_init = Ok [] self ∧ _mem_usage self = sum_sizes X.
Proof.
  intros Hvalid <-.
  destruct (run_ops_dev_total ops _ ProxiesOnDevice_init_inv Hvalid) as [self Hrun].
  exists self. split; [done|]. by apply (run_ops_dev_tally ops []).
Qed.

Lemma referenced_dev_mems_empty : referenced_dev_mems ∅ = ∅.
Proof.
  apply set_eq. intros b. rewrite referenced_dev_mems_elem. split.
  - intros (i & bs & Hi & _). by rewrite lookup_empty in Hi.
  - by intros ?%elem_of_empty.
Qed.

Ltac solve_referenced :=
  repeat first
    [ rewrite referenced_dev_mems_insert
    | rewrite delete_insert_eq
    | rewrite delete_insert_ne by done
    | rewrite delete_empty
    | rewrite referenced_dev_mems_empty ];
  set_solver.

Ltac solve_valid :=
  repeat first
    [ rewrite delete_insert_eq
    | rewrite delete_insert_ne by done
    | rewrite delete_empty ];
  repeat (rewrite bool_decide_eq_true_2;
          [|first [ apply lookup_empty
                  | by rewrite lookup_insert_eq
                  | by rewrite lookup_insert_ne by done; rewrite lookup_insert_eq
                  | by rewrite lookup_insert_ne by done; apply lookup_empty ]]);
  reflexivity.

(** Two proxies on one buffer: the lemma behind the closing part of the
    statement on the device tally. *)
Lemma shared_buffer_scenario (p1 p2 : ProxyObject) (b : nat) :
  proxy_id p1 ≠ proxy_id p2 →
  _pxy_get_device_memory_objects p1 = [b] →
  _pxy_get_device_memory_objects p2 = [b] →
  ∀ ops tally,
    (ops, tally) ∈
      [ ([OpAdd p1], sizeof b);
        ([OpAdd p1; OpAdd p2], sizeof b);
        ([OpAdd p1; OpAdd p2; OpRemove p1], sizeof b);
        ([OpAdd p1; OpAdd p2; OpRemove p2], sizeof b);
        ([OpAdd p1; OpAdd p2; OpRemove p1; OpRemove p2], 0);
        ([OpAdd p1; OpAdd p2; OpRemove p2; OpRemove p1], 0) ] →
    ∃ self, run_ops ops ProxiesOnDevice_init = Ok [] self ∧ _mem_usage self = tally.
Proof.
  intros Hne Hm1 Hm2 ops tally Hin.
  assert (proxy_id p2 ≠ proxy_id p1) as Hne' by done.
  assert (list_to_set [b] = ({[b]} : gset nat)) as Hset by set_solver.
  assert (∀ X, valid_ops ops ∅ = true →
               referenced_dev_mems (tracked_after ops ∅) = X →
               sum_sizes X = tally →
               ∃ self, run_ops ops ProxiesOnDevice_init = Ok [] self
                       ∧ _mem_usage self = tally) as Huse.
  { intros X Hv Hr <-. by apply run_ops_dev_from_init. }
  repeat (apply elem_of_cons in Hin as [[= -> ->]|Hin]); [..|by apply elem_of_nil in Hin].
  1-4: apply (Huse {[b]});
    [cbn [valid_ops]; rewrite ?Hm1, ?Hm2, ?Hset; solve_valid
    |cbn [tracked_after]; rewrite ?Hm1, ?Hm2, ?Hset; solve_referenced
    |apply sum_sizes_singleton].
  all: apply (Huse ∅);
    [cbn [valid_ops]; rewrite ?Hm1, ?Hm2, ?Hset; solve_valid
    |cbn [tracked_after]; rewrite ?Hm1, ?Hm2, ?Hset; solve_referenced
    |apply sum_sizes_empty].
Qed.

(** C1 (alias-safe device tally). After any sequence of [add] / [remove]
    calls on a fresh [ProxiesOnDevice] that ran without raising, the tally
    is the sum of the sizes of the distinct device buffers that the
    tracked proxies refer to, each buffer counted once however many
    proxies share it, and no warning was emitted. From such a state, adding
    an untracked proxy raises the tally by the sizes of its buffers that no
    tracked proxy referred to, and removing a tracked proxy lowers it by
    the sizes of its buffers that no other tracked proxy refers to. For two
    proxies on one buffer [b] the tally is [sizeof b] while either is
    tracked and 0 once both are removed, in either order of removal. *)
Theorem C1_alias_safe_device_tally (ops : list registry_op) ws self :
  run_ops ops ProxiesOnDevice_init = Ok ws self →
  ws = []
  ∧ proxy_id_to_dev_mems (ext self) = tracked_after ops ∅
  ∧ _mem_usage self = sum_sizes (referenced_dev_mems (tracked_after ops ∅))
  ∧ (∀ proxy, contains_proxy_id (proxy_id proxy) self = false →
       ∃ self', Proxies_add proxy self = Ok [] self'
         ∧ _mem_usage self'
           = _mem_usage self
             + sum_sizes (list_to_set (_pxy_get_device_memory_objects proxy)
                            ∖ referenced_dev_mems (tracked_after ops ∅)))
  ∧ (∀ proxy, contains_proxy_id (proxy_id proxy) self = true →
       ∃ self' bs, Proxies_remove proxy self = Ok [] self'
         ∧ tracked_after ops ∅ !! proxy_id proxy = Some bs
         ∧ _mem_usage self'
           = _mem_usage self
             - sum_sizes (unshared_dev_mems (proxy_id proxy) bs (tracked_after ops ∅)))
  ∧ (∀ p1 p2 b,
       proxy_id p1 ≠ proxy_id p2 →
       _pxy_get_device_memory_objects p1 = [b] →
       _pxy_get_device_memory_objects p2 = [b] →
       ∀ ops' tally,
         (ops', tally) ∈
           [ ([OpAdd p1], sizeof b);
             ([OpAdd p1; OpAdd p2], sizeof b);
             ([OpAdd p1; OpAdd p2; OpRemove p1], sizeof b);
             ([OpAdd p1; OpAdd p2; OpRemove p2], sizeof b);
             ([OpAdd p1; OpAdd p2; OpRemove p1; OpRemove p2], 0);
             ([OpAdd p1; OpAdd p2; OpRemove p2; OpRemove p1], 0) ] →
         ∃ self', run_ops ops' ProxiesOnDevice_init = Ok [] self'
                  ∧ _mem_usage self' = tally).
Proof.
  intros Hrun.
  destruct (run_ops_dev_inv ops _ _ _ ProxiesOnDevice_init_inv Hrun)
    as (-> & Hinv & Hrefs & _).
  simpl in Hrefs. split_and!; [done|done|by apply (run_ops_dev_tally ops [])| | |].
  - intros proxy Hfresh.
    destruct (Proxies_add_dev_spec proxy self Hinv Hfresh) as (self' & Hadd & _ & _ & _ & Ht).
    exists self'. by rewrite <-Hrefs.
  - intros proxy Hin.
    destruct (Proxies_remove_dev_spec proxy self Hinv Hin)
      as (self' & bs & Hrem & _ & Hbs & _ & _ & Ht).
    exists self', bs. by rewrite <-Hrefs.
  - apply shared_buffer_scenario.
Qed.

End device_facts.

(** ** The base class: removal and the tally of an empty registry *)

Lemma Proxies_remove_unfold `{ProxiesImpl E} proxy (self self1 : Proxies E) ws1 :
  contains_proxy_id (proxy_id proxy) self = true →
  mem_usage_remove proxy
    (set_proxy_id_to_proxy
       (filter (λ kv, kv.1 ≠ proxy_id proxy) (_proxy_id_to_proxy self)) self)
  = Ok ws1 self1 →
  Proxies_remove proxy self
  = if bool_decide (Proxies_len self1 = 0%nat) then
      if bool_decide (_mem_usage self1 ≠ 0)
      then Ok (ws1 ++ [TallyReset (_mem_usage self1)]) (set_mem_usage 0 self1)
      else Ok ws1 self1
    else Ok ws1 self1.
Proof.
  intros Hin%dict_contains_true Hrem. unfold Proxies_remove.
  rewrite (bind_Ok_nil _ _ _ (dict_delitem_Ok _ _ Hin)).
  unfold mbind, M_bind, bind. rewrite Hrem.
  repeat case_bool_decide; simpl; by rewrite ?app_nil_r.
Qed.

(** C8 (empty-registry tally auto-correction). For each kind of registry:
    when [remove] has taken the proxy out and [mem_usage_remove] has
    returned, and no identity is tracked any more, then [remove] does not
    raise and leaves the tally at exactly 0; if the tally was not 0 at that
    point, one [TallyReset] warning reporting it is emitted after whatever
    [mem_usage_remove] emitted and only the tally is changed; if it was 0,
    nothing is emitted and nothing is changed. *)
Theorem C8_empty_registry_tally_reset `{ProxiesImpl E} proxy (self self1 : Proxies E) ws1 :
  contains_proxy_id (proxy_id proxy) self = true →
  mem_usage_remove proxy
    (set_proxy_id_to_proxy
       (filter (λ kv, kv.1 ≠ proxy_id proxy) (_proxy_id_to_proxy self)) self)
  = Ok ws1 self1 →
  Proxies_len self1 = 0%nat →
  ∃ ws self',
    Proxies_remove proxy self = Ok ws self'
    ∧ _mem_usage self' = 0
    ∧ Proxies_len self' = 0%nat
    ∧ (_mem_usage self1 ≠ 0 →
         ws = ws1 ++ [TallyReset (_mem_usage self1)] ∧ self' = set_mem_usage 0 self1)
    ∧ (_mem_usage self1 = 0 → ws = ws1 ∧ self' = self1).
Proof.
  intros Hin Hrem Hlen. rewrite (Proxies_remove_unfold _ _ _ _ Hin Hrem).
  rewrite bool_decide_eq_true_2 by done.
  destruct (decide (_mem_usage self1 = 0)) as [Hz|Hnz].
  - rewrite bool_decide_eq_false_2 by (by intros ?).
    exists ws1, self1. by split_and!.
  - rewrite bool_decide_eq_true_2 by done.
    exists (ws1 ++ [TallyReset (_mem_usage self1)]), (set_mem_usage 0 self1).
    by split_and!.
Qed.

(** ** The host and disk registries *)

Lemma Proxies_add_host_spec proxy (self : Proxies unit) :
  contains_proxy_id (proxy_id proxy) self = false →
  Proxies_add proxy self
  = Ok [] (Build_Proxies (_proxy_id_to_proxy self ++ [(proxy_id proxy, weakref_ref proxy)])
             (_mem_usage self + sizeof_proxy proxy) (ext self)).
Proof.
  intros Hfresh. unfold Proxies_add. rewrite assert_bind by (by rewrite Hfresh).
  apply dict_contains_false in Hfresh. by rewrite dict_setitem_fresh.
Qed.

Lemma Proxies_remove_host_spec proxy (self : Proxies unit) :
  contains_proxy_id (proxy_id proxy) self = true →
  ∃ ws self', Proxies_remove proxy self = Ok ws self'
    ∧ _proxy_id_to_proxy self'
      = filter (λ kv, kv.1 ≠ proxy_id proxy) (_proxy_id_to_proxy self).
Proof.
  intros Hin.
  set (d := filter (λ kv : nat * nat, kv.1 ≠ proxy_id proxy) (_proxy_id_to_proxy self)).
  assert (mem_usage_remove proxy (set_proxy_id_to_proxy d self)
          = Ok [] (set_mem_usage (_mem_usage self - sizeof_proxy proxy)
                     (set_proxy_id_to_proxy d self))) as Hrem by reflexivity.
  rewrite (Proxies_remove_unfold _ _ _ _ Hin Hrem).
  repeat case_bool_decide; eexists _, _; (split; [reflexivity|done]).
Qed.

(** ** The manager *)

Section manager_facts.
Context `{!Sizeof}.

(** Whether the collection named [t] tracks the identity. *)
Definition tier_contains (t : Tier) (proxy_id : nat) (self : ProxyManager) : bool :=
  match t with
  | Disk => contains_proxy_id proxy_id (_disk self)
  | Host => contains_proxy_id proxy_id (_host self)
  | Dev => contains_proxy_id proxy_id (_dev self)
  end.

(** The identities a collection tracks, in dictionary order. *)
Definition tier_ids (t : Tier) (self : ProxyManager) : list nat :=
  match t with
  | Disk => (_proxy_id_to_proxy (_disk self)).*1
  | Host => (_proxy_id_to_proxy (_host self)).*1
  | Dev => (_proxy_id_to_proxy (_dev self)).*1
  end.

Definition tier_mem_usage (t : Tier) (self : ProxyManager) : Z :=
  match t with
  | Disk => mem_usage (_disk self)
  | Host => mem_usage (_host self)
  | Dev => mem_usage (_dev self)
  end.

Lemma tier_contains_ids t i self : tier_contains t i self = true ↔ i ∈ tier_ids t self.
Proof. destruct t; apply dict_contains_true. Qed.

Lemma get_proxies_by_serializer_cases (serializer : option string) :
  (serializer = Some "disk"%string ∧ get_proxies_by_serializer serializer = Disk)
  ∨ ((serializer = Some "dask"%string ∨ serializer = Some "pickle"%string)
     ∧ get_proxies_by_serializer serializer = Host)
  ∨ (serializer ≠ Some "disk"%string ∧ serializer ≠ Some "dask"%string
     ∧ serializer ≠ Some "pickle"%string ∧ get_proxies_by_serializer serializer = Dev).
Proof.
  unfold get_proxies_by_serializer.
  repeat case_bool_decide; simpl; subst; try naive_solver.
Qed.

Lemma get_proxies_by_proxy_object_unique t proxy self :
  tier_contains t (proxy_id proxy) self = true →
  (∀ t', t' ≠ t → tier_contains t' (proxy_id proxy) self = false) →
  get_proxies_by_proxy_object proxy self = Some t.
Proof.
  intros Hin Hout. unfold get_proxies_by_proxy_object.
  pose proof (Hout Dev) as HDev. pose proof (Hout Host) as HHost. simpl in HDev, HHost.
  destruct t; simpl in Hin.
  - by rewrite HDev, HHost, Hin.
  - by rewrite HDev, Hin.
  - by rewrite Hin.
Qed.

Lemma get_proxies_by_proxy_object_None proxy self :
  get_proxies_by_proxy_object proxy self = None ↔
  ProxyManager_contains (proxy_id proxy) self = false.
Proof.
  unfold get_proxies_by_proxy_object, ProxyManager_contains.
  destruct (contains_proxy_id (proxy_id proxy) (_dev self)),
    (contains_proxy_id (proxy_id proxy) (_host self)),
    (contains_proxy_id (proxy_id proxy) (_disk self)); naive_solver.
Qed.

Lemma get_proxies_by_proxy_object_Some t proxy self :
  get_proxies_by_proxy_object proxy self = Some t →
  tier_contains t (proxy_id proxy) self = true.
Proof.
  unfold get_proxies_by_proxy_object.
  destruct (contains_proxy_id (proxy_id proxy) (_dev self)) eqn:Hdev;
    [by intros [= <-]|].
  destruct (contains_proxy_id (proxy_id proxy) (_host self)) eqn:Hhost;
    [by intros [= <-]|].
  destruct (contains_proxy_id (proxy_id proxy) (_disk self)) eqn:Hdisk;
    [by intros [= <-]|done].
Qed.

Lemma ProxyManager_add_same proxy serializer self :
  get_proxies_by_proxy_object proxy self = Some (get_proxies_by_serializer serializer) →
  ProxyManager_add proxy serializer self = Ok [] self.
Proof.
  intros Hloc. unfold ProxyManager_add. rewrite Hloc.
  by rewrite bool_decide_eq_false_2 by (by intros ?).
Qed.

(** C6 (idempotent re-insertion). For a proxy that is tracked in one
    collection and in no other, [add] with a serializer tag that
    designates that collection returns the manager as it was: no
    collection's dictionary, tally or other field changes, nothing is
    raised and nothing is warned. *)
Theorem C6_idempotent_reinsertion proxy serializer self :
  tier_contains (get_proxies_by_serializer serializer) (proxy_id proxy) self = true →
  (∀ t', t' ≠ get_proxies_by_serializer serializer →
         tier_contains t' (proxy_id proxy) self = false) →
  ProxyManager_add proxy serializer self = Ok [] self.
Proof.
  intros Hin Hout. apply ProxyManager_add_same.
  by apply get_proxies_by_proxy_object_unique.
Qed.

Lemma contains_after_filter {E} (self self' : Proxies E) k i :
  _proxy_id_to_proxy self' = filter (λ kv, kv.1 ≠ k) (_proxy_id_to_proxy self) →
  contains_proxy_id i self' = if decide (i = k) then false else contains_proxy_id i self.
Proof.
  intros Hids. unfold contains_proxy_id, dict_contains. rewrite Hids.
  case_decide as Hi.
  - apply bool_decide_eq_false_2. rewrite filter_keys_elem. naive_solver.
  - apply bool_decide_ext. rewrite filter_keys_elem. naive_solver.
Qed.

(** Removal from the collection that tracks the proxy: it succeeds, the
    identity is gone from that collection, every other identity stays, and
    the other collections and the limits are untouched. *)
Lemma tier_remove_spec t proxy self :
  tier_contains t (proxy_id proxy) self = true →
  dev_inv (_dev self) →
  ∃ ws self', tier_remove t proxy self = Ok ws self'
    ∧ (∀ i, tier_contains t i self'
            = if decide (i = proxy_id proxy) then false else tier_contains t i self)
    ∧ (∀ t', t' ≠ t → tier_ids t' self' = tier_ids t' self
                      ∧ tier_mem_usage t' self' = tier_mem_usage t' self)
    ∧ (t ≠ Dev → _dev self' = _dev self)
    ∧ dev_inv (_dev self')
    ∧ _device_memory_limit self' = _device_memory_limit self
    ∧ _host_memory_limit self' = _host_memory_limit self.
Proof.
  intros Hin Hinv. destruct t; simpl in Hin; unfold tier_remove.
  - destruct (Proxies_remove_host_spec proxy (_disk self) Hin) as (ws & r & Hrem & Hids).
    exists ws, (set_disk r self). unfold mbind, M_bind, bind. rewrite Hrem. simpl.
    rewrite app_nil_r. split_and!; try done.
    + intros i. by apply contains_after_filter.
    + by intros [] ?.
  - destruct (Proxies_remove_host_spec proxy (_host self) Hin) as (ws & r & Hrem & Hids).
    exists ws, (set_host r self). unfold mbind, M_bind, bind. rewrite Hrem. simpl.
    rewrite app_nil_r. split_and!; try done.
    + intros i. by apply contains_after_filter.
    + by intros [] ?.
  - destruct (Proxies_remove_dev_spec proxy (_dev self) Hinv Hin)
      as (r & bs & Hrem & Hinv' & _ & _ & Hids & _).
    exists [], (set_dev r self). rewrite (bind_Ok_nil _ _ _ Hrem).
    split_and!; try done.
    + intros i. by apply contains_after_filter.
    + by intros [] ?.
Qed.

(** C7 (removal error behaviour). [remove] raises the assertion "Trying to
    remove unknown proxy" when no collection tracks the proxy, and the
    assertion "Proxy in multiple locations" when two different collections
    track it. When exactly one collection tracks it, [remove] is that
    collection's [remove]; with the device registry consistent it returns
    normally, the proxy is gone from that collection, the other identities
    of that collection stay, and the two other collections are as
    before. *)
Theorem C7_remove_error_behaviour proxy self :
  (ProxyManager_contains (proxy_id proxy) self = false →
   ProxyManager_remove proxy self
   = Raise [] (AssertionError "Trying to remove unknown proxy"))
  ∧ (∀ t1 t2, t1 ≠ t2 →
       tier_contains t1 (proxy_id proxy) self = true →
       tier_contains t2 (proxy_id proxy) self = true →
       ProxyManager_remove proxy self
       = Raise [] (AssertionError "Proxy in multiple locations"))
  ∧ (∀ t, tier_contains t (proxy_id proxy) self = true →
       (∀ t', t' ≠ t → tier_contains t' (proxy_id proxy) self = false) →
       ProxyManager_remove proxy self = tier_remove t proxy self
       ∧ (dev_inv (_dev self) →
          ∃ ws self', ProxyManager_remove proxy self = Ok ws self'
            ∧ ProxyManager_contains (proxy_id proxy) self' = false
            ∧ (∀ i, i ≠ proxy_id proxy →
                    tier_contains t i self' = tier_contains t i self)
            ∧ (∀ t', t' ≠ t → tier_ids t' self' = tier_ids t' self
                              ∧ tier_mem_usage t' self' = tier_mem_usage t' self))).
Proof.
  assert (∀ t, tier_contains t (proxy_id proxy) self = true →
            (∀ t', t' ≠ t → tier_contains t' (proxy_id proxy) self = false) →
            ProxyManager_remove proxy self = tier_remove t proxy self) as Hone.
  { intros t Hin Hout. unfold ProxyManager_remove.
    pose proof (Hout Disk) as HDisk. pose proof (Hout Host) as HHost.
    pose proof (Hout Dev) as HDev. simpl in HDisk, HHost, HDev.
    destruct t; simpl in Hin.
    - rewrite Hin, HHost, HDev by done. by msimpl.
    - rewrite HDisk, Hin, HDev by done. by msimpl.
    - rewrite HDisk, HHost, Hin by done. by msimpl. }
  split_and!.
  - unfold ProxyManager_contains, ProxyManager_remove.
    intros [[-> ->]%orb_false_elim ->]%orb_false_elim. by msimpl.
  - unfold ProxyManager_remove. intros [] [] Hne H1 H2; simpl in H1, H2; try done;
      rewrite ?H1, ?H2;
      destruct (contains_proxy_id (proxy_id proxy) (_host self));
      destruct (contains_proxy_id (proxy_id proxy) (_disk self));
      destruct (contains_proxy_id (proxy_id proxy) (_dev self));
      try done; by msimpl.
  - intros t Hin Hout. split; [by apply Hone|]. intros Hinv.
    rewrite (Hone t Hin Hout).
    destruct (tier_remove_spec t proxy self Hin Hinv)
      as (ws & self' & Hrem & Ht & Hothers & _).
    exists ws, self'. split_and!; [done| | |done].
    + assert (∀ t', tier_contains t' (proxy_id proxy) self' = false) as Hgone.
      { intros t'. destruct (decide (t' = t)) as [->|Hne].
        - rewrite Ht. by rewrite decide_True.
        - apply not_true_is_false. rewrite tier_contains_ids.
          rewrite (proj1 (Hothers t' Hne)), <-tier_contains_ids.
          by rewrite (Hout t' Hne). }
      unfold ProxyManager_contains.
      pose proof (Hgone Disk) as HDisk. pose proof (Hgone Host) as HHost.
      pose proof (Hgone Dev) as HDev. simpl in HDisk, HHost, HDev.
      by rewrite HDisk, HHost, HDev.
    + intros i Hi. rewrite Ht. by rewrite decide_False.
Qed.

Lemma tier_add_dev_spec proxy self :
  dev_inv (_dev self) →
  tier_contains Dev (proxy_id proxy) self = false →
  ∃ self', tier_add Dev proxy self = Ok [] self'
    ∧ tier_contains Dev (proxy_id proxy) self' = true
    ∧ dev_inv (_dev self')
    ∧ tier_mem_usage Dev self'
      = tier_mem_usage Dev self
        + sum_sizes (list_to_set (_pxy_get_device_memory_objects proxy)
                       ∖ referenced_dev_mems (proxy_id_to_dev_mems (ext (_dev self))))
    ∧ _disk self' = _disk self ∧ _host self' = _host self.
Proof.
  intros Hinv Hfresh. simpl in Hfresh.
  destruct (Proxies_add_dev_spec proxy (_dev self) Hinv Hfresh)
    as (r & Hadd & Hinv' & _ & Hids & Ht).
  exists (set_dev r self). unfold tier_add. rewrite (bind_Ok_nil _ _ _ Hadd).
  split_and!; try done. simpl. apply dict_contains_true. rewrite Hids.
  rewrite fmap_app, elem_of_app. right. simpl. apply list_elem_of_singleton. done.
Qed.

(** C10 (serializer-tag dispatch). [get_proxies_by_serializer] answers the
    disk collection exactly for the tag "disk", the host collection exactly
    for "dask" and "pickle", and the device collection for everything else,
    [None] included. So for a tag other than those three and a proxy the
    device collection does not track yet, [add] (with the device registry
    consistent) returns normally, the device collection tracks the proxy
    afterwards, and the device tally has grown by the sizes of the
    proxy's buffers that no tracked proxy referred to. *)
Theorem C10_serializer_dispatch_defaults_to_device :
  (∀ s, get_proxies_by_serializer s = Disk ↔ s = Some "disk"%string)
  ∧ (∀ s, get_proxies_by_serializer s = Host
          ↔ s = Some "dask"%string ∨ s = Some "pickle"%string)
  ∧ (∀ s, get_proxies_by_serializer s = Dev
          ↔ s ≠ Some "disk"%string ∧ s ≠ Some "dask"%string ∧ s ≠ Some "pickle"%string)
  ∧ get_proxies_by_serializer None = Dev
  ∧ (∀ proxy s self,
       s ≠ Some "disk"%string → s ≠ Some "dask"%string → s ≠ Some "pickle"%string →
       dev_inv (_dev self) →
       tier_contains Dev (proxy_id proxy) self = false →
       ∃ ws self', ProxyManager_add proxy s self = Ok ws self'
         ∧ tier_contains Dev (proxy_id proxy) self' = true
         ∧ tier_mem_usage Dev self'
           = tier_mem_usage Dev self
             + sum_sizes (list_to_set (_pxy_get_device_memory_objects proxy)
                            ∖ referenced_dev_mems
                                (proxy_id_to_dev_mems (ext (_dev self))))).
Proof.
  split_and!.
  - intros s. destruct (get_proxies_by_serializer_cases s) as [[? ->]|[[? ->]|(?&?&?&->)]];
      naive_solver.
  - intros s. destruct (get_proxies_by_serializer_cases s) as [[-> ->]|[[? ->]|(?&?&?&->)]];
      naive_solver.
  - intros s. destruct (get_proxies_by_serializer_cases s) as [[-> ->]|[[? ->]|(?&?&?&->)]];
      naive_solver.
  - done.
  - intros proxy s self H1 H2 H3 Hinv Hfresh.
    assert (get_proxies_by_serializer s = Dev) as Hnew.
    { destruct (get_proxies_by_serializer_cases s) as [[? _]|[[[?|?] _]|(_&_&_&?)]]; done. }
    unfold ProxyManager_add. rewrite Hnew.
    destruct (get_proxies_by_proxy_object proxy self) as [old|] eqn:Hold.
    + assert (old ≠ Dev) as Hne.
      { intros ->. apply get_proxies_by_proxy_object_Some in Hold. congruence. }
      rewrite bool_decide_eq_true_2 by congruence.
      apply get_proxies_by_proxy_object_Some in Hold.
      destruct (tier_remove_spec old proxy self Hold Hinv)
        as (ws & self1 & Hrem & _ & _ & Hdev & Hinv1 & _).
      specialize (Hdev Hne).
      destruct (tier_add_dev_spec proxy self1 Hinv1)
        as (self2 & Hadd & Hin2 & _ & Ht & _).
      { simpl. by rewrite Hdev. }
      exists ws, self2. unfold mbind, M_bind, bind. rewrite Hrem, Hadd, app_nil_r.
      split_and!; [done..|]. rewrite Ht. simpl. by rewrite Hdev.
    + rewrite bool_decide_eq_true_2 by done. msimpl.
      destruct (tier_add_dev_spec proxy self Hinv Hfresh)
        as (self2 & Hadd & Hin2 & _ & Ht & _).
      by exists [], self2.
Qed.

End manager_facts.

(** ** Eviction: the order of the victims *)

(** Ascending access time, and descending size among equal times. *)
Definition access_le (x y : access_info) : Prop :=
  x.1.1 < y.1.1 ∨ (x.1.1 = y.1.1 ∧ y.1.2 ≤ x.1.2).

Lemma key_ltb_false (x y : access_info) :
  key_ltb (sort_key y) (sort_key x) = false ↔ access_le x y.
Proof.
  unfold key_ltb, sort_key, access_le. simpl.
  destruct (Z.ltb_spec y.1.1 x.1.1), (Z.eqb_spec y.1.1 x.1.1),
    (Z.ltb_spec (- y.1.2) (- x.1.2)); simpl; split; try done; lia.
Qed.

Lemma key_ltb_true (x y : access_info) :
  key_ltb (sort_key y) (sort_key x) = true ↔ ¬ access_le x y.
Proof. rewrite <-key_ltb_false. by destruct (key_ltb _ _). Qed.

Lemma access_le_trans (x y z : access_info) : access_le x y → access_le y z → access_le x z.
Proof. unfold access_le. lia. Qed.

Lemma access_le_total (x y : access_info) : access_le x y ∨ access_le y x.
Proof. unfold access_le. lia. Qed.

Lemma access_le_antisym_key (x y : access_info) :
  access_le x y → access_le y x → sort_key x = sort_key y.
Proof. unfold access_le, sort_key. intros ??. f_equal; lia. Qed.

Lemma sort_insert_perm x l : sort_insert x l ≡ₚ x :: l.
Proof.
  induction l as [|y l IH]; simpl; [done|].
  destruct (key_ltb _ _); [|done]. rewrite IH. apply Permutation_swap.
Qed.

Lemma sort_access_perm l : sort_access l ≡ₚ l.
Proof.
  induction l as [|x l IH]; simpl; [done|].
  rewrite sort_insert_perm. by f_equiv.
Qed.

Lemma sort_insert_sorted x l :
  StronglySorted access_le l → StronglySorted access_le (sort_insert x l).
Proof.
  induction 1 as [|y l Hl IH Hy]; simpl.
  - repeat constructor.
  - destruct (key_ltb (sort_key y) (sort_key x)) eqn:Hlt.
    + constructor; [done|]. rewrite sort_insert_perm. constructor; [|done].
      apply key_ltb_true in Hlt. by destruct (access_le_total x y).
    + apply key_ltb_false in Hlt. constructor; [by constructor|].
      constructor; [done|]. eapply Forall_impl; [done|].
      intros z Hz. by eapply access_le_trans.
Qed.

Lemma sort_access_sorted l : StronglySorted access_le (sort_access l).
Proof.
  induction l as [|x l IH]; simpl; [constructor|]. by apply sort_insert_sorted.
Qed.

Lemma sort_insert_stable (k : Z * Z) x l :
  filter (λ y, sort_key y = k) (sort_insert x l)
  = filter (λ y, sort_key y = k) (x :: l).
Proof.
  induction l as [|y l IH]; simpl; [done|].
  destruct (key_ltb (sort_key y) (sort_key x)) eqn:Hlt; [|done].
  rewrite (filter_cons _ y), IH, !(filter_cons _ x), !(filter_cons _ y).
  destruct (decide (sort_key x = k)) as [Hx|Hx]; [|done].
  destruct (decide (sort_key y = k)) as [Hy|Hy]; [|done].
  apply key_ltb_true in Hlt. exfalso. apply Hlt.
  unfold access_le. unfold sort_key in Hx, Hy. rewrite <-Hy in Hx.
  injection Hx as Ht Hs. lia.
Qed.

Lemma sort_access_stable (k : Z * Z) l :
  filter (λ y, sort_key y = k) (sort_access l) = filter (λ y, sort_key y = k) l.
Proof.
  induction l as [|x l IH]; simpl; [done|].
  by rewrite sort_insert_stable, !filter_cons, IH.
Qed.

(** A list whose entries have pairwise different keys has one arrangement
    in key order. *)
Lemma sort_access_unique l l0 :
  l ≡ₚ l0 →
  StronglySorted access_le l0 →
  (∀ x y, x ∈ l0 → y ∈ l0 → sort_key x = sort_key y → x = y) →
  sort_access l = l0.
Proof.
  intros Hp Hs Hinj. apply (StronglySorted_unique_strong access_le).
  - intros x y Hx Hy Hxy Hyx. apply Hinj; [|done|by apply access_le_antisym_key].
    by rewrite <-Hp, <-(sort_access_perm l).
  - apply sort_access_sorted.
  - done.
  - by rewrite sort_access_perm.
Qed.

(** C2 (eviction victim ordering). The list [evict] walks is a
    rearrangement of the snapshot, in ascending order of access time with
    larger sizes first among equal times, and entries with the same time
    and size keep the order they had in the snapshot. Hence three entries
    of one size with times [t1 < t2 < t3] are walked in that order, and of
    two entries with one time the larger is walked first, whatever the
    order of the snapshot. *)
Theorem C2_eviction_victim_ordering (access : list access_info) :
  sort_access access ≡ₚ access
  ∧ StronglySorted
      (λ x y, x.1.1 < y.1.1 ∨ (x.1.1 = y.1.1 ∧ y.1.2 ≤ x.1.2)) (sort_access access)
  ∧ (∀ t size,
       filter (λ x, x.1.1 = t ∧ x.1.2 = size) (sort_access access)
       = filter (λ x, x.1.1 = t ∧ x.1.2 = size) access)
  ∧ (∀ e1 e2 e3 : access_info,
       e1.1.1 < e2.1.1 → e2.1.1 < e3.1.1 →
       e1.1.2 = e2.1.2 → e2.1.2 = e3.1.2 →
       access ≡ₚ [e1; e2; e3] →
       sort_access access = [e1; e2; e3])
  ∧ (∀ e1 e2 : access_info,
       e1.1.1 = e2.1.1 → e1.1.2 > e2.1.2 →
       access ≡ₚ [e1; e2] →
       sort_access access = [e1; e2]).
Proof.
  split_and!.
  - apply sort_access_perm.
  - apply sort_access_sorted.
  - intros t size.
    assert (∀ l : list access_info,
              filter (λ x, x.1.1 = t ∧ x.1.2 = size) l
              = filter (λ y, sort_key y = (t, - size)) l) as Hf.
    { intros l. apply list_filter_iff. intros x. unfold sort_key. split.
      - by intros [-> ->].
      - intros [= ? ?]. split; [done|lia]. }
    rewrite !Hf. apply sort_access_stable.
  - intros e1 e2 e3 H12 H23 Hs12 Hs23 Hp. apply sort_access_unique; [done| |].
    + unfold access_le. repeat constructor; lia.
    + intros x y Hx Hy [= Ht _].
      repeat (apply elem_of_cons in Hx as [->|Hx]); [..|by apply elem_of_nil in Hx];
      repeat (apply elem_of_cons in Hy as [->|Hy]); try (by apply elem_of_nil in Hy);
      try done; lia.
  - intros e1 e2 Ht Hs Hp. apply sort_access_unique; [done| |].
    + unfold access_le. repeat constructor; lia.
    + intros x y Hx Hy [= _ Hsz].
      repeat (apply elem_of_cons in Hx as [->|Hx]); [..|by apply elem_of_nil in Hx];
      repeat (apply elem_of_cons in Hy as [->|Hy]); try (by apply elem_of_nil in Hy);
      try done; lia.
Qed.

(** ** Eviction: the walk and the calls of the serializer *)

(** The sizes of a run of entries, added up, and their proxies, in order. *)
Definition sizes_sum (l : list access_info) : Z := foldr (λ x acc, x.1.2 + acc) 0 l.

Definition proxies_of (l : list access_info) : list ProxyObject := concat (snd <$> l).

(** The first occurrence of every identity of a list, in the order of
    the list, identities of [seen] left out. *)
Fixpoint first_by_id (ps : list ProxyObject) (seen : gset nat) : list ProxyObject :=
  match ps with
  | [] => []
  | p :: rest =>
      if bool_decide (proxy_id p ∈ seen) then first_by_id rest seen
      else p :: first_by_id rest (seen ∪ {[proxy_id p]})
  end.

Lemma sizes_sum_app l1 l2 : sizes_sum (l1 ++ l2) = sizes_sum l1 + sizes_sum l2.
Proof. unfold sizes_sum. induction l1 as [|x l1 IH]; simpl; lia. Qed.

Lemma evict_walk_spec nbytes access : ∀ freed0 pts0 freed pts,
  evict_walk nbytes access freed0 pts0 = (freed, pts) →
  ∃ k : nat,
    (k ≤ length access)%nat
    ∧ freed = freed0 + sizes_sum (take k access)
    ∧ pts = pts0 ++ proxies_of (take k access)
    ∧ (∀ j : nat, (0 < j < k)%nat → freed0 + sizes_sum (take j access) < nbytes)
    ∧ ((0 < k)%nat ∧ freed >= nbytes ∨ k = length access ∧ (k = 0%nat ∨ freed < nbytes)).
Proof.
  induction access as [|[[t size] proxies] access IH]; intros freed0 pts0 freed pts; simpl.
  - intros [= <- <-]. exists 0%nat. simpl. unfold proxies_of. simpl.
    rewrite app_nil_r. split_and!; [lia|unfold sizes_sum; simpl; lia|done|lia|by right; auto].
  - case_bool_decide as Hstop.
    + intros [= <- <-]. exists 1%nat. unfold proxies_of, sizes_sum. simpl.
      rewrite ?take_0; simpl. rewrite app_nil_r.
      split_and!; [lia|lia|done|lia|left; lia].
    + intros Hwalk. destruct (IH _ _ _ _ Hwalk) as (k & Hk & Hfreed & Hpts & Hmin & Hend).
      exists (S k). unfold proxies_of, sizes_sum in *. simpl.
      split_and!; [lia|lia|by rewrite Hpts, <-app_assoc| |].
      * intros [|j] Hj; [lia|]. simpl. destruct j as [|j].
        { rewrite ?take_0; simpl. lia. }
        specialize (Hmin (S j)). simpl in Hmin. lia.
      * destruct Hend as [[? ?]|[-> Hless]]; [left; lia|right].
        split; [done|]. right. destruct Hless as [Hz|?]; [|done].
        apply nil_length_inv in Hz. subst access. simpl in Hfreed. lia.
Qed.

Lemma evict_serialize_first_by_id {S} (serializer : ProxyObject → S → M S) ps :
  ∀ seen s,
    evict_serialize ps seen serializer s = for_each (first_by_id ps seen) serializer s.
Proof.
  induction ps as [|p ps IH]; intros seen s; simpl; [done|].
  destruct (decide (proxy_id p ∈ seen)) as [Hin|Hout].
  - rewrite bool_decide_eq_false_2 by (by intros ?).
    rewrite bool_decide_eq_true_2 by done. apply IH.
  - rewrite bool_decide_eq_true_2 by done.
    rewrite bool_decide_eq_false_2 by done. simpl.
    unfold mbind, M_bind, bind. destruct (serializer p s) as [ws s'|]; [|done].
    by rewrite IH.
Qed.

Lemma first_by_id_elem ps : ∀ seen i,
  i ∈ proxy_id <$> first_by_id ps seen ↔ i ∈ proxy_id <$> ps ∧ i ∉ seen.
Proof.
  induction ps as [|p ps IH]; intros seen i; simpl.
  - rewrite elem_of_nil. naive_solver.
  - case_bool_decide as Hin; rewrite ?fmap_cons, ?elem_of_cons, IH.
    + split; [naive_solver|]. intros [[->|?] ?]; [done|naive_solver].
    + rewrite elem_of_union, elem_of_singleton.
      destruct (decide (i = proxy_id p)); naive_solver.
Qed.

Lemma first_by_id_NoDup ps : ∀ seen, NoDup (proxy_id <$> first_by_id ps seen).
Proof.
  induction ps as [|p ps IH]; intros seen; simpl; [apply NoDup_nil_2|].
  case_bool_decide; [apply IH|]. rewrite fmap_cons. apply NoDup_cons. split; [|apply IH].
  rewrite first_by_id_elem. set_solver.
Qed.

Lemma first_by_id_sublist ps : ∀ seen, sublist (first_by_id ps seen) ps.
Proof.
  induction ps as [|p ps IH]; intros seen; simpl; [constructor|].
  case_bool_decide; [apply sublist_cons|apply sublist_skip]; apply IH.
Qed.

(** C3 (eviction accumulation and demotion). [evict] takes the entries of
    the sorted snapshot from the front up to and including the first one
    at which the running sum of sizes reaches [nbytes], or all of them if
    the sum never does; so the sum it returns is below [nbytes] only when
    every entry was taken. The serializer is called on the proxies of the
    taken entries in their order, once for each identity, at its first
    occurrence; the value returned is the sum of the sizes of the taken
    entries. *)
Theorem C3_eviction_accumulation_and_demotion {S} (nbytes : Z)
    (proxies_access : S → M (list access_info))
    (serializer : ProxyObject → S → M S) (s : S) ws access :
  proxies_access s = Ok ws access →
  ∃ k : nat,
    let taken := take k (sort_access access) in
    let calls := first_by_id (proxies_of taken) ∅ in
    (k ≤ length access)%nat
    ∧ (∀ j : nat, (0 < j < k)%nat → sizes_sum (take j (sort_access access)) < nbytes)
    ∧ ((0 < k)%nat ∧ sizes_sum taken >= nbytes
       ∨ k = length access ∧ (k = 0%nat ∨ sizes_sum taken < nbytes))
    ∧ NoDup (proxy_id <$> calls)
    ∧ (∀ i, i ∈ proxy_id <$> calls ↔ i ∈ proxy_id <$> proxies_of taken)
    ∧ sublist calls (proxies_of taken)
    ∧ evict nbytes proxies_access serializer s
      = (proxies_access s ;;
         s' ← for_each calls serializer s;
         mret (sizes_sum taken, s')).
Proof.
  intros Haccess. unfold evict.
  destruct (evict_walk nbytes (sort_access access) 0 []) as [freed pts] eqn:Hwalk.
  destruct (evict_walk_spec _ _ _ _ _ _ Hwalk) as (k & Hk & Hfreed & Hpts & Hmin & Hend).
  exists k. simpl in Hpts. rewrite Z.add_0_l in Hfreed. subst freed pts.
  rewrite (Permutation_length (sort_access_perm access)) in Hk, Hend.
  split_and!; [done| |done|apply first_by_id_NoDup| |apply first_by_id_sublist|].
  - intros j Hj. specialize (Hmin j Hj). lia.
  - intros i. rewrite first_by_id_elem. set_solver.
  - rewrite Haccess. unfold mbind, M_bind, bind.
    rewrite Hwalk. simpl. by rewrite evict_serialize_first_by_id.
Qed.

(** ** The device access snapshot *)

Section snapshot_facts.
Context `{!Sizeof}.

Lemma dict_get_elem {K V} `{EqDecision K} (k : K) (v : V) (d : list (K * V)) :
  NoDup d.*1 → (k, v) ∈ d → dict_get k d = Some v.
Proof.
  induction d as [|[k' v'] d IH]; simpl; [by intros _ ?%elem_of_nil|].
  rewrite NoDup_cons. intros [Hk' Hnd] [[= -> ->]|Hin]%elem_of_cons.
  - by rewrite decide_True.
  - rewrite decide_False; [by apply IH|]. intros ->. apply Hk'.
    apply list_elem_of_fmap. by exists (k, v).
Qed.

(** The (proxy, buffer) pairs in the order the two nested loops of
    [get_dev_access_info] visit them, and the proxies paired with [b]. *)
Definition visited_pairs (proxies : list ProxyObject) : list (ProxyObject * nat) :=
  proxies ≫= λ p, (λ b, (p, b)) <$> _pxy_get_device_memory_objects p.

Definition buffer_refs (b : nat) (pbs : list (ProxyObject * nat)) : list ProxyObject :=
  (filter (λ pb, pb.2 = b) pbs).*1.

Definition buffers_inv (B : list (nat * list ProxyObject)) (pbs : list (ProxyObject * nat)) : Prop :=
  NoDup B.*1
  ∧ ∀ b, dict_get b B = match buffer_refs b pbs with [] => None | ps => Some ps end.

Lemma buffer_refs_snoc b b' p pbs :
  buffer_refs b (pbs ++ [(p, b')])
  = if decide (b' = b) then buffer_refs b pbs ++ [p] else buffer_refs b pbs.
Proof.
  unfold buffer_refs. rewrite filter_app, fmap_app, filter_cons, filter_nil. simpl.
  case_decide; simpl; [done|by rewrite app_nil_r].
Qed.

Lemma buffer_to_proxies_append_inv B pbs b p :
  buffers_inv B pbs →
  buffers_inv (buffer_to_proxies_append b p B) (pbs ++ [(p, b)]).
Proof.
  intros [Hnd Hget]. unfold buffer_to_proxies_append. split.
  - by apply dict_setitem_NoDup.
  - intros b'. rewrite buffer_refs_snoc. case_decide as Hb.
    + subst b'. rewrite dict_get_setitem, Hget.
      destruct (buffer_refs b pbs) as [|q qs]; simpl; done.
    + by rewrite dict_get_setitem_ne.
Qed.

Lemma map_buffers_to_proxies_pairs proxies : ∀ B,
  foldl (λ buffer_to_proxies proxy,
           foldl (λ buffer_to_proxies buffer,
                    buffer_to_proxies_append buffer proxy buffer_to_proxies)
             buffer_to_proxies (_pxy_get_device_memory_objects proxy))
    B proxies
  = foldl (λ B pb, buffer_to_proxies_append pb.2 pb.1 B) B (visited_pairs proxies).
Proof.
  induction proxies as [|p proxies IH]; intros B; [done|].
  unfold visited_pairs. rewrite bind_cons, foldl_app. simpl. rewrite IH. f_equal.
  generalize (_pxy_get_device_memory_objects p). intros ms. revert B.
  induction ms as [|m ms IHm]; intros B; simpl; [done|]. by rewrite IHm.
Qed.

Lemma fold_pairs_inv pbs : ∀ B done,
  buffers_inv B done →
  buffers_inv (foldl (λ B pb, buffer_to_proxies_append pb.2 pb.1 B) B pbs) (done ++ pbs).
Proof.
  induction pbs as [|[p b] pbs IH]; intros B done Hinv; simpl.
  - by rewrite app_nil_r.
  - rewrite (cons_middle _ done pbs), app_assoc. apply IH.
    by apply buffer_to_proxies_append_inv.
Qed.

Lemma map_buffers_to_proxies_inv proxies :
  buffers_inv (map_buffers_to_proxies proxies) (visited_pairs proxies).
Proof.
  unfold map_buffers_to_proxies. rewrite map_buffers_to_proxies_pairs.
  apply (fold_pairs_inv _ [] []). split; [apply NoDup_nil_2|done].
Qed.

Lemma buffer_refs_elem b pbs p : p ∈ buffer_refs b pbs ↔ (p, b) ∈ pbs.
Proof.
  unfold buffer_refs. rewrite list_elem_of_fmap. split.
  - intros ([p' b'] & -> & [Hb Hin]%list_elem_of_filter). simpl in *. by subst.
  - intros Hin. exists (p, b). split; [done|]. by apply list_elem_of_filter.
Qed.

Lemma visited_pairs_elem proxies p b :
  (p, b) ∈ visited_pairs proxies ↔ p ∈ proxies ∧ b ∈ _pxy_get_device_memory_objects p.
Proof.
  unfold visited_pairs. rewrite list_elem_of_bind. split.
  - intros (q & (b' & [= -> ->] & Hb)%list_elem_of_fmap & Hq). done.
  - intros [Hp Hb]. exists p. split; [|done]. apply list_elem_of_fmap. by exists b.
Qed.

Lemma max_last_access_spec p ps :
  ∃ t, max_last_access (p :: ps) = Ok [] t
       ∧ (∀ q, q ∈ p :: ps → last_access q ≤ t)
       ∧ (∃ q, q ∈ p :: ps ∧ last_access q = t).
Proof.
  unfold max_last_access. eexists. split; [reflexivity|].
  assert (∀ t0, t0 ≤ foldl (λ acc q, acc `max` last_access q) t0 ps
                ∧ (∀ q, q ∈ ps → last_access q ≤ foldl (λ acc q, acc `max` last_access q) t0 ps)
                ∧ (foldl (λ acc q, acc `max` last_access q) t0 ps = t0
                   ∨ ∃ q, q ∈ ps
                          ∧ last_access q = foldl (λ acc q, acc `max` last_access q) t0 ps))
    as Hfold.
  { clear. induction ps as [|q ps IH]; intros t0; simpl.
    - split_and!; [lia|by intros ? ?%elem_of_nil|by left].
    - destruct (IH (t0 `max` last_access q)) as (Hle & Hall & Hex). split_and!.
      + lia.
      + intros q' [->|Hq']%elem_of_cons; [lia|by apply Hall].
      + destruct Hex as [Heq|(q' & Hq' & Heq)].
        * destruct (Z.max_spec t0 (last_access q)) as [[? Hm]|[? Hm]].
          -- right. exists q. split; [left|]. lia.
          -- left. lia.
        * right. exists q'. split; [by right|done]. }
  destruct (Hfold (last_access p)) as (Hle & Hall & Hex). split.
  - intros q [->|Hq]%elem_of_cons; [done|by apply Hall].
  - destruct Hex as [Heq|(q & Hq & Heq)].
    + exists p. split; [left|done].
    + exists q. split; [by right|done].
Qed.

Lemma get_proxies_elem {E} heap (self : Proxies E) p :
  p ∈ get_proxies heap self
  ↔ ∃ i r, (i, r) ∈ _proxy_id_to_proxy self ∧ heap !! r = Some p.
Proof.
  unfold get_proxies, dict_values. rewrite list_elem_of_omap. split.
  - intros (r & ([i r'] & -> & Hin)%list_elem_of_fmap & Hr). by exists i, r'.
  - intros (i & r & Hin & Hr). exists r. split; [|done].
    apply list_elem_of_fmap. by exists (i, r).
Qed.

Lemma dev_access_loop_spec (B : list (nat * list ProxyObject)) : ∀ acc,
  (∀ b ps, (b, ps) ∈ B → ps ≠ []) →
  ∃ info,
    for_each B
      (λ '(dev_buf, proxies) ret,
         last_access ← max_last_access proxies;
         let size := sizeof dev_buf in
         mret (ret ++ [(last_access, size, proxies)]))
      acc
    = Ok [] (acc ++ info)
    ∧ Forall2 (λ bp e, e.1.2 = sizeof bp.1 ∧ e.2 = bp.2
                        ∧ (∀ p, p ∈ bp.2 → last_access p ≤ e.1.1)
                        ∧ (∃ p, p ∈ bp.2 ∧ last_access p = e.1.1)) B info.
Proof.
  induction B as [|[b ps] B IH]; intros acc Hne; simpl.
  - exists []. by rewrite app_nil_r.
  - destruct ps as [|p ps]; [by destruct (Hne b []); [left|]|].
    destruct (max_last_access_spec p ps) as (t & Hmax & Hle & Hex).
    rewrite (bind_Ok_nil _ _ _ Hmax). msimpl.
    destruct (IH (acc ++ [(t, sizeof b, p :: ps)])) as (info & Hrun & Hall).
    { intros b' ps' Hin. apply (Hne b'). by right. }
    exists ((t, sizeof b, p :: ps) :: info). split.
    + etrans; [exact Hrun|]. by rewrite <-app_assoc.
    + by constructor.
Qed.

(** C4 (device access snapshot shape). The snapshot has one entry for each
    device buffer that a live proxy of the device collection reports, and
    no other entry: in the entry of buffer [b] the size is [sizeof b], the
    proxies are the live device proxies that report [b], and the access
    time is the greatest last access time among them. It is computed
    without raising, whatever the state. *)
Theorem C4_device_access_snapshot_shape (heap : gmap nat ProxyObject) (self : ProxyManager) :
  ∃ (bufs : list nat) (info : list access_info),
    get_dev_access_info heap self = Ok [] info
    ∧ NoDup bufs
    ∧ (∀ b, b ∈ bufs ↔
            ∃ p, p ∈ get_proxies heap (_dev self)
                 ∧ b ∈ _pxy_get_device_memory_objects p)
    ∧ Forall2
        (λ b (e : access_info),
           e.1.2 = sizeof b
           ∧ (∀ p, p ∈ e.2 ↔
                   p ∈ get_proxies heap (_dev self)
                   ∧ b ∈ _pxy_get_device_memory_objects p)
           ∧ (∀ p, p ∈ e.2 → last_access p ≤ e.1.1)
           ∧ (∃ p, p ∈ e.2 ∧ last_access p = e.1.1))
        bufs info
    ∧ (∀ p, p ∈ get_proxies heap (_dev self) ↔
            ∃ i r, (i, r) ∈ _proxy_id_to_proxy (_dev self) ∧ heap !! r = Some p).
Proof.
  set (live := get_proxies heap (_dev self)).
  destruct (map_buffers_to_proxies_inv live) as [Hnd Hget].
  assert (∀ b ps, (b, ps) ∈ map_buffers_to_proxies live →
                  ps = buffer_refs b (visited_pairs live) ∧ ps ≠ []) as Hentry.
  { intros b ps Hin. apply (dict_get_elem _ _ _ Hnd) in Hin. rewrite Hget in Hin.
    destruct (buffer_refs b (visited_pairs live)); [done|]. by injection Hin as <-. }
  destruct (dev_access_loop_spec (map_buffers_to_proxies live) [])
    as (info & Hrun & Hall).
  { intros b ps Hin. by destruct (Hentry b ps Hin). }
  exists (map_buffers_to_proxies live).*1, info.
  split_and!; [done|done| | |intros p; apply get_proxies_elem].
  - intros b.
    assert (b ∈ (map_buffers_to_proxies live).*1
            ↔ dict_get b (map_buffers_to_proxies live) ≠ None) as ->.
    { rewrite dict_get_None.
      destruct (decide (b ∈ (map_buffers_to_proxies live).*1)); naive_solver. }
    rewrite Hget. split.
    + destruct (buffer_refs b (visited_pairs live)) as [|p ps] eqn:Hrefs; [done|].
      intros _. exists p. apply visited_pairs_elem, buffer_refs_elem.
      rewrite Hrefs. left.
    + intros (p & Hp & Hb). assert (p ∈ buffer_refs b (visited_pairs live)) as Hin.
      { by apply buffer_refs_elem, visited_pairs_elem. }
      by destruct (buffer_refs b (visited_pairs live)); [apply elem_of_nil in Hin|].
  - apply Forall2_fmap_l. apply Forall2_same_length_lookup in Hall as [Hlen Hall].
    apply Forall2_same_length_lookup. split; [done|].
    intros i [b ps] e Hi He. destruct (Hall i _ _ Hi He) as (Hsize & Hps & Hle & Hex).
    apply list_elem_of_lookup_2 in Hi as Hin. simpl in *. subst ps.
    destruct (Hentry b (e.2) Hin) as [Hrefs _].
    split_and!; [done| |done..].
    intros p. rewrite Hrefs at 1. by rewrite buffer_refs_elem, visited_pairs_elem.
Qed.

End snapshot_facts.

(** ** The eviction policy *)

Section policy_facts.
Context `{!Sizeof, !Serializers}.

(** C5 (eviction policy wiring). [maybe_evict] runs the device check and
    then the host check, the latter on the state the former leaves. The
    device check calls [evict] exactly when the device tally plus
    [extra_dev_mem] exceeds the device limit, and then asks for that excess,
    on the device snapshot and with the host serializers; otherwise it
    returns the state as it is and calls nothing. The host check does the
    same against the host limit, on the host snapshot and with the
    serializer to disk. *)
Theorem C5_eviction_policy_wiring (extra_dev_mem : Z) (w : World) :
  maybe_evict extra_dev_mem w
  = (w' ← maybe_evict_from_device extra_dev_mem w; maybe_evict_from_host 0 w')
  ∧ (∀ extra,
       mem_usage (_dev (manager w)) + extra > _device_memory_limit (manager w) →
       maybe_evict_from_device extra w
       = (r ← evict (mem_usage (_dev (manager w)) + extra - _device_memory_limit (manager w))
                dev_access (_pxy_serialize ["dask"; "pickle"]%string) w;
          mret r.2))
  ∧ (∀ extra,
       mem_usage (_dev (manager w)) + extra ≤ _device_memory_limit (manager w) →
       maybe_evict_from_device extra w = Ok [] w)
  ∧ (∀ extra,
       mem_usage (_host (manager w)) + extra > _host_memory_limit (manager w) →
       maybe_evict_from_host extra w
       = (r ← evict (mem_usage (_host (manager w)) + extra - _host_memory_limit (manager w))
                host_access serialize_proxy_to_disk_inplace w;
          mret r.2))
  ∧ (∀ extra,
       mem_usage (_host (manager w)) + extra ≤ _host_memory_limit (manager w) →
       maybe_evict_from_host extra w = Ok [] w).
Proof.
  split_and!.
  - done.
  - intros extra Hover. unfold maybe_evict_from_device.
    by rewrite bool_decide_eq_true_2 by lia.
  - intros extra Hfits. unfold maybe_evict_from_device.
    by rewrite bool_decide_eq_false_2 by lia.
  - intros extra Hover. unfold maybe_evict_from_host.
    by rewrite bool_decide_eq_true_2 by lia.
  - intros extra Hfits. unfold maybe_evict_from_host.
    by rewrite bool_decide_eq_false_2 by lia.
Qed.

End policy_facts.

(** * Further properties *)

(** ** The host and disk tallies *)

(** What a host (or disk) registry should hold after a sequence of
    operations: for each tracked identity the size its proxy had when it
    was added. *)
Fixpoint sizes_after (ops : list registry_op) (sizes : gmap nat Z) : gmap nat Z :=
  match ops with
  | [] => sizes
  | OpAdd proxy :: ops' => sizes_after ops' (<[proxy_id proxy := sizeof_proxy proxy]> sizes)
  | OpRemove proxy :: ops' => sizes_after ops' (delete (proxy_id proxy) sizes)
  end.

(** The sequences in which every added identity is untracked and every
    removed proxy is tracked and has the size it had when it was added. *)
Fixpoint steady_ops (ops : list registry_op) (sizes : gmap nat Z) : bool :=
  match ops with
  | [] => true
  | OpAdd proxy :: ops' =>
      bool_decide (sizes !! proxy_id proxy = None)
      && steady_ops ops' (<[proxy_id proxy := sizeof_proxy proxy]> sizes)
  | OpRemove proxy :: ops' =>
      bool_decide (sizes !! proxy_id proxy = Some (sizeof_proxy proxy))
      && steady_ops ops' (delete (proxy_id proxy) sizes)
  end.

Definition sizes_total (sizes : gmap nat Z) : Z :=
  map_fold (λ _ size acc, size + acc) 0 sizes.

Record host_inv (self : Proxies unit) (sizes : gmap nat Z) : Prop := {
  host_sync : ∀ i, i ∈ (_proxy_id_to_proxy self).*1 ↔ is_Some (sizes !! i);
  host_tally : _mem_usage self = sizes_total sizes
}.

Lemma sizes_total_insert sizes i v :
  sizes !! i = None → sizes_total (<[i := v]> sizes) = v + sizes_total sizes.
Proof. intros Hi. unfold sizes_total. rewrite map_fold_insert_L; [done|intros; lia|done]. Qed.

Lemma sizes_total_delete sizes i v :
  sizes !! i = Some v → sizes_total (delete i sizes) = sizes_total sizes - v.
Proof.
  intros Hi. unfold sizes_total.
  rewrite (map_fold_delete_L _ _ i v sizes); [lia|intros; lia|done].
Qed.

Lemma host_inv_contains self sizes i :
  host_inv self sizes → contains_proxy_id i self = bool_decide (is_Some (sizes !! i)).
Proof. intros [Hsync _]. apply bool_decide_ext, Hsync. Qed.

Lemma host_add_inv proxy self sizes :
  host_inv self sizes →
  sizes !! proxy_id proxy = None →
  ∃ self', Proxies_add proxy self = Ok [] self'
    ∧ host_inv self' (<[proxy_id proxy := sizeof_proxy proxy]> sizes).
Proof.
  intros Hinv Hnone. pose proof Hinv as [Hsync Htally].
  rewrite Proxies_add_host_spec.
  2:{ rewrite (host_inv_contains _ _ _ Hinv), Hnone.
      apply bool_decide_eq_false_2. by intros ?%is_Some_None. }
  eexists. split; [done|]. split; simpl.
  - intros i. rewrite fmap_app, elem_of_app, Hsync, lookup_insert. simpl.
    rewrite list_elem_of_singleton. case_decide; naive_solver.
  - rewrite sizes_total_insert by done. lia.
Qed.

Lemma host_remove_inv proxy self sizes :
  host_inv self sizes →
  sizes !! proxy_id proxy = Some (sizeof_proxy proxy) →
  ∃ self', Proxies_remove proxy self = Ok [] self'
    ∧ host_inv self' (delete (proxy_id proxy) sizes).
Proof.
  intros Hinv Hsome. pose proof Hinv as [Hsync Htally].
  set (d := filter (λ kv : nat * nat, kv.1 ≠ proxy_id proxy) (_proxy_id_to_proxy self)).
  set (self1 := set_mem_usage (_mem_usage self - sizeof_proxy proxy)
                  (set_proxy_id_to_proxy d self)).
  assert (host_inv self1 (delete (proxy_id proxy) sizes)) as Hinv1.
  { split; simpl.
    - intros i. unfold d. rewrite filter_keys_elem, Hsync, lookup_delete.
      case_decide; [subst i|]; split; try naive_solver.
    - rewrite (sizes_total_delete _ _ _ Hsome). lia. }
  assert (mem_usage_remove proxy (set_proxy_id_to_proxy d self) = Ok [] self1) as Hrem
    by reflexivity.
  rewrite (Proxies_remove_unfold _ _ _ _ (eq_trans (host_inv_contains _ _ _ Hinv)
             (bool_decide_eq_true_2 _ (mk_is_Some _ _ Hsome))) Hrem).
  exists self1. split; [|done].
  case_bool_decide as Hlen; [|done].
  rewrite bool_decide_eq_false_2; [done|]. intros Hnz. apply Hnz.
  destruct Hinv1 as [Hsync1 Htally1]. rewrite Htally1.
  replace (delete (proxy_id proxy) sizes) with (∅ : gmap nat Z); [done|].
  symmetry. apply map_empty. intros i. apply eq_None_not_Some. rewrite <-Hsync1.
  unfold Proxies_len in Hlen. apply nil_length_inv in Hlen. rewrite Hlen.
  apply not_elem_of_nil.
Qed.

(** X1. Host tally: over a sequence of [add] / [remove] calls on a fresh
    [ProxiesOnHost] (or [ProxiesOnDisk]) in which identities are added
    when untracked and removed when tracked, with the size [sizeof]
    reported at the time of the [add], nothing is raised, no warning is
    emitted, and the tally is the sum of the sizes of the tracked
    proxies. *)
Theorem host_tally_is_sum_of_tracked_sizes (ops : list registry_op) :
  steady_ops ops ∅ = true →
  ∃ self : Proxies unit,
    run_ops ops (Proxies_init tt) = Ok [] self
    ∧ _mem_usage self = sizes_total (sizes_after ops ∅)
    ∧ (∀ i, contains_proxy_id i self = true ↔ is_Some (sizes_after ops ∅ !! i)).
Proof.
  assert (∀ ops self sizes,
            host_inv self sizes → steady_ops ops sizes = true →
            ∃ self', run_ops ops self = Ok [] self'
                     ∧ host_inv self' (sizes_after ops sizes)) as Hgen.
  { clear ops. unfold run_ops. induction ops as [|[proxy|proxy] ops IH];
      intros self sizes Hinv; simpl.
    - intros _. by exists self.
    - intros [Hhd%bool_decide_eq_true Hrest]%andb_true_iff.
      destruct (host_add_inv proxy self sizes Hinv Hhd) as (self1 & Hadd & Hinv1).
      rewrite (bind_Ok_nil _ _ _ Hadd). by apply IH.
    - intros [Hhd%bool_decide_eq_true Hrest]%andb_true_iff.
      destruct (host_remove_inv proxy self sizes Hinv Hhd) as (self1 & Hrem & Hinv1).
      rewrite (bind_Ok_nil _ _ _ Hrem). by apply IH. }
  intros Hsteady. destruct (Hgen ops (Proxies_init tt) ∅) as (self & Hrun & Hinv); [|done|].
  { split; simpl; [|done]. intros i. rewrite lookup_empty.
    split; [by intros ?%elem_of_nil|by intros ?%is_Some_None]. }
  exists self. split_and!; [done|apply Hinv|].
  intros i. rewrite (host_inv_contains _ _ _ Hinv). apply bool_decide_eq_true.
Qed.

(** ** The device registry, further *)

Lemma filter_keys_absent {K V} `{EqDecision K} (k : K) (d : list (K * V)) :
  k ∉ d.*1 → filter (λ kv, kv.1 ≠ k) d = d.
Proof.
  induction d as [|[k' v'] d IH]; simpl; [done|].
  rewrite not_elem_of_cons. intros [Hne Hk].
  rewrite filter_cons_True by (simpl; congruence). by rewrite IH.
Qed.

Section device_more.
Context `{!Sizeof}.

(** X2. Which sequences of device registry operations raise: from the empty
    registry a sequence runs to the end exactly when each [add] is of an
    untracked identity and each [remove] of a tracked one. *)
Theorem device_ops_succeed_iff_valid (ops : list registry_op) :
  (∃ ws self, run_ops ops ProxiesOnDevice_init = Ok ws self) ↔ valid_ops ops ∅ = true.
Proof.
  split.
  - intros (ws & self & Hrun).
    by destruct (run_ops_dev_inv ops _ _ _ ProxiesOnDevice_init_inv Hrun) as (_ & _ & _ & ?).
  - intros Hvalid.
    destruct (run_ops_dev_total ops _ ProxiesOnDevice_init_inv Hvalid) as [self Hrun].
    by exists [], self.
Qed.

(** X3. The two dictionaries of the device registry stay each other's inverse:
    after any sequence of operations that ran, proxy [i] is listed under
    buffer [b] exactly when [b] is among the buffers recorded for [i], no
    buffer is listed with an empty set, the identities with recorded
    buffers are the tracked ones, and no identity is tracked twice. *)
Theorem device_registry_dictionaries_inverse (ops : list registry_op) ws self :
  run_ops ops ProxiesOnDevice_init = Ok ws self →
  (∀ b i,
     (∃ ps, dev_mem_to_proxy_ids (ext self) !! b = Some ps ∧ i ∈ ps)
     ↔ (∃ bs, proxy_id_to_dev_mems (ext self) !! i = Some bs ∧ b ∈ bs))
  ∧ (∀ b ps, dev_mem_to_proxy_ids (ext self) !! b = Some ps → ps ≠ ∅)
  ∧ (∀ i, contains_proxy_id i self = true
          ↔ is_Some (proxy_id_to_dev_mems (ext self) !! i))
  ∧ NoDup (_proxy_id_to_proxy self).*1
  ∧ Proxies_len self = size (proxy_id_to_dev_mems (ext self)).
Proof.
  intros Hrun.
  destruct (run_ops_dev_inv ops _ _ _ ProxiesOnDevice_init_inv Hrun)
    as (_ & Hinv & _ & _).
  pose proof Hinv as [[Hrel Hne _] Hsync Hnd]. split_and!; [|done| |done|].
  - intros b i. rewrite Hrel. naive_solver.
  - intros i. rewrite (dev_inv_contains _ _ Hinv). apply bool_decide_eq_true.
  - unfold Proxies_len. rewrite <-(length_fmap fst), <-size_dom.
    rewrite <-(size_list_to_set (C := gset nat)) by done. f_equal.
    apply set_eq. intros i. rewrite elem_of_list_to_set, elem_of_dom. apply Hsync.
Qed.

Lemma dev_inv_ext (s1 s2 : Proxies DevMaps) :
  dev_inv s1 → dev_inv s2 →
  _proxy_id_to_proxy s1 = _proxy_id_to_proxy s2 →
  proxy_id_to_dev_mems (ext s1) = proxy_id_to_dev_mems (ext s2) →
  s1 = s2.
Proof.
  intros [[Hrel1 Hne1 Ht1] _ _] [[Hrel2 Hne2 Ht2] _ _] Hids Hrefs.
  assert (dev_mem_to_proxy_ids (ext s1) = dev_mem_to_proxy_ids (ext s2)) as Hd2p.
  { apply map_eq. intros b.
    assert (∀ i, (∃ ps, dev_mem_to_proxy_ids (ext s1) !! b = Some ps ∧ i ∈ ps)
                 ↔ (∃ ps, dev_mem_to_proxy_ids (ext s2) !! b = Some ps ∧ i ∈ ps)) as Hsame.
    { intros i. by rewrite Hrel1, Hrel2, Hrefs. }
    destruct (dev_mem_to_proxy_ids (ext s1) !! b) as [ps1|] eqn:H1;
      destruct (dev_mem_to_proxy_ids (ext s2) !! b) as [ps2|] eqn:H2.
    - f_equal. apply set_eq. intros i. split; intros Hi.
      + destruct (proj1 (Hsame i)) as (ps & [= <-] & ?); [by eauto|done].
      + destruct (proj2 (Hsame i)) as (ps & [= <-] & ?); [by eauto|done].
    - destruct (set_choose_L ps1 (Hne1 _ _ H1)) as [i Hi].
      destruct (proj1 (Hsame i)) as (ps & [=] & _). by eauto.
    - destruct (set_choose_L ps2 (Hne2 _ _ H2)) as [i Hi].
      destruct (proj2 (Hsame i)) as (ps & [=] & _). by eauto.
    - done. }
  destruct s1 as [ids1 t1 [refs1 d1]], s2 as [ids2 t2 [refs2 d2]]. simpl in *.
  subst. done.
Qed.

(** X4. Tracking and untracking a proxy undoes itself: on a registry reached
    by a sequence of operations, [add] of an untracked proxy followed by
    [remove] of it gives back the registry as it was, dictionaries and
    tally included, with no warning. *)
Theorem device_add_remove_round_trip (ops : list registry_op) ws self proxy :
  run_ops ops ProxiesOnDevice_init = Ok ws self →
  contains_proxy_id (proxy_id proxy) self = false →
  (self' ← Proxies_add proxy self; Proxies_remove proxy self') = Ok [] self.
Proof.
  intros Hrun Hfresh.
  destruct (run_ops_dev_inv ops _ _ _ ProxiesOnDevice_init_inv Hrun)
    as (_ & Hinv & _ & _).
  destruct (Proxies_add_dev_spec proxy self Hinv Hfresh)
    as (self1 & Hadd & Hinv1 & Hrefs1 & Hids1 & _).
  rewrite (bind_Ok_nil _ _ _ Hadd).
  destruct (Proxies_remove_dev_spec proxy self1 Hinv1)
    as (self2 & bs & Hrem & Hinv2 & _ & Hrefs2 & Hids2 & _).
  { apply dict_contains_true. rewrite Hids1, fmap_app, elem_of_app. right. left. }
  rewrite Hrem. f_equal. apply dev_inv_ext; [done..| |].
  - rewrite Hids2, Hids1, filter_app, filter_cons, filter_nil. simpl.
    rewrite decide_False by (by intros ?). rewrite app_nil_r.
    apply dict_contains_false in Hfresh. by apply filter_keys_absent.
  - rewrite Hrefs2, Hrefs1, delete_insert_eq. apply delete_id.
    destruct Hinv as [_ Hsync _]. apply eq_None_not_Some. rewrite <-Hsync.
    by apply dict_contains_false.
Qed.

End device_more.

(** ** The manager, further *)

(** A call of [add] or [remove] on the manager. *)
Inductive manager_op : Type :=
| MAdd (proxy : ProxyObject) (serializer : option string)
| MRemove (proxy : ProxyObject).

Section manager_more.
Context `{!Sizeof}.

Definition run_manager_op (o : manager_op) (self : ProxyManager) : M ProxyManager :=
  match o with
  | MAdd proxy serializer => ProxyManager_add proxy serializer self
  | MRemove proxy => ProxyManager_remove proxy self
  end.

Definition run_manager_ops (ops : list manager_op) (self : ProxyManager) : M ProxyManager :=
  for_each ops run_manager_op self.

(** The device registry is consistent and no identity is in two
    collections. *)
Record manager_inv (self : ProxyManager) : Prop := {
  minv_dev : dev_inv (_dev self);
  minv_unique : ∀ i t1 t2,
    tier_contains t1 i self = true → tier_contains t2 i self = true → t1 = t2
}.

Lemma tier_contains_decide t i self :
  tier_contains t i self = bool_decide (i ∈ tier_ids t self).
Proof. by destruct t. Qed.

Lemma tier_add_spec t proxy self :
  dev_inv (_dev self) →
  tier_contains t (proxy_id proxy) self = false →
  ∃ self', tier_add t proxy self = Ok [] self'
    ∧ dev_inv (_dev self')
    ∧ (∀ t' i, tier_contains t' i self'
               = if decide (t' = t ∧ i = proxy_id proxy) then true
                 else tier_contains t' i self).
Proof.
  intros Hinv Hfresh.
  assert (∀ (E : Type) (r r' : Proxies E) i,
            _proxy_id_to_proxy r' = _proxy_id_to_proxy r ++ [(proxy_id proxy, weakref_ref proxy)] →
            contains_proxy_id i r'
            = if decide (i = proxy_id proxy) then true else contains_proxy_id i r) as Hc.
  { intros E r r' i Hids. unfold contains_proxy_id, dict_contains. rewrite Hids.
    case_decide as Hi.
    - apply bool_decide_eq_true_2. rewrite fmap_app, elem_of_app. right. subst i. left.
    - apply bool_decide_ext. rewrite fmap_app, elem_of_app. simpl.
      rewrite list_elem_of_singleton. naive_solver. }
  assert (∀ (t : Tier) (self' : ProxyManager),
            (∀ i, tier_contains t i self'
                  = if decide (i = proxy_id proxy) then true else tier_contains t i self) →
            (∀ t' i, t' ≠ t → tier_contains t' i self' = tier_contains t' i self) →
            ∀ t' i, tier_contains t' i self'
                    = if decide (t' = t ∧ i = proxy_id proxy) then true
                      else tier_contains t' i self) as Hfin.
  { intros t0 self' Hsame Hother t' i.
    destruct (decide (t' = t0)) as [->|Hne].
    - rewrite Hsame. repeat case_decide; naive_solver.
    - rewrite decide_False by naive_solver. by apply Hother. }
  destruct t; simpl in Hfresh; unfold tier_add.
  - rewrite (bind_Ok_nil _ _ _ (Proxies_add_host_spec proxy (_disk self) Hfresh)).
    eexists. split; [reflexivity|]. split; [done|]. apply Hfin.
    + intros i. simpl. by apply Hc.
    + by intros [] i ?.
  - rewrite (bind_Ok_nil _ _ _ (Proxies_add_host_spec proxy (_host self) Hfresh)).
    eexists. split; [reflexivity|]. split; [done|]. apply Hfin.
    + intros i. simpl. by apply Hc.
    + by intros [] i ?.
  - destruct (Proxies_add_dev_spec proxy (_dev self) Hinv Hfresh)
      as (r & Hadd & Hinv' & _ & Hids & _).
    rewrite (bind_Ok_nil _ _ _ Hadd).
    eexists. split; [reflexivity|]. split; [done|]. apply Hfin.
    + intros i. simpl. by apply Hc.
    + by intros [] i ?.
Qed.

Lemma tier_remove_contains t proxy self :
  dev_inv (_dev self) →
  tier_contains t (proxy_id proxy) self = true →
  ∃ ws self', tier_remove t proxy self = Ok ws self'
    ∧ dev_inv (_dev self')
    ∧ (∀ t' i, tier_contains t' i self'
               = if decide (t' = t ∧ i = proxy_id proxy) then false
                 else tier_contains t' i self).
Proof.
  intros Hinv Hin.
  destruct (tier_remove_spec t proxy self Hin Hinv)
    as (ws & self' & Hrem & Ht & Hothers & _ & Hinv' & _).
  exists ws, self'. split_and!; [done..|]. intros t' i.
  destruct (decide (t' = t)) as [->|Hne].
  - rewrite Ht. repeat case_decide; naive_solver.
  - rewrite decide_False by naive_solver.
    by rewrite !tier_contains_decide, (proj1 (Hothers t' Hne)).
Qed.

Lemma ProxyManager_add_spec proxy serializer self :
  manager_inv self →
  ∃ ws self', ProxyManager_add proxy serializer self = Ok ws self'
    ∧ manager_inv self'
    ∧ (∀ t i, tier_contains t i self'
              = if decide (i = proxy_id proxy)
                then bool_decide (t = get_proxies_by_serializer serializer)
                else tier_contains t i self).
Proof.
  intros [Hinv Huniq]. unfold ProxyManager_add.
  set (new := get_proxies_by_serializer serializer).
  assert (∀ self',
            (∀ t i, tier_contains t i self'
                    = if decide (i = proxy_id proxy) then bool_decide (t = new)
                      else tier_contains t i self) →
            dev_inv (_dev self') → manager_inv self') as Hkeep.
  { intros self' Hc Hinv'. split; [done|]. intros i t1 t2. rewrite !Hc.
    case_decide; [|apply Huniq]. intros ?%bool_decide_eq_true ?%bool_decide_eq_true.
    congruence. }
  destruct (get_proxies_by_proxy_object proxy self) as [old|] eqn:Hold.
  - apply get_proxies_by_proxy_object_Some in Hold as Hin.
    destruct (decide (old = new)) as [->|Hne].
    + rewrite bool_decide_eq_false_2 by (by intros ?).
      exists [], self. split; [done|]. split; [by split|].
      intros t i. case_decide as Hi; [subst i|done].
      destruct (tier_contains t (proxy_id proxy) self) eqn:Ht.
      * symmetry. apply bool_decide_eq_true_2. by apply (Huniq (proxy_id proxy)).
      * symmetry. apply bool_decide_eq_false_2. intros ->. congruence.
    + rewrite bool_decide_eq_true_2 by congruence.
      destruct (tier_remove_contains old proxy self Hinv Hin)
        as (ws & self1 & Hrem & Hinv1 & Hc1).
      destruct (tier_add_spec new proxy self1 Hinv1) as (self2 & Hadd & Hinv2 & Hc2).
      { rewrite Hc1. case_decide; [done|].
        apply not_true_is_false. intros Hnew. apply Hne.
        by apply (Huniq (proxy_id proxy)). }
      exists ws, self2. unfold mbind, M_bind, bind. rewrite Hrem, Hadd, app_nil_r.
      split; [done|].
      assert (∀ t i, tier_contains t i self2
                     = if decide (i = proxy_id proxy) then bool_decide (t = new)
                       else tier_contains t i self) as Hc.
      { intros t i. rewrite Hc2, Hc1. destruct (decide (i = proxy_id proxy)) as [->|Hi].
        - destruct (decide (t = new)) as [->|Htn].
          + rewrite decide_True by done. by rewrite bool_decide_eq_true_2.
          + rewrite decide_False by naive_solver. rewrite bool_decide_eq_false_2 by done.
            case_decide; [done|]. apply not_true_is_false. intros Ht.
            assert (t = old) by (by apply (Huniq (proxy_id proxy))). naive_solver.
        - by rewrite !decide_False by naive_solver. }
      split; [by apply Hkeep|done].
  - rewrite bool_decide_eq_true_2 by done. msimpl.
    apply get_proxies_by_proxy_object_None in Hold.
    assert (∀ t, tier_contains t (proxy_id proxy) self = false) as Hnowhere.
    { unfold ProxyManager_contains in Hold.
      apply orb_false_elim in Hold as [[? ?]%orb_false_elim ?]. by intros []. }
    destruct (tier_add_spec new proxy self Hinv (Hnowhere new)) as (self2 & Hadd & Hinv2 & Hc2).
    exists [], self2. split; [done|].
    assert (∀ t i, tier_contains t i self2
                   = if decide (i = proxy_id proxy) then bool_decide (t = new)
                     else tier_contains t i self) as Hc.
    { intros t i. rewrite Hc2. destruct (decide (i = proxy_id proxy)) as [->|Hi].
      - destruct (decide (t = new)) as [->|Htn].
        + rewrite decide_True by done. by rewrite bool_decide_eq_true_2.
        + rewrite decide_False by naive_solver. rewrite bool_decide_eq_false_2 by done.
          apply Hnowhere.
      - by rewrite decide_False by naive_solver. }
    split; [by apply Hkeep|done].
Qed.

Lemma ProxyManager_remove_spec proxy self :
  manager_inv self →
  ProxyManager_contains (proxy_id proxy) self = true →
  ∃ ws self', ProxyManager_remove proxy self = Ok ws self'
    ∧ manager_inv self'
    ∧ (∀ t i, tier_contains t i self'
              = if decide (i = proxy_id proxy) then false else tier_contains t i self).
Proof.
  intros [Hinv Huniq] Hin.
  assert (∃ t, tier_contains t (proxy_id proxy) self = true) as [t Ht].
  { unfold ProxyManager_contains in Hin.
    apply orb_true_iff in Hin as [[?|?]%orb_true_iff|?];
      [by exists Disk|by exists Host|by exists Dev]. }
  assert (∀ t', t' ≠ t → tier_contains t' (proxy_id proxy) self = false) as Hout.
  { intros t' Hne. apply not_true_is_false. intros Ht'. apply Hne.
    by apply (Huniq (proxy_id proxy)). }
  assert (ProxyManager_remove proxy self = tier_remove t proxy self) as ->.
  { unfold ProxyManager_remove.
    pose proof (Hout Disk) as HDisk. pose proof (Hout Host) as HHost.
    pose proof (Hout Dev) as HDev. simpl in HDisk, HHost, HDev.
    destruct t; simpl in Ht.
    - rewrite Ht, HHost, HDev by done. by msimpl.
    - rewrite HDisk, Ht, HDev by done. by msimpl.
    - rewrite HDisk, HHost, Ht by done. by msimpl. }
  destruct (tier_remove_contains t proxy self Hinv Ht) as (ws & self' & Hrem & Hinv' & Hc).
  exists ws, self'. split; [done|].
  assert (∀ t' i, tier_contains t' i self'
                  = if decide (i = proxy_id proxy) then false else tier_contains t' i self)
    as Hc'.
  { intros t' i. rewrite Hc. destruct (decide (i = proxy_id proxy)) as [->|Hi].
    - case_decide; [done|]. apply Hout. naive_solver.
    - by rewrite decide_False by naive_solver. }
  split; [|done]. split; [done|]. intros i t1 t2. rewrite !Hc'.
  case_decide; [done|apply Huniq].
Qed.

Lemma ProxyManager_init_inv device_memory_limit memory_limit :
  manager_inv (ProxyManager_init device_memory_limit memory_limit).
Proof. split; [apply ProxiesOnDevice_init_inv|]. by intros i [] []. Qed.

Lemma run_manager_ops_inv ops : ∀ self ws self',
  manager_inv self → run_manager_ops ops self = Ok ws self' → manager_inv self'.
Proof.
  unfold run_manager_ops. induction ops as [|o ops IH]; intros self ws self' Hinv; simpl.
  - by intros [= _ <-].
  - intros (ws1 & self1 & ws2 & Hop & Hrest & _)%bind_Ok.
    apply (IH self1 ws2); [|done]. destruct o as [proxy serializer|proxy]; simpl in Hop.
    + destruct (ProxyManager_add_spec proxy serializer self Hinv) as (? & ? & Hadd & ? & _).
      congruence.
    + destruct (ProxyManager_contains (proxy_id proxy) self) eqn:Hin.
      * destruct (ProxyManager_remove_spec proxy self Hinv Hin) as (? & ? & Hrem & ? & _).
        congruence.
      * exfalso. revert Hop. unfold ProxyManager_remove, ProxyManager_contains in *.
        apply orb_false_elim in Hin as [[-> ->]%orb_false_elim ->]. by msimpl.
Qed.

(** X5. Uniqueness: on a manager reached from a fresh one by [add] and
    [remove] calls, no proxy identity is tracked by two collections. *)
Theorem manager_tracks_each_proxy_once (device_memory_limit memory_limit : Z)
    (ops : list manager_op) ws self :
  run_manager_ops ops (ProxyManager_init device_memory_limit memory_limit) = Ok ws self →
  ∀ i t1 t2,
    tier_contains t1 i self = true → tier_contains t2 i self = true → t1 = t2.
Proof.
  intros Hrun. eapply minv_unique, run_manager_ops_inv; [|done].
  apply ProxyManager_init_inv.
Qed.

(** X6. [add] as a move: on a manager reached from a fresh one, [add] never
    raises; afterwards the proxy is tracked by the collection its
    serializer tag designates and by no other, and every other identity is
    where it was. *)
Theorem manager_add_moves_proxy (device_memory_limit memory_limit : Z)
    (ops : list manager_op) ws self proxy serializer :
  run_manager_ops ops (ProxyManager_init device_memory_limit memory_limit) = Ok ws self →
  ∃ ws' self',
    ProxyManager_add proxy serializer self = Ok ws' self'
    ∧ get_proxies_by_proxy_object proxy self'
      = Some (get_proxies_by_serializer serializer)
    ∧ (∀ t, t ≠ get_proxies_by_serializer serializer →
            tier_contains t (proxy_id proxy) self' = false)
    ∧ (∀ t i, i ≠ proxy_id proxy → tier_contains t i self' = tier_contains t i self).
Proof.
  intros Hrun.
  assert (manager_inv self) as Hinv.
  { eapply run_manager_ops_inv; [|done]. apply ProxyManager_init_inv. }
  destruct (ProxyManager_add_spec proxy serializer self Hinv) as (ws' & self' & Hadd & _ & Hc).
  exists ws', self'. split; [done|].
  assert (∀ t, t ≠ get_proxies_by_serializer serializer →
               tier_contains t (proxy_id proxy) self' = false) as Hout.
  { intros t Hne. rewrite Hc, decide_True by done. by apply bool_decide_eq_false_2. }
  split_and!; [|done|].
  - apply get_proxies_by_proxy_object_unique; [|done].
    rewrite Hc, decide_True by done. by apply bool_decide_eq_true_2.
  - intros t i Hi. by rewrite Hc, decide_False.
Qed.

(** X7. [remove] on a reached manager: for a tracked proxy it never raises,
    the proxy is then tracked nowhere and the other identities are where
    they were. *)
Theorem manager_remove_untracks_proxy (device_memory_limit memory_limit : Z)
    (ops : list manager_op) ws self proxy :
  run_manager_ops ops (ProxyManager_init device_memory_limit memory_limit) = Ok ws self →
  ProxyManager_contains (proxy_id proxy) self = true →
  ∃ ws' self',
    ProxyManager_remove proxy self = Ok ws' self'
    ∧ ProxyManager_contains (proxy_id proxy) self' = false
    ∧ (∀ t i, i ≠ proxy_id proxy → tier_contains t i self' = tier_contains t i self).
Proof.
  intros Hrun Hin.
  assert (manager_inv self) as Hinv.
  { eapply run_manager_ops_inv; [|done]. apply ProxyManager_init_inv. }
  destruct (ProxyManager_remove_spec proxy self Hinv Hin) as (ws' & self' & Hrem & _ & Hc).
  exists ws', self'. split_and!; [done| |].
  - unfold ProxyManager_contains.
    pose proof (Hc Disk (proxy_id proxy)) as HDisk.
    pose proof (Hc Host (proxy_id proxy)) as HHost.
    pose proof (Hc Dev (proxy_id proxy)) as HDev.
    rewrite decide_True in HDisk, HHost, HDev by done. simpl in HDisk, HHost, HDev.
    by rewrite HDisk, HHost, HDev.
  - intros t i Hi. by rewrite Hc, decide_False.
Qed.

End manager_more.

(** ** Eviction, further *)

Lemma sorted_by_key_unique (l1 : list access_info) : ∀ l2,
  StronglySorted access_le l1 → StronglySorted access_le l2 →
  (∀ k, filter (λ x, sort_key x = k) l1 = filter (λ x, sort_key x = k) l2) →
  l1 = l2.
Proof.
  induction l1 as [|x l1 IH]; intros l2 Hs1 Hs2 Hf.
  - destruct l2 as [|y l2]; [done|].
    specialize (Hf (sort_key y)). by rewrite filter_nil, filter_cons_True in Hf.
  - destruct l2 as [|y l2].
    { specialize (Hf (sort_key x)). by rewrite filter_nil, filter_cons_True in Hf. }
    apply StronglySorted_cons in Hs1 as [Hx Hs1].
    apply StronglySorted_cons in Hs2 as [Hy Hs2].
    assert (sort_key x = sort_key y) as Hkey.
    { apply access_le_antisym_key.
      - assert (y ∈ x :: l1) as [->|Hin]%elem_of_cons.
        { apply (list_elem_of_filter (λ z, sort_key z = sort_key y)).
          rewrite Hf, filter_cons_True by done. left. }
        + unfold access_le. lia.
        + by apply (proj1 (Forall_forall _ _) Hx).
      - assert (x ∈ y :: l2) as [->|Hin]%elem_of_cons.
        { apply (list_elem_of_filter (λ z, sort_key z = sort_key x)).
          rewrite <-Hf, filter_cons_True by done. left. }
        + unfold access_le. lia.
        + by apply (proj1 (Forall_forall _ _) Hy). }
    assert (x = y) as <-.
    { specialize (Hf (sort_key x)).
      rewrite !filter_cons_True in Hf by done. by injection Hf. }
    f_equal. apply IH; [done..|]. intros k. specialize (Hf k).
    rewrite !filter_cons in Hf. by case_decide; simplify_eq.
Qed.

(** X8. The order [evict] walks does not depend on how [list.sort] works: an
    arrangement of the snapshot that is in key order (ascending time,
    then descending size) and keeps the snapshot order among entries of
    equal time and size is the list [evict] walks. *)
Theorem evict_order_is_the_stable_one (access sorted : list access_info) :
  StronglySorted
    (λ x y, x.1.1 < y.1.1 ∨ (x.1.1 = y.1.1 ∧ y.1.2 ≤ x.1.2)) sorted →
  (∀ t size,
     filter (λ x, x.1.1 = t ∧ x.1.2 = size) sorted
     = filter (λ x, x.1.1 = t ∧ x.1.2 = size) access) →
  sorted = sort_access access.
Proof.
  intros Hs Hstable. apply sorted_by_key_unique; [done|apply sort_access_sorted|].
  intros [t nsize]. rewrite sort_access_stable.
  assert (∀ l : list access_info,
            filter (λ x, sort_key x = (t, nsize)) l
            = filter (λ x, x.1.1 = t ∧ x.1.2 = - nsize) l) as Hf.
  { intros l. apply list_filter_iff. intros x. unfold sort_key. split.
    - intros [= ? ?]. split; [done|lia].
    - intros [-> ->]. f_equal. lia. }
  rewrite !Hf. apply Hstable.
Qed.

Lemma sizes_sum_perm (l1 l2 : list access_info) : l1 ≡ₚ l2 → sizes_sum l1 = sizes_sum l2.
Proof.
  intros Hp. unfold sizes_sum.
  apply (foldr_permutation_proper (=)); [solve_proper|intros; lia|done].
Qed.

Lemma sizes_sum_take_bounds (l : list access_info) (k : nat) :
  (∀ x, x ∈ l → 0 ≤ x.1.2) → 0 ≤ sizes_sum (take k l) ≤ sizes_sum l.
Proof.
  revert k. induction l as [|x l IH]; intros k Hpos.
  - rewrite take_nil. unfold sizes_sum. simpl. lia.
  - destruct k as [|k]; simpl.
    + assert (0 ≤ sizes_sum (x :: l)); [|unfold sizes_sum in *; simpl in *; lia].
      specialize (IH 0%nat). rewrite take_0 in IH.
      assert (0 ≤ x.1.2) by (apply Hpos; left).
      unfold sizes_sum in *. simpl in *.
      assert (0 ≤ 0 ≤ foldr (λ x acc, x.1.2 + acc) 0 l); [|lia].
      apply IH. intros y Hy. apply Hpos. by right.
    + assert (0 ≤ x.1.2) by (apply Hpos; left).
      specialize (IH k). unfold sizes_sum in *. simpl in *.
      assert (0 ≤ foldr (λ x acc, x.1.2 + acc) 0 (take k l)
              ≤ foldr (λ x acc, x.1.2 + acc) 0 l); [|lia].
      apply IH. intros y Hy. apply Hpos. by right.
Qed.

Lemma evict_Ok_inv {S} (nbytes : Z) (proxies_access : S → M (list access_info))
    (serializer : ProxyObject → S → M S) (s s' : S) ws' freed :
  evict nbytes proxies_access serializer s = Ok ws' (freed, s') →
  ∃ ws access (k : nat),
    proxies_access s = Ok ws access
    ∧ (k ≤ length access)%nat
    ∧ freed = sizes_sum (take k (sort_access access))
    ∧ (∀ j : nat, (0 < j < k)%nat → sizes_sum (take j (sort_access access)) < nbytes)
    ∧ ((0 < k)%nat ∧ freed >= nbytes ∨ k = length access ∧ (k = 0%nat ∨ freed < nbytes)).
Proof.
  unfold evict. intros (ws & access & ws2 & Hacc & Hrest & _)%bind_Ok.
  destruct (evict_walk nbytes (sort_access access) 0 []) as [freed0 pts] eqn:Hwalk.
  apply bind_Ok in Hrest as (ws3 & s1 & ws4 & _ & [= _ <- _] & _).
  destruct (evict_walk_spec _ _ _ _ _ _ Hwalk) as (k & Hk & Hfreed & _ & Hmin & Hend).
  rewrite (Permutation_length (sort_access_perm access)) in Hk, Hend.
  exists ws, access, k. split_and!; [done|done|lia| |done].
  intros j Hj. specialize (Hmin j Hj). lia.
Qed.

Lemma sizes_sum_take_pos (l : list access_info) (k : nat) :
  (∀ x, x ∈ l → 0 < x.1.2) → l ≠ [] → (0 < k)%nat → 0 < sizes_sum (take k l).
Proof.
  intros Hpos Hne Hk. destruct l as [|x l]; [done|]. destruct k as [|k]; [lia|].
  assert (0 ≤ sizes_sum (take k l) ≤ sizes_sum l) as Hb.
  { apply sizes_sum_take_bounds. intros y Hy. apply Z.lt_le_incl, Hpos. by right. }
  assert (0 < x.1.2) by (apply Hpos; left).
  simpl. unfold sizes_sum in *. simpl. lia.
Qed.

Lemma evict_frees_something {S} (nbytes : Z) (proxies_access : S → M (list access_info))
    (serializer : ProxyObject → S → M S) (s s' : S) ws access ws' freed :
  proxies_access s = Ok ws access →
  access ≠ [] →
  (∀ x, x ∈ access → 0 < x.1.2) →
  evict nbytes proxies_access serializer s = Ok ws' (freed, s') →
  0 < freed.
Proof.
  intros Hacc Hne Hpos Hevict.
  destruct (evict_Ok_inv _ _ _ _ _ _ _ Hevict)
    as (ws0 & access0 & k & Hacc0 & Hk & -> & _ & Hend).
  rewrite Hacc in Hacc0. injection Hacc0 as <- <-.
  assert (length access ≠ 0%nat) as Hlen by (by destruct access).
  apply sizes_sum_take_pos.
  - intros x Hx. apply Hpos. by rewrite <-(sort_access_perm access).
  - intros Hnil. apply Hlen. by rewrite <-(Permutation_length (sort_access_perm access)), Hnil.
  - destruct Hend as [[? _]|[-> _]]; lia.
Qed.

(** X9. How much [evict] reports: when no entry of the snapshot has a negative
    size, the value returned lies between 0 and the sum of all sizes and
    reaches [nbytes] whenever that sum does; it is 0 for an empty snapshot,
    and positive for a snapshot that is not empty and has no entry of
    size 0. *)
Theorem evict_frees_enough_when_possible {S} (nbytes : Z)
    (proxies_access : S → M (list access_info))
    (serializer : ProxyObject → S → M S) (s s' : S) ws access ws' freed :
  proxies_access s = Ok ws access →
  (∀ x, x ∈ access → 0 ≤ x.1.2) →
  evict nbytes proxies_access serializer s = Ok ws' (freed, s') →
  0 ≤ freed ≤ sizes_sum access
  ∧ (nbytes ≤ sizes_sum access → nbytes ≤ freed)
  ∧ (access = [] → freed = 0)
  ∧ (access ≠ [] → (∀ x, x ∈ access → x.1.2 ≠ 0) → 0 < freed).
Proof.
  intros Hacc Hpos Hevict.
  assert (access ≠ [] → (∀ x, x ∈ access → x.1.2 ≠ 0) → 0 < freed) as Hsome.
  { intros Hne Hnz. eapply evict_frees_something; [exact Hacc|exact Hne| |exact Hevict].
    intros x Hx. specialize (Hpos x Hx). specialize (Hnz x Hx). lia. }
  destruct (evict_Ok_inv _ _ _ _ _ _ _ Hevict)
    as (ws0 & access0 & k & Hacc0 & Hk & Hfreed & Hmin & Hend).
  rewrite Hacc in Hacc0. injection Hacc0 as <- <-.
  assert (0 ≤ sizes_sum (take k (sort_access access)) ≤ sizes_sum (sort_access access))
    as Hb.
  { apply sizes_sum_take_bounds. intros x Hx. apply Hpos.
    by rewrite <-(sort_access_perm access). }
  rewrite (sizes_sum_perm _ _ (sort_access_perm access)) in Hb.
  split; [lia|split].
  - intros Htotal. destruct Hend as [[_ ?]|[-> Hless]]; [lia|].
    rewrite <-(Permutation_length (sort_access_perm access)), firstn_all in Hfreed.
    rewrite (sizes_sum_perm _ _ (sort_access_perm access)) in Hfreed.
    destruct Hless as [Hz|?]; [|lia].
    apply nil_length_inv in Hz. subst access. unfold sizes_sum in *. simpl in *.
    (* an empty snapshot with [nbytes ≤ 0]: the loop body never runs *)
    lia.
  - split; [|done]. intros ->. subst freed. simpl. by rewrite take_nil.
Qed.

(** On an empty snapshot [evict] calls no serializer, leaves the state
    alone and reports 0 bytes. *)
Lemma evict_empty_snapshot_run {S} (nbytes : Z) (proxies_access : S → M (list access_info))
    (serializer : ProxyObject → S → M S) (s : S) ws :
  proxies_access s = Ok ws [] →
  evict nbytes proxies_access serializer s = Ok ws (0, s).
Proof.
  intros Hacc. unfold evict, mbind, M_bind, bind. rewrite Hacc. simpl.
  by rewrite app_nil_r.
Qed.

(** X10. [evict] always takes the first entry: with a snapshot that is not
    empty, the coldest entry is walked first, and when its size alone
    reaches [nbytes] (so also for [nbytes ≤ 0]) exactly its proxies are
    serialized, each identity once, and its size is reported. *)
Theorem evict_takes_the_coldest_entry {S} (nbytes : Z)
    (proxies_access : S → M (list access_info))
    (serializer : ProxyObject → S → M S) (s : S) ws access :
  proxies_access s = Ok ws access →
  access ≠ [] →
  ∃ e rest,
    sort_access access = e :: rest
    ∧ e ∈ access
    ∧ (∀ x, x ∈ access → e.1.1 ≤ x.1.1)
    ∧ (nbytes ≤ e.1.2 →
       evict nbytes proxies_access serializer s
       = (proxies_access s ;;
          s' ← for_each (first_by_id e.2 ∅) serializer s;
          mret (e.1.2, s'))).
Proof.
  intros Hacc Hne.
  destruct (sort_access access) as [|e rest] eqn:Hsort.
  { apply (f_equal length) in Hsort.
    rewrite (Permutation_length (sort_access_perm access)) in Hsort.
    by apply nil_length_inv in Hsort. }
  exists e, rest. split_and!; [done| | |].
  - rewrite <-(sort_access_perm access), Hsort. left.
  - intros x Hx. pose proof (sort_access_sorted access) as Hs. rewrite Hsort in Hs.
    apply StronglySorted_cons in Hs as [Hall _].
    rewrite <-(sort_access_perm access), Hsort in Hx.
    apply elem_of_cons in Hx as [->|Hx]; [done|].
    pose proof (proj1 (Forall_forall _ _) Hall x Hx) as Hle. unfold access_le in Hle. lia.
  - intros Henough. unfold evict. rewrite Hacc. unfold mbind, M_bind, bind.
    rewrite Hsort. destruct e as [[t size] proxies]. simpl in *.
    rewrite bool_decide_eq_true_2 by lia. simpl.
    by rewrite evict_serialize_first_by_id.
Qed.

(** ** The host access snapshot *)

Lemma foldl_snoc_fmap {A B} (f : A → B) (l : list A) : ∀ acc,
  foldl (λ ret p, ret ++ [f p]) acc l = acc ++ (f <$> l).
Proof.
  induction l as [|x l IH]; intros acc; simpl; [by rewrite app_nil_r|].
  by rewrite IH, <-app_assoc.
Qed.

Lemma omap_length_le {A B} (f : A → option B) (l : list A) :
  (length (omap f l) ≤ length l)%nat.
Proof.
  induction l as [|x l IH]; [done|]. cbn [omap list_omap length].
  destruct (f x); cbn [length]; [by apply le_n_S|by apply Nat.le_le_succ_r].
Qed.

(** X11. The host snapshot has one entry for each live proxy of the host
    collection, in the order of the collection: the proxy's last access
    time, its size, and the proxy alone. *)
Theorem host_access_snapshot_shape (heap : gmap nat ProxyObject) (self : ProxyManager) :
  get_host_access_info heap self
  = (λ p, (last_access p, sizeof_proxy p, [p])) <$> get_proxies heap (_host self)
  ∧ (∀ p, p ∈ get_proxies heap (_host self) ↔
          ∃ i r, (i, r) ∈ _proxy_id_to_proxy (_host self) ∧ heap !! r = Some p)
  ∧ (length (get_host_access_info heap self) ≤ Proxies_len (_host self))%nat.
Proof.
  assert (get_host_access_info heap self
          = (λ p, (last_access p, sizeof_proxy p, [p])) <$> get_proxies heap (_host self))
    as Heq.
  { unfold get_host_access_info.
    by rewrite (foldl_snoc_fmap (λ p, (last_access p, sizeof_proxy p, [p]))). }
  split_and!; [done|apply get_proxies_elem|].
  rewrite Heq, length_fmap. unfold get_proxies, dict_values, Proxies_len.
  etrans; [apply omap_length_le|]. by rewrite length_fmap.
Qed.

(** ** The spill directory and the file names *)

Lemma prefix_slash_cons (c : ascii) (s1 s2 : string) :
  String.prefix "/" (String c s1) = String.prefix "/" (String c s2).
Proof.
  cbn [String.prefix]. destruct (ascii_dec "/" c); [|done]. by destruct s1, s2.
Qed.

Lemma prefix_slash_file_name (prefix : string) (n m : Z) :
  String.prefix "/" (spill_file_name prefix n) = String.prefix "/" (spill_file_name prefix m).
Proof.
  unfold spill_file_name. destruct prefix as [|c prefix]; [done|].
  apply (prefix_slash_cons c).
Qed.

Lemma os_path_join_file_name_inj (dir prefix : string) (n m : Z) :
  os_path_join dir (spill_file_name prefix n) = os_path_join dir (spill_file_name prefix m) →
  n = m.
Proof.
  unfold os_path_join. rewrite (prefix_slash_file_name prefix n m).
  destruct (String.prefix "/" (spill_file_name prefix m));
    [|destruct (_ || _)]; unfold spill_file_name; intros Heq;
    repeat apply String.app_inj in Heq; by apply (inj pretty).
Qed.

(** X12. File names do not repeat: [gen_file_path] raises the assertion while
    no directory is registered; otherwise it returns normally, advances
    the counter by one and leaves directory and prefix alone, and two calls
    made at different counter values, with the same directory and prefix,
    give different paths. In particular two calls in a row do. *)
Theorem gen_file_path_never_repeats (cls : SpillState) :
  (_spill_directory cls = None → gen_file_path cls = Raise [] (AssertionError ""))
  ∧ (∀ dir, _spill_directory cls = Some dir →
       ∃ path cls',
         gen_file_path cls = Ok [] (path, cls')
         ∧ _spill_to_disk_counter cls' = _spill_to_disk_counter cls + 1
         ∧ _spill_directory cls' = Some dir
         ∧ _spill_to_disk_prefix cls' = _spill_to_disk_prefix cls
         ∧ _spill_shared_filesystem cls' = _spill_shared_filesystem cls
         ∧ (∀ path2 cls2, gen_file_path cls' = Ok [] (path2, cls2) → path2 ≠ path)
         ∧ (∀ other ws path2 cls2,
              _spill_directory other = Some dir →
              _spill_to_disk_prefix other = _spill_to_disk_prefix cls →
              _spill_to_disk_counter other ≠ _spill_to_disk_counter cls →
              gen_file_path other = Ok ws (path2, cls2) → path2 ≠ path)).
Proof.
  split.
  - intros Hnone. unfold gen_file_path. simpl. by rewrite Hnone.
  - intros dir Hdir. unfold gen_file_path at 1. simpl. rewrite Hdir.
    eexists _, _. split; [reflexivity|]. simpl. split_and!; [done..| |].
    + intros path2 cls2. unfold gen_file_path. simpl. rewrite ?Hdir.
      intros [= <- _] Heq. apply os_path_join_file_name_inj in Heq. lia.
    + intros other ws path2 cls2 Hd Hp Hc. unfold gen_file_path. simpl. rewrite Hd, Hp.
      intros [= _ <- _] Heq. apply os_path_join_file_name_inj in Heq. lia.
Qed.

(** X13. The spill directory cannot change: a registration that returns leaves
    a directory that was already set as it is, sets one otherwise, and
    touches neither the counter nor the prefix; a registration whose path
    differs from the directory already set raises [ValueError]. *)
Theorem spill_directory_is_fixed
    (config_temporary_directory : option string) (getcwd : string) (config_shared_fs : bool)
    (local_directory : option string) (shared_filesystem : option bool) (cls : SpillState) :
  let path :=
    os_path_join
      (os_path_join
         (default getcwd
            (py_or (py_or local_directory config_temporary_directory) (Some getcwd)))
         "dask-worker-space")
      "jit-unspill-disk-storage" in
  let registered :=
    register_disk_spilling config_temporary_directory getcwd config_shared_fs
      local_directory shared_filesystem cls in
  (∀ dir, _spill_directory cls = Some dir → dir ≠ path → registered = Raise [] ValueError)
  ∧ (∀ ws cls', registered = Ok ws cls' →
       ws = []
       ∧ _spill_directory cls' = Some (default path (_spill_directory cls))
       ∧ _spill_to_disk_counter cls' = _spill_to_disk_counter cls
       ∧ _spill_to_disk_prefix cls' = _spill_to_disk_prefix cls
       ∧ _spill_shared_filesystem cls' = Some (default config_shared_fs shared_filesystem)
       ∧ ∃ p cls'', gen_file_path cls' = Ok [] (p, cls'')).
Proof.
  simpl. unfold register_disk_spilling. split.
  - intros dir Hdir Hne. rewrite Hdir. by rewrite bool_decide_eq_true_2.
  - intros ws cls'. destruct (_spill_directory cls) as [dir|] eqn:Hdir; simpl.
    + case_bool_decide; [done|]. msimpl. intros [= <- <-]. simpl.
      split_and!; [done|done|done|done|by destruct shared_filesystem|].
      unfold gen_file_path. simpl. by eexists _, _.
    + msimpl. intros [= <- <-]. simpl.
      split_and!; [done|done|done|done|by destruct shared_filesystem|].
      unfold gen_file_path. simpl. by eexists _, _.
Qed.

(** ** The mapping surface, further *)

Lemma dict_get_filter_ne {K V} `{EqDecision K} (k k' : K) (d : list (K * V)) :
  k' ≠ k → dict_get k' (filter (λ kv, kv.1 ≠ k) d) = dict_get k' d.
Proof.
  intros Hne. induction d as [|[k0 v0] d IH]; simpl; [done|].
  rewrite filter_cons. simpl. destruct (decide (k0 ≠ k)) as [Hk|Hk]; simpl.
  - by rewrite IH.
  - rewrite IH. apply dec_stable in Hk. subst k0. by rewrite decide_False.
Qed.

Lemma dict_get_is_Some {K V} `{EqDecision K} (k : K) (d : list (K * V)) :
  is_Some (dict_get k d) ↔ k ∈ d.*1.
Proof.
  rewrite <-not_eq_None_Some, dict_get_None. split; [apply dec_stable|by intros ??].
Qed.

Lemma dict_setitem_length {K V} `{EqDecision K} (k : K) (v : V) (d : list (K * V)) :
  length (dict_setitem k v d) = if decide (k ∈ d.*1) then length d else S (length d).
Proof.
  case_decide as Hin.
  - rewrite <-!(length_fmap fst). by rewrite dict_setitem_keys.
  - rewrite dict_setitem_fresh by done. rewrite length_app. simpl. lia.
Qed.

Lemma ProxyManager_contains_tier i self :
  ProxyManager_contains i self = true ↔ ∃ t, tier_contains t i self = true.
Proof.
  unfold ProxyManager_contains. rewrite !orb_true_iff. split.
  - intros [[?|?]|?]; [by exists Disk|by exists Host|by exists Dev].
  - intros [[] ?]; auto.
Qed.

(** The heap is keyed by identity. *)
Definition heap_ok (h : gmap nat ProxyObject) : Prop :=
  ∀ i p, h !! i = Some p → proxy_id p = i.

Section release_facts.
Context `{!Sizeof}.

Lemma proxy_finalize_spec i w :
  manager_inv (manager w) → heap_ok (heap w) →
  ∃ ws w',
    proxy_finalize i w = Ok ws w'
    ∧ manager_inv (manager w')
    ∧ heap w' = delete i (heap w)
    ∧ (∀ t j, tier_contains t j (manager w')
              = if decide (j = i ∧ is_Some (heap w !! i)) then false
                else tier_contains t j (manager w)).
Proof.
  intros Hinv Hheap. unfold proxy_finalize.
  destruct (heap w !! i) as [p|] eqn:Hp.
  - assert (proxy_id p = i) as Hid by (by apply Hheap).
    destruct (ProxyManager_contains (proxy_id p) (manager w)) eqn:Hin.
    + destruct (ProxyManager_remove_spec p (manager w) Hinv Hin)
        as (ws & m & Hrem & Hinvm & Hc).
      exists ws, {| manager := m; heap := delete i (heap w) |}.
      unfold mbind, M_bind, bind. rewrite Hrem. simpl. rewrite app_nil_r.
      split_and!; [done|done|done|]. intros t j. rewrite Hc, Hid.
      destruct (decide (j = i)) as [->|Hj].
      * by rewrite decide_True by eauto.
      * by rewrite decide_False by naive_solver.
    + exists [], {| manager := manager w; heap := delete i (heap w) |}. msimpl.
      split_and!; [done|done|done|]. intros t j. simpl.
      case_decide as Hj; [|done]. destruct Hj as [-> _].
      apply not_true_is_false. intros Ht.
      assert (ProxyManager_contains i (manager w) = true) as Hc
        by (apply ProxyManager_contains_tier; eauto).
      congruence.
  - exists [], w. split_and!; [done|done|by rewrite delete_id|].
    intros t j. rewrite decide_False; [done|]. by intros [_ ?%is_Some_None].
Qed.

Lemma heap_ok_delete i h : heap_ok h → heap_ok (delete i h).
Proof.
  intros Hh j p. destruct (decide (i = j)) as [->|Hne].
  - by rewrite lookup_delete_eq.
  - rewrite lookup_delete_ne by done. apply Hh.
Qed.

(** Letting go of [dropped]: on a consistent manager nothing is raised; the
    proxies of [dropped] that nothing in [referenced] holds are dead
    afterwards and, when they were alive, tracked nowhere; every other
    identity keeps its object and its place. *)
Lemma release_spec referenced dropped : ∀ w,
  manager_inv (manager w) → heap_ok (heap w) →
  ∃ ws w',
    release referenced dropped w = Ok ws w'
    ∧ manager_inv (manager w')
    ∧ heap_ok (heap w')
    ∧ (∀ j, heap w' !! j
            = if decide (j ∈ dropped ∧ j ∉ referenced) then None else heap w !! j)
    ∧ (∀ t j, tier_contains t j (manager w')
              = if decide (j ∈ dropped ∧ j ∉ referenced ∧ is_Some (heap w !! j))
                then false else tier_contains t j (manager w)).
Proof.
  unfold release. induction dropped as [|i dropped IH]; intros w Hinv Hheap.
  - exists [], w. split_and!; [done|done|done| |].
    + intros j. rewrite decide_False; [done|]. by intros [?%elem_of_nil _].
    + intros t j. rewrite decide_False; [done|]. by intros [?%elem_of_nil _].
  - cbn [for_each]. case_bool_decide as Hi.
    + msimpl. destruct (IH w Hinv Hheap) as (ws & w' & Hrun & Hinv' & Hheap' & Hh & Ht).
      exists ws, w'. split_and!; [done|done|done| |].
      * intros j. rewrite Hh. apply decide_ext. rewrite elem_of_cons.
        split; [naive_solver|]. intros [[->|?] ?]; naive_solver.
      * intros t j. rewrite Ht. apply decide_ext. rewrite elem_of_cons.
        split; [naive_solver|]. intros ([->|?] & ? & ?); naive_solver.
    + destruct (proxy_finalize_spec i w Hinv Hheap)
        as (ws1 & w1 & Hfin & Hinv1 & Hh1 & Ht1).
      assert (heap_ok (heap w1)) as Hheap1 by (rewrite Hh1; by apply heap_ok_delete).
      destruct (IH w1 Hinv1 Hheap1) as (ws & w' & Hrun & Hinv' & Hheap' & Hh & Ht).
      exists (ws1 ++ ws), w'. unfold mbind, M_bind, bind. rewrite Hfin.
      unfold mbind, M_bind, bind in Hrun. rewrite Hrun.
      split_and!; [done|done|done| |].
      * intros j. rewrite Hh, Hh1. destruct (decide (j = i)) as [->|Hj].
        -- rewrite lookup_delete_eq.
           destruct (decide (i ∈ i :: dropped ∧ i ∉ referenced)) as [_|Hno].
           ++ by case_decide.
           ++ destruct Hno. split; [left|done].
        -- rewrite lookup_delete_ne by done. apply decide_ext. rewrite elem_of_cons.
           naive_solver.
      * intros t j. rewrite Ht, Ht1, Hh1. destruct (decide (j = i)) as [->|Hj].
        -- rewrite lookup_delete_eq.
           destruct (decide (i ∈ dropped ∧ i ∉ referenced ∧ is_Some (@None ProxyObject)))
             as [(_ & _ & ?%is_Some_None)|_]; [done|].
           apply decide_ext. split; [intros [_ ?]; split_and!; [left|done|done]|].
           by intros (_ & _ & ?).
        -- rewrite lookup_delete_ne by done.
           destruct (decide (j = i ∧ is_Some (heap w !! i))) as [[? _]|_]; [done|].
           apply decide_ext. rewrite elem_of_cons. naive_solver.
Qed.

End release_facts.

Section hostfile_more.
Context `{!Sizeof, !Serializers} {Value : Type}.
Variable proxify_device_objects :
  Value → gmap nat ProxyObject → Value * list ProxyObject * gmap nat ProxyObject.
Variable held_proxies : Value → list nat.

Lemma initialize_spill_on_demand_once_store (self : ProxifyHostFile Value) :
  store (initialize_spill_on_demand_once self) = store self
  ∧ world (initialize_spill_on_demand_once self) = world self.
Proof. unfold initialize_spill_on_demand_once. by case_bool_decide. Qed.

Lemma ProxifyHostFile_delitem_unfold referenced key (self : ProxifyHostFile Value) old :
  dict_get key (store self) = Some old →
  ProxifyHostFile_delitem held_proxies referenced key self
  = (w ← release
           (referenced ∪ store_refs held_proxies (filter (λ kv, kv.1 ≠ key) (store self)))
           (held_proxies old) (world self);
     mret {| store := filter (λ kv, kv.1 ≠ key) (store self); world := w;
             spill_on_demand_initialized := spill_on_demand_initialized self |}).
Proof.
  intros Hold. unfold ProxifyHostFile_delitem.
  assert (key ∈ (store self).*1) as Hin.
  { apply dict_get_is_Some. by rewrite Hold. }
  rewrite (bind_Ok_nil _ _ _ (dict_delitem_Ok _ _ Hin)). by rewrite Hold.
Qed.

Lemma ProxifyHostFile_setitem_Ok referenced now key value
    (self self' : ProxifyHostFile Value) ws :
  ProxifyHostFile_setitem proxify_device_objects held_proxies referenced now key value self
  = Ok ws self' →
  ∃ ws0 w0 ws1 r,
    (if ProxifyHostFile_contains key self
     then ∃ self0,
            ProxifyHostFile_delitem held_proxies
              (referenced ∪ list_to_set (held_proxies value)) key self = Ok ws0 self0
            ∧ world self0 = w0
     else w0 = world self ∧ ws0 = [])
    ∧ proxify proxify_device_objects now value w0 = Ok ws1 (r, world self')
    ∧ ws = ws0 ++ ws1
    ∧ store self' = dict_setitem key r (filter (λ kv, kv.1 ≠ key) (store self)).
Proof.
  unfold ProxifyHostFile_setitem, ProxifyHostFile_contains.
  destruct (initialize_spill_on_demand_once_store self) as [Hstore Hworld].
  rewrite Hstore. destruct (dict_contains key (store self)) eqn:Hin.
  - apply dict_contains_true in Hin as Hkey.
    apply dict_get_is_Some in Hkey as [old Hold].
    rewrite (ProxifyHostFile_delitem_unfold _ _ _ old) by (by rewrite Hstore).
    rewrite (ProxifyHostFile_delitem_unfold _ _ self old) by done.
    rewrite Hstore, Hworld.
    intros (ws0 & self0 & ws' & Hdel & Hrest & ->)%bind_Ok.
    apply bind_Ok in Hdel as (ws0' & w0 & ? & Hrel & [= <- <-] & ->).
    apply bind_Ok in Hrest as (ws1 & [r w'] & ? & Hp & [= <- <-] & ->).
    simpl in *. exists (ws0' ++ []), w0, ws1, r. rewrite Hrel.
    split_and!; [|done|by rewrite !app_nil_r|done].
    eexists. split; [unfold mbind, M_bind, bind; simpl; reflexivity|done].
  - msimpl. rewrite Hworld, Hstore.
    intros (ws1 & [r w'] & ws2 & Hp & [= <- <-] & ->)%bind_Ok.
    exists [], (world self), ws1, r.
    split; [done|]. split; [done|]. split; [by rewrite app_nil_r|]. simpl.
    apply dict_contains_false in Hin. by rewrite filter_keys_absent.
Qed.


Variable unproxify_device_objects : Value → World → M (Value * World).

(** X14. Insert, then look up: after an insert that returned, the key is
    present, a lookup (outside compatibility mode) returns the value
    [proxify] produced and changes nothing, the values under the other
    keys are the ones stored before, and the number of keys has grown by
    one exactly when the key was new. [proxify] ran in the state the host
    file was in for a new key, and in the state the deletion of the old
    entry left for a key that was present. *)
Theorem store_insert_then_lookup referenced now key value
    (self self' : ProxifyHostFile Value) ws :
  NoDup (ProxifyHostFile_iter self) →
  ProxifyHostFile_setitem proxify_device_objects held_proxies referenced now key value self
  = Ok ws self' →
  ∃ r ws0 w0 ws1,
    (if ProxifyHostFile_contains key self
     then ∃ self0,
            ProxifyHostFile_delitem held_proxies
              (referenced ∪ list_to_set (held_proxies value)) key self = Ok ws0 self0
            ∧ world self0 = w0
     else w0 = world self ∧ ws0 = [])
    ∧ proxify proxify_device_objects now value w0 = Ok ws1 (r, world self')
    ∧ ws = ws0 ++ ws1
    ∧ ProxifyHostFile_contains key self' = true
    ∧ ProxifyHostFile_getitem unproxify_device_objects false key self' = Ok [] (r, self')
    ∧ (∀ key', key' ≠ key →
         dict_get key' (store self') = dict_get key' (store self))
    ∧ NoDup (ProxifyHostFile_iter self')
    ∧ ProxifyHostFile_len self'
      = (if ProxifyHostFile_contains key self then ProxifyHostFile_len self
         else S (ProxifyHostFile_len self)).
Proof.
  intros Hnd Hset.
  destruct (ProxifyHostFile_setitem_Ok _ _ _ _ _ _ _ Hset)
    as (ws0 & w0 & ws1 & r & Hdel & Hp & Hws & Hstore).
  exists r, ws0, w0, ws1. split; [exact Hdel|]. split; [exact Hp|]. split; [exact Hws|].
  clear Hdel Hp Hws Hset.
  unfold ProxifyHostFile_contains, ProxifyHostFile_getitem,
    ProxifyHostFile_iter, ProxifyHostFile_len in *. rewrite Hstore.
  split_and!.
  - apply dict_contains_true, dict_setitem_keys_elem. by left.
  - by rewrite dict_get_setitem.
  - intros key' Hne. rewrite dict_get_setitem_ne by done. by apply dict_get_filter_ne.
  - by apply dict_setitem_NoDup, filter_keys_NoDup.
  - rewrite dict_setitem_length.
    rewrite decide_False by (rewrite filter_keys_elem; naive_solver).
    destruct (dict_contains key (store self)) eqn:Hin.
    + apply dict_contains_true in Hin. rewrite <-!(length_fmap fst).
      clear Hstore. induction (store self) as [|[k v] d IH]; [by apply elem_of_nil in Hin|].
      simpl in *. apply NoDup_cons in Hnd as [Hk Hnd]. rewrite filter_cons. simpl.
      destruct (decide (k ≠ key)) as [Hne|Heq]; simpl.
      * f_equal. apply IH; [done|]. apply elem_of_cons in Hin as [?|?]; [congruence|done].
      * apply dec_stable in Heq. subst k. by rewrite filter_keys_absent.
    + apply dict_contains_false in Hin. by rewrite filter_keys_absent.
Qed.

(** X15. Missing keys and deletion: a lookup or a deletion of an absent key
    raises [KeyError]. On a consistent manager, with the heap keyed by
    identity, a deletion of a present key returns; the key is then absent,
    the other keys keep their values, and the store is shorter. The
    proxies the deleted value held that are alive and that neither the
    caller nor another stored value holds are dead and tracked nowhere
    afterwards; every other identity keeps its object and its
    collection. *)
Theorem store_delete_and_missing_keys referenced compatibility_mode key
    (self : ProxifyHostFile Value) :
  (ProxifyHostFile_contains key self = false →
     ProxifyHostFile_delitem held_proxies referenced key self = Raise [] KeyError
     ∧ ProxifyHostFile_getitem unproxify_device_objects compatibility_mode key self
       = Raise [] KeyError)
  ∧ (ProxifyHostFile_contains key self = true →
     manager_inv (manager (world self)) →
     heap_ok (heap (world self)) →
     ∃ old ws self',
       dict_get key (store self) = Some old
       ∧ ProxifyHostFile_delitem held_proxies referenced key self = Ok ws self'
       ∧ ProxifyHostFile_contains key self' = false
       ∧ ProxifyHostFile_getitem unproxify_device_objects compatibility_mode key self'
         = Raise [] KeyError
       ∧ (∀ key', key' ≠ key →
            dict_get key' (store self') = dict_get key' (store self))
       ∧ (ProxifyHostFile_len self' < ProxifyHostFile_len self)%nat
       ∧ (∀ i, i ∈ held_proxies old →
               i ∉ referenced ∪ store_refs held_proxies (store self') →
               is_Some (heap (world self) !! i) →
               ProxyManager_contains i (manager (world self')) = false
               ∧ heap (world self') !! i = None)
       ∧ (∀ i, i ∈ referenced ∪ store_refs held_proxies (store self')
               ∨ i ∉ held_proxies old →
               heap (world self') !! i = heap (world self) !! i
               ∧ ∀ t, tier_contains t i (manager (world self'))
                      = tier_contains t i (manager (world self)))
       ∧ manager_inv (manager (world self'))
       ∧ heap_ok (heap (world self'))).
Proof.
  clear proxify_device_objects.
  split.
  - unfold ProxifyHostFile_contains, ProxifyHostFile_delitem, ProxifyHostFile_getitem.
    intros Hin%dict_contains_false. rewrite (dict_delitem_KeyError _ _ Hin).
    split; [done|]. by rewrite (proj2 (dict_get_None key (store self)) Hin).
  - intros Hin Hinv Hheap. unfold ProxifyHostFile_contains in Hin.
    apply dict_contains_true in Hin.
    apply dict_get_is_Some in Hin as Hold. destruct Hold as [old Hold].
    set (rest := filter (λ kv, kv.1 ≠ key) (store self)).
    destruct (release_spec (referenced ∪ store_refs held_proxies rest) (held_proxies old)
                (world self) Hinv Hheap) as (ws & w1 & Hrel & Hinv1 & Hheap1 & Hh & Ht).
    exists old, ws, {| store := rest; world := w1;
                       spill_on_demand_initialized := spill_on_demand_initialized self |}.
    assert (key ∉ rest.*1) as Hgone.
    { unfold rest. rewrite filter_keys_elem. naive_solver. }
    unfold ProxifyHostFile_contains, ProxifyHostFile_getitem, ProxifyHostFile_len. simpl.
    split_and!; [done| | | | | | | |done|done].
    + rewrite (ProxifyHostFile_delitem_unfold _ _ _ old Hold). fold rest.
      unfold mbind, M_bind, bind. rewrite Hrel. simpl. by rewrite app_nil_r.
    + by apply dict_contains_false.
    + by rewrite (proj2 (dict_get_None _ _) Hgone).
    + intros key' Hne. by apply dict_get_filter_ne.
    + apply list_elem_of_fmap in Hin as ([k v] & -> & Hin).
      by apply (length_filter_lt _ _ (k, v)); [|simpl; intros ?].
    + intros i Hi Hfree Halive. split.
      * apply not_true_is_false. intros [t Hc]%ProxyManager_contains_tier.
        rewrite Ht in Hc. by rewrite decide_True in Hc.
      * rewrite Hh. by rewrite decide_True.
    + intros i Hi. split.
      * rewrite Hh. rewrite decide_False; [done|]. naive_solver.
      * intros t. rewrite Ht. rewrite decide_False; [done|]. naive_solver.
Qed.

End hostfile_more.

(** ** The out-of-memory callback *)

Section oom_facts.
Context `{!Sizeof, !Serializers}.

(** What the device snapshot is made of, in the form the callback needs:
    every size is the size of a buffer, and the snapshot is empty exactly
    when no live device proxy reports a buffer. *)
Lemma dev_access_info_sizes (heap : gmap nat ProxyObject) (self : ProxyManager) :
  ∃ info,
    get_dev_access_info heap self = Ok [] info
    ∧ (∀ e, e ∈ info → ∃ b, e.1.2 = sizeof b)
    ∧ (info = [] → ∀ p, p ∈ get_proxies heap (_dev self) →
                        _pxy_get_device_memory_objects p = [])
    ∧ (info ≠ [] → ∃ p, p ∈ get_proxies heap (_dev self)
                        ∧ _pxy_get_device_memory_objects p ≠ []).
Proof.
  set (live := get_proxies heap (_dev self)).
  destruct (map_buffers_to_proxies_inv live) as [Hnd Hget].
  assert (∀ b ps, (b, ps) ∈ map_buffers_to_proxies live →
                  ps = buffer_refs b (visited_pairs live) ∧ ps ≠ []) as Hentry.
  { intros b ps Hin. apply (dict_get_elem _ _ _ Hnd) in Hin. rewrite Hget in Hin.
    destruct (buffer_refs b (visited_pairs live)); [done|]. by injection Hin as <-. }
  destruct (dev_access_loop_spec (map_buffers_to_proxies live) [])
    as (info & Hrun & Hall).
  { intros b ps Hin. by destruct (Hentry b ps Hin). }
  exists info. split_and!; [done| | |].
  - intros e He. apply list_elem_of_lookup in He as [i He].
    destruct (Forall2_lookup_r _ _ _ _ _ Hall He) as ([b ps] & _ & Hsize & _).
    by exists b.
  - apply Forall2_length in Hall.
    intros ->. destruct (map_buffers_to_proxies live) as [|??] eqn:HB; [|done].
    intros p Hp. destruct (_pxy_get_device_memory_objects p) as [|b bs] eqn:Hbs; [done|].
    specialize (Hget b). simpl in Hget.
    assert (p ∈ buffer_refs b (visited_pairs live)) as Hin.
    { apply buffer_refs_elem, visited_pairs_elem. split; [done|]. rewrite Hbs. left. }
    by destruct (buffer_refs b (visited_pairs live)); [apply elem_of_nil in Hin|].
  - intros Hne. apply Forall2_length in Hall.
    destruct (map_buffers_to_proxies live) as [|[b ps] B] eqn:HB; [by destruct info|].
    destruct (Hentry b ps) as [Hps Hps']; [left|].
    destruct ps as [|p ps]; [done|].
    assert (p ∈ buffer_refs b (visited_pairs live)) as Hin by (rewrite <-Hps; left).
    apply buffer_refs_elem, visited_pairs_elem in Hin as [Hp Hb].
    exists p. split; [done|]. intros Hnil. rewrite Hnil in Hb. by apply elem_of_nil in Hb.
Qed.

(** X16. What the allocator is told: when every buffer has a positive size
    and the callback returns, it answers [True] ("retry the allocation")
    exactly when some live proxy of the device collection reports a device
    buffer, however small the request; when it answers [False] no
    serializer was called and [gc.collect()] ran on the state the callback
    started from. *)
Theorem oom_retries_iff_something_to_spill (gc_collect : World → M World)
    (nbytes : Z) (w w' : World) ws answer :
  (∀ b, 0 < sizeof b) →
  oom gc_collect nbytes w = Ok ws (answer, w') →
  (answer = true ↔
     ∃ p, p ∈ get_proxies (heap w) (_dev (manager w))
          ∧ _pxy_get_device_memory_objects p ≠ [])
  ∧ (answer = false → gc_collect w = Ok ws w').
Proof.
  intros Hpos. unfold oom.
  intros (ws1 & [freed w1] & ws2 & Hevict & Hrest & ->)%bind_Ok. simpl in Hrest.
  apply bind_Ok in Hrest as (ws3 & w2 & ws4 & Hgc & Hret & ->).
  destruct (dev_access_info_sizes (heap w) (manager w))
    as (info & Hinfo & Hsizes & Hnil & Hsome).
  assert (dev_access w = Ok [] info) as Hacc by done.
  destruct (decide (info = [])) as [->|Hne].
  - rewrite (evict_empty_snapshot_run nbytes dev_access _ w [] Hacc) in Hevict.
    injection Hevict as <- <- <-.
    rewrite bool_decide_false in Hret by lia. injection Hret as <- <- <-.
    split.
    + split; [done|]. intros (p & Hp & Hbufs). destruct Hbufs. by apply Hnil.
    + intros _. by rewrite app_nil_r.
  - assert (0 < freed) as Hfreed.
    { eapply evict_frees_something; [exact Hacc|exact Hne| |exact Hevict].
      intros e (b & ->)%Hsizes. apply Hpos. }
    rewrite bool_decide_true in Hret by lia. injection Hret as <- <- <-.
    split; [|done]. split; [|done]. intros _. by apply Hsome.
Qed.

End oom_facts.

(** ** The registration loop of proxify *)

Section proxify_facts.
Context `{!Sizeof, !Serializers} {Value : Type}.
Variable proxify_device_objects :
  Value → gmap nat ProxyObject → Value * list ProxyObject * gmap nat ProxyObject.

Lemma ProxyManager_add_untracked proxy serializer self :
  manager_inv self →
  ProxyManager_contains (proxy_id proxy) self = false →
  ∃ self', ProxyManager_add proxy serializer self = Ok [] self'
    ∧ manager_inv self'
    ∧ (∀ t i, tier_contains t i self'
              = if decide (i = proxy_id proxy)
                then bool_decide (t = get_proxies_by_serializer serializer)
                else tier_contains t i self).
Proof.
  intros Hinv Hnew.
  destruct (ProxyManager_add_spec proxy serializer self Hinv) as (ws & self' & Hadd & Hrest).
  exists self'. split; [|done]. revert Hadd. unfold ProxyManager_add.
  rewrite (proj2 (get_proxies_by_proxy_object_None proxy self) Hnew).
  rewrite bool_decide_eq_true_2 by done. msimpl.
  assert (tier_contains (get_proxies_by_serializer serializer) (proxy_id proxy) self = false)
    as Hfresh.
  { apply not_true_is_false. intros Ht.
    assert (ProxyManager_contains (proxy_id proxy) self = true) as Hc
      by (apply ProxyManager_contains_tier; eauto).
    congruence. }
  destruct (tier_add_spec _ proxy self (minv_dev _ Hinv) Hfresh) as (self2 & -> & _).
  by intros [= <- <-].
Qed.

Lemma proxify_loop_spec (now : Z) (found_proxies : list ProxyObject) : ∀ w,
  manager_inv (manager w) →
  ∃ w1,
    for_each found_proxies
      (λ p w,
         let p := set_last_access now p in
         let w := set_heap (<[proxy_id p := p]> (heap w)) w in
         if negb (ProxyManager_contains (proxy_id p) (manager w)) then
           m ← ProxyManager_add p (serializer p) (manager w);
           mret (set_manager m w)
         else mret w)
      w
    = Ok [] w1
    ∧ manager_inv (manager w1)
    ∧ (∀ t i, tier_contains t i (manager w) = true → tier_contains t i (manager w1) = true)
    ∧ (∀ t i, tier_contains t i (manager w1) = true →
              tier_contains t i (manager w) = true
              ∨ ∃ p, p ∈ found_proxies ∧ proxy_id p = i
                     ∧ t = get_proxies_by_serializer (serializer p))
    ∧ (∀ p, p ∈ found_proxies → ProxyManager_contains (proxy_id p) (manager w1) = true)
    ∧ (∀ p, p ∈ found_proxies →
            ∃ q, heap w1 !! proxy_id p = Some q ∧ last_access q = now)
    ∧ (∀ i, i ∉ proxy_id <$> found_proxies → heap w1 !! i = heap w !! i).
Proof.
  induction found_proxies as [|p found IH]; intros w Hinv.
  - exists w. split_and!; [done|done|done|by left| | |done];
      by intros p ?%elem_of_nil.
  - cbn [for_each].
    set (w0 := set_heap (<[proxy_id p := set_last_access now p]> (heap w)) w).
    assert (∃ w2, (if negb (ProxyManager_contains (proxy_id p) (manager w0)) then
                     m ← ProxyManager_add (set_last_access now p) (serializer p) (manager w0);
                     mret (set_manager m w0)
                   else mret w0) = Ok [] w2
                  ∧ heap w2 = <[proxy_id p := set_last_access now p]> (heap w)
                  ∧ manager_inv (manager w2)
                  ∧ ProxyManager_contains (proxy_id p) (manager w2) = true
                  ∧ (∀ t i, tier_contains t i (manager w) = true →
                            tier_contains t i (manager w2) = true)
                  ∧ (∀ t i, tier_contains t i (manager w2) = true →
                            tier_contains t i (manager w) = true
                            ∨ (proxy_id p = i ∧ t = get_proxies_by_serializer (serializer p))))
      as (w2 & Hstep & Hheap & Hinv2 & Hin2 & Hmono & Hnew).
    { destruct (ProxyManager_contains (proxy_id p) (manager w0)) eqn:Hc.
      - exists w0. split_and!; [done|done|done|done|done|by left].
      - destruct (ProxyManager_add_untracked (set_last_access now p) (serializer p)
                    (manager w) Hinv Hc) as (m & Hadd & Hinvm & Hcm).
        exists (set_manager m w0). simpl. unfold w0 at 1. simpl.
        rewrite (bind_Ok_nil _ _ _ Hadd). split_and!; [done|done|done| | |].
        + apply ProxyManager_contains_tier.
          exists (get_proxies_by_serializer (serializer p)). simpl. rewrite Hcm.
          simpl. rewrite decide_True by done. by apply bool_decide_eq_true_2.
        + intros t i Ht. simpl. rewrite Hcm. simpl. case_decide as Hi; [|done].
          subst i. assert (ProxyManager_contains (proxy_id p) (manager w) = true)
            by (apply ProxyManager_contains_tier; eauto).
          simpl in Hc. congruence.
        + intros t i. simpl. rewrite Hcm. simpl. case_decide as Hi; [|by left].
          intros ?%bool_decide_eq_true. by right. }
    destruct (IH w2 Hinv2) as (w1 & Hrun & Hinv1 & Hmono1 & Hnew1 & Hin1 & Hheap1 & Hrest1).
    exists w1. split_and!.
    + change (set_heap _ w) with w0. by rewrite (bind_Ok_nil _ _ _ Hstep).
    + done.
    + intros t i Ht. by apply Hmono1, Hmono.
    + intros t i Ht. destruct (Hnew1 t i Ht) as [Ht2|(q & Hq & Hid & Hser)].
      * destruct (Hnew t i Ht2) as [?|[Hid Hser]]; [by left|].
        right. exists p. split; [left|done].
      * right. exists q. split; [by right|done].
    + intros q [->|Hq]%elem_of_cons; [|by apply Hin1].
      apply ProxyManager_contains_tier in Hin2 as [t Ht].
      apply ProxyManager_contains_tier. exists t. by apply Hmono1.
    + intros q [->|Hq]%elem_of_cons; [|by apply Hheap1].
      destruct (decide (proxy_id p ∈ proxy_id <$> found)) as [Hlater|Hlast].
      * apply list_elem_of_fmap in Hlater as (q & Hid & Hq). rewrite Hid. by apply Hheap1.
      * exists (set_last_access now p). split; [|done].
        by rewrite (Hrest1 _ Hlast), Hheap, lookup_insert_eq.
    + intros i Hi. rewrite fmap_cons, not_elem_of_cons in Hi. destruct Hi as [Hne Hi].
      by rewrite (Hrest1 _ Hi), Hheap, lookup_insert_ne.
Qed.

(** X17. What [proxify] has done when it reaches [maybe_evict]: on a manager
    reached by adds and removes, the registration loop does not raise and
    warns of nothing; every proxy that was found is then tracked and its
    object carries the time of this call; a proxy tracked before stays in
    its collection and one that was not goes to the collection of its
    serializer; identities that were not found keep their object and their
    place; and no identity is tracked twice. The value returned is the one
    [proxify_device_objects] made, when [maybe_evict] returns. *)
Theorem proxify_registers_found_proxies (device_memory_limit memory_limit now : Z)
    (ops : list manager_op) ws (obj : Value) (w : World) :
  run_manager_ops ops (ProxyManager_init device_memory_limit memory_limit)
  = Ok ws (manager w) →
  ∃ w1,
    proxify proxify_device_objects now obj w
    = (w' ← maybe_evict 0 w1; mret ((proxify_device_objects obj (heap w)).1.1, w'))
    ∧ (∀ p, p ∈ (proxify_device_objects obj (heap w)).1.2 →
            ProxyManager_contains (proxy_id p) (manager w1) = true
            ∧ ∃ q, heap w1 !! proxy_id p = Some q ∧ last_access q = now)
    ∧ (∀ t i, tier_contains t i (manager w) = true → tier_contains t i (manager w1) = true)
    ∧ (∀ t i, tier_contains t i (manager w1) = true →
              tier_contains t i (manager w) = true
              ∨ ∃ p, p ∈ (proxify_device_objects obj (heap w)).1.2 ∧ proxy_id p = i
                     ∧ t = get_proxies_by_serializer (serializer p))
    ∧ (∀ i, i ∉ proxy_id <$> (proxify_device_objects obj (heap w)).1.2 →
            heap w1 !! i = (proxify_device_objects obj (heap w)).2 !! i)
    ∧ (∀ i t1 t2, tier_contains t1 i (manager w1) = true →
                  tier_contains t2 i (manager w1) = true → t1 = t2).
Proof.
  intros Hreach. unfold proxify.
  destruct (proxify_device_objects obj (heap w)) as [[ret found] h]. simpl.
  assert (manager_inv (manager (set_heap h w))) as Hinv.
  { simpl. eapply run_manager_ops_inv; [|exact Hreach]. apply ProxyManager_init_inv. }
  destruct (proxify_loop_spec now found (set_heap h w) Hinv)
    as (w1 & Hrun & Hinv1 & Hmono & Hnew & Hin & Hheap & Hrest).
  exists w1. split_and!; [|auto|done|done|done|apply Hinv1].
  by rewrite (bind_Ok_nil _ _ _ Hrun).
Qed.

End proxify_facts.

(** * Worked instances

    Concrete registries and managers on which the statements above are
    exercised: every buffer has 50 bytes, proxies 1 and 2 share buffer
    7, and the serializers leave the world alone. *)

#[local] Instance ex_sizeof : Sizeof := λ _, 50.

#[local] Instance ex_serializers : Serializers := {|
  _pxy_serialize := λ _ _ w, mret w;
  serialize_proxy_to_disk_inplace := λ _ w, mret w
|}.

Definition ex_p1 : ProxyObject :=
  {| proxy_id := 1; serializer := None; last_access := 10;
     _pxy_get_device_memory_objects := [7%nat]; sizeof_proxy := 50 |}.

Definition ex_p2 : ProxyObject :=
  {| proxy_id := 2; serializer := None; last_access := 20;
     _pxy_get_device_memory_objects := [7%nat]; sizeof_proxy := 50 |}.

Definition ex_ops : list registry_op := [OpAdd ex_p1; OpAdd ex_p2; OpRemove ex_p1].

Definition ex_dev : Proxies DevMaps :=
  {| _proxy_id_to_proxy := [(2%nat, 2%nat)];
     _mem_usage := 50;
     ext := {| proxy_id_to_dev_mems := {[2%nat := {[7%nat]}]};
               dev_mem_to_proxy_ids := {[7%nat := {[2%nat]}]} |} |}.

Lemma C1_witness :
  run_ops ex_ops ProxiesOnDevice_init = Ok [] ex_dev
  ∧ _mem_usage ex_dev = sum_sizes (referenced_dev_mems (tracked_after ex_ops ∅)).
Proof.
  assert (run_ops ex_ops ProxiesOnDevice_init = Ok [] ex_dev) as Hrun
    by (vm_compute; reflexivity).
  split; [exact Hrun|].
  exact (proj1 (proj2 (proj2 (C1_alias_safe_device_tally ex_ops [] ex_dev Hrun)))).
Defined.

Definition ex_access : list access_info :=
  [(3, 10, [ex_p1]); (1, 10, [ex_p2]); (2, 10, [ex_p1])].

Lemma C3_witness :
  ∃ k : nat,
    (k ≤ 3)%nat
    ∧ evict 15 (λ _ : list nat, Ok [] ex_access)
        (λ p log, Ok [] (log ++ [proxy_id p])) []
      = (log ← for_each (first_by_id (proxies_of (take k (sort_access ex_access))) ∅)
                 (λ p log, Ok [] (log ++ [proxy_id p])) [];
         mret (sizes_sum (take k (sort_access ex_access)), log)).
Proof.
  destruct (C3_eviction_accumulation_and_demotion 15
              (λ _ : list nat, Ok [] ex_access)
              (λ p log, Ok [] (log ++ [proxy_id p])) [] [] ex_access eq_refl)
    as (k & Hk & _ & _ & _ & _ & _ & Hevict).
  exists k. split; [exact Hk|]. rewrite Hevict. apply (bind_ret_l ex_access).
Defined.

Definition ex_manager : ProxyManager :=
  {| _disk := Proxies_init tt;
     _host := {| _proxy_id_to_proxy := [(1%nat, 1%nat)]; _mem_usage := 50; ext := tt |};
     _dev := ProxiesOnDevice_init;
     _device_memory_limit := 100;
     _host_memory_limit := 100 |}.

Lemma C6_witness :
  tier_contains Host 1 ex_manager = true
  ∧ ProxyManager_add ex_p1 (Some "dask"%string) ex_manager = Ok [] ex_manager.
Proof.
  split; [reflexivity|].
  apply C6_idempotent_reinsertion; [reflexivity|].
  intros [] Hne; [reflexivity|exfalso; by apply Hne|reflexivity].
Defined.

Definition ex_host : Proxies unit :=
  {| _proxy_id_to_proxy := [(1%nat, 1%nat)]; _mem_usage := 70; ext := tt |}.

Lemma C8_witness :
  ∃ ws self',
    Proxies_remove ex_p1 ex_host = Ok ws self'
    ∧ _mem_usage self' = 0
    ∧ Proxies_len self' = 0%nat
    ∧ (20 ≠ 0 → ws = [] ++ [TallyReset 20]
                ∧ self' = set_mem_usage 0 (Build_Proxies [] 20 tt))
    ∧ (20 = 0 → ws = [] ∧ self' = Build_Proxies [] 20 tt).
Proof.
  apply (C8_empty_registry_tally_reset ex_p1 ex_host (Build_Proxies [] 20 tt) []);
    reflexivity.
Defined.

Definition ex_proxify_device_objects (value : nat) (h : gmap nat ProxyObject)
    : nat * list ProxyObject * gmap nat ProxyObject :=
  match value with
  | 1%nat => (value, [ex_p1], <[1%nat := ex_p1]> h)
  | _ => (value, [], h)
  end.

Definition ex_hostfile : ProxifyHostFile nat :=
  {| store := [];
     world := {| manager := ProxyManager_init 100 100; heap := ∅ |};
     spill_on_demand_initialized := Some false |}.

Definition ex_hostfile_x : ProxifyHostFile nat :=
  {| store := [("x"%string, 5%nat)];
     world := {| manager := ProxyManager_init 100 100; heap := ∅ |};
     spill_on_demand_initialized := None |}.

(** The proxies a value of the examples holds: value 1 holds proxy 1. *)
Definition ex_held_proxies (value : nat) : list nat :=
  match value with
  | 1%nat => [1%nat]
  | _ => []
  end.

Definition ex_dev1 : Proxies DevMaps :=
  {| _proxy_id_to_proxy := [(1%nat, 1%nat)];
     _mem_usage := 50;
     ext := {| proxy_id_to_dev_mems := {[1%nat := {[7%nat]}]};
               dev_mem_to_proxy_ids := {[7%nat := {[1%nat]}]} |} |}.

(** A host file whose key "x" holds value 1, and with it proxy 1, which
    the device collection tracks. *)
Definition ex_hostfile_p1 : ProxifyHostFile nat :=
  {| store := [("x"%string, 1%nat)];
     world := {| manager := {| _disk := Proxies_init tt;
                               _host := Proxies_init tt;
                               _dev := ex_dev1;
                               _device_memory_limit := 100;
                               _host_memory_limit := 100 |};
                 heap := {[1%nat := ex_p1]} |};
     spill_on_demand_initialized := Some true |}.

Lemma ex_hostfile_p1_reached :
  run_manager_ops [MAdd ex_p1 None] (ProxyManager_init 100 100)
  = Ok [] (manager (world ex_hostfile_p1)).
Proof. vm_compute. reflexivity. Qed.

Lemma ex_hostfile_p1_heap_ok : heap_ok (heap (world ex_hostfile_p1)).
Proof.
  intros i p Hp. cbn in Hp. apply lookup_singleton_Some in Hp as [<- <-]. reflexivity.
Qed.



(** ** Instances of the further properties *)

Definition ex_host_after : Proxies unit :=
  {| _proxy_id_to_proxy := [(2%nat, 2%nat)]; _mem_usage := 50; ext := tt |}.

Lemma host_tally_witness :
  steady_ops ex_ops ∅ = true
  ∧ run_ops ex_ops (Proxies_init tt) = Ok [] ex_host_after
  ∧ _mem_usage ex_host_after = sizes_total (sizes_after ex_ops ∅).
Proof.
  assert (steady_ops ex_ops ∅ = true) as Hsteady by (vm_compute; reflexivity).
  split; [exact Hsteady|].
  destruct (host_tally_is_sum_of_tracked_sizes ex_ops Hsteady) as (self & Hrun & Htally & _).
  assert (run_ops ex_ops (Proxies_init tt) = Ok [] ex_host_after) as Hrun'
    by (vm_compute; reflexivity).
  rewrite Hrun' in Hrun. injection Hrun as <-. split; [exact Hrun'|exact Htally].
Defined.

Lemma device_dictionaries_witness :
  run_ops ex_ops ProxiesOnDevice_init = Ok [] ex_dev
  ∧ NoDup (_proxy_id_to_proxy ex_dev).*1
  ∧ Proxies_len ex_dev = size (proxy_id_to_dev_mems (ext ex_dev)).
Proof.
  assert (run_ops ex_ops ProxiesOnDevice_init = Ok [] ex_dev) as Hrun
    by (vm_compute; reflexivity).
  split; [exact Hrun|].
  destruct (device_registry_dictionaries_inverse ex_ops [] ex_dev Hrun)
    as (_ & _ & _ & Hnd & Hlen).
  split; [exact Hnd|exact Hlen].
Defined.

Lemma device_round_trip_witness :
  run_ops ex_ops ProxiesOnDevice_init = Ok [] ex_dev
  ∧ contains_proxy_id (proxy_id ex_p1) ex_dev = false
  ∧ (self' ← Proxies_add ex_p1 ex_dev; Proxies_remove ex_p1 self') = Ok [] ex_dev.
Proof.
  assert (run_ops ex_ops ProxiesOnDevice_init = Ok [] ex_dev) as Hrun
    by (vm_compute; reflexivity).
  split; [exact Hrun|]. split; [reflexivity|].
  exact (device_add_remove_round_trip ex_ops [] ex_dev ex_p1 Hrun eq_refl).
Defined.

Definition ex_manager_ops : list manager_op :=
  [MAdd ex_p1 (Some "dask"%string); MAdd ex_p2 None].

Definition ex_manager2 : ProxyManager :=
  {| _disk := Proxies_init tt;
     _host := {| _proxy_id_to_proxy := [(1%nat, 1%nat)]; _mem_usage := 50; ext := tt |};
     _dev := ex_dev;
     _device_memory_limit := 100;
     _host_memory_limit := 100 |}.

Lemma manager_once_witness :
  run_manager_ops ex_manager_ops (ProxyManager_init 100 100) = Ok [] ex_manager2
  ∧ ∀ i t1 t2,
      tier_contains t1 i ex_manager2 = true → tier_contains t2 i ex_manager2 = true →
      t1 = t2.
Proof.
  assert (run_manager_ops ex_manager_ops (ProxyManager_init 100 100) = Ok [] ex_manager2)
    as Hrun by (vm_compute; reflexivity).
  split; [exact Hrun|].
  exact (manager_tracks_each_proxy_once 100 100 ex_manager_ops [] ex_manager2 Hrun).
Defined.

Lemma manager_add_witness :
  run_manager_ops ex_manager_ops (ProxyManager_init 100 100) = Ok [] ex_manager2
  ∧ ∃ ws' self',
      ProxyManager_add ex_p1 None ex_manager2 = Ok ws' self'
      ∧ get_proxies_by_proxy_object ex_p1 self' = Some Dev
      ∧ tier_contains Host 1 self' = false.
Proof.
  assert (run_manager_ops ex_manager_ops (ProxyManager_init 100 100) = Ok [] ex_manager2)
    as Hrun by (vm_compute; reflexivity).
  split; [exact Hrun|].
  destruct (manager_add_moves_proxy 100 100 ex_manager_ops [] ex_manager2 ex_p1 None Hrun)
    as (ws' & self' & Hadd & Hwhere & Hout & _).
  exists ws', self'. split; [exact Hadd|]. split; [exact Hwhere|].
  by apply (Hout Host).
Defined.

Lemma manager_remove_witness :
  run_manager_ops ex_manager_ops (ProxyManager_init 100 100) = Ok [] ex_manager2
  ∧ ProxyManager_contains (proxy_id ex_p2) ex_manager2 = true
  ∧ ∃ ws' self',
      ProxyManager_remove ex_p2 ex_manager2 = Ok ws' self'
      ∧ ProxyManager_contains (proxy_id ex_p2) self' = false
      ∧ tier_contains Host 1 self' = true.
Proof.
  assert (run_manager_ops ex_manager_ops (ProxyManager_init 100 100) = Ok [] ex_manager2)
    as Hrun by (vm_compute; reflexivity).
  split; [exact Hrun|]. split; [reflexivity|].
  destruct (manager_remove_untracks_proxy 100 100 ex_manager_ops [] ex_manager2 ex_p2
              Hrun eq_refl) as (ws' & self' & Hrem & Hgone & Hothers).
  exists ws', self'. split; [exact Hrem|]. split; [exact Hgone|].
  by rewrite (Hothers Host 1%nat).
Defined.

Definition ex_sorted : list access_info :=
  [(1, 10, [ex_p2]); (2, 10, [ex_p1]); (3, 10, [ex_p1])].

Lemma evict_order_witness :
  StronglySorted (λ x y : access_info, x.1.1 < y.1.1 ∨ (x.1.1 = y.1.1 ∧ y.1.2 ≤ x.1.2))
    ex_sorted
  ∧ (∀ t size,
       filter (λ x : access_info, x.1.1 = t ∧ x.1.2 = size) ex_sorted
       = filter (λ x : access_info, x.1.1 = t ∧ x.1.2 = size) ex_access)
  ∧ ex_sorted = sort_access ex_access.
Proof.
  assert (StronglySorted
            (λ x y : access_info, x.1.1 < y.1.1 ∨ (x.1.1 = y.1.1 ∧ y.1.2 ≤ x.1.2))
            ex_sorted) as Hsorted.
  { unfold ex_sorted. repeat (constructor; simpl; try lia). }
  assert (∀ t size,
            filter (λ x : access_info, x.1.1 = t ∧ x.1.2 = size) ex_sorted
            = filter (λ x : access_info, x.1.1 = t ∧ x.1.2 = size) ex_access) as Hsame.
  { intros t size. unfold ex_sorted, ex_access. rewrite !filter_cons, !filter_nil. simpl.
    repeat case_decide; try reflexivity; exfalso; lia. }
  split; [exact Hsorted|]. split; [exact Hsame|].
  exact (evict_order_is_the_stable_one ex_access ex_sorted Hsorted Hsame).
Defined.

Lemma ex_access_sizes x : x ∈ ex_access → 0 ≤ x.1.2.
Proof.
  unfold ex_access. intros Hx.
  repeat (apply elem_of_cons in Hx as [->|Hx]; [simpl; lia|]).
  by apply elem_of_nil in Hx.
Qed.

Lemma evict_enough_witness :
  evict 15 (λ _ : list nat, Ok [] ex_access) (λ p log, Ok [] (log ++ [proxy_id p])) []
  = Ok [] (20, [2%nat; 1%nat])
  ∧ 0 ≤ 20 ≤ sizes_sum ex_access
  ∧ (15 ≤ sizes_sum ex_access → 15 ≤ 20).
Proof.
  assert (evict 15 (λ _ : list nat, Ok [] ex_access)
            (λ p log, Ok [] (log ++ [proxy_id p])) []
          = Ok [] (20, [2%nat; 1%nat])) as Hevict by (vm_compute; reflexivity).
  split; [exact Hevict|].
  destruct (evict_frees_enough_when_possible 15 (λ _ : list nat, Ok [] ex_access)
              (λ p log, Ok [] (log ++ [proxy_id p])) [] [2%nat; 1%nat] [] ex_access []
              20 eq_refl ex_access_sizes Hevict) as (Hbounds & Henough & _).
  split; [exact Hbounds|exact Henough].
Defined.

Lemma evict_coldest_witness :
  (λ _ : list nat, Ok [] ex_access) [] = Ok [] ex_access
  ∧ ex_access ≠ []
  ∧ ∃ e rest,
      sort_access ex_access = e :: rest
      ∧ e ∈ ex_access
      ∧ (∀ x, x ∈ ex_access → e.1.1 ≤ x.1.1).
Proof.
  assert (ex_access ≠ []) as Hne by discriminate.
  split; [reflexivity|]. split; [exact Hne|].
  destruct (evict_takes_the_coldest_entry 5 (λ _ : list nat, Ok [] ex_access)
              (λ p log, Ok [] (log ++ [proxy_id p])) [] [] ex_access eq_refl Hne)
    as (e & rest & Hsort & Hin & Hcold & _).
  exists e, rest. split; [exact Hsort|]. split; [exact Hin|exact Hcold].
Defined.

Definition ex_unproxify_device_objects (value : nat) (w : World) : M (nat * World) :=
  mret (value, w).

Lemma store_insert_witness :
  NoDup (ProxifyHostFile_iter ex_hostfile_x)
  ∧ ∃ self',
      ProxifyHostFile_setitem ex_proxify_device_objects ex_held_proxies ∅ 1 "y" 1%nat
        ex_hostfile_x = Ok [] self'
      ∧ ProxifyHostFile_contains "y" self' = true
      ∧ ProxifyHostFile_getitem ex_unproxify_device_objects false "y" self'
        = Ok [] (1%nat, self')
      ∧ dict_get "x"%string (store self') = Some 5%nat
      ∧ ProxifyHostFile_len self' = 2%nat.
Proof.
  assert (NoDup (ProxifyHostFile_iter ex_hostfile_x)) as Hnd.
  { apply NoDup_singleton. }
  split; [exact Hnd|].
  assert (∃ self', ProxifyHostFile_setitem ex_proxify_device_objects ex_held_proxies ∅ 1
                     "y" 1%nat ex_hostfile_x = Ok [] self') as [self' Hset]
    by (eexists; vm_compute; reflexivity).
  exists self'. split; [exact Hset|].
  destruct (store_insert_then_lookup ex_proxify_device_objects ex_held_proxies
              ex_unproxify_device_objects ∅ 1 "y" 1%nat ex_hostfile_x self' [] Hnd Hset)
    as (r & ws0 & w0 & ws1 & _ & Hr & _ & Hin & Hget & Hothers & _ & Hlen).
  assert (r = 1%nat) as ->.
  { revert Hr. unfold proxify. simpl. intros Hr. apply bind_Ok in Hr as (? & ? & ? & _ & Hr & _).
    apply bind_Ok in Hr as (? & ? & ? & _ & Hr & _). by injection Hr as _ <- _. }
  split; [exact Hin|]. split; [exact Hget|]. split.
  - rewrite (Hothers "x"%string); [reflexivity|discriminate].
  - exact Hlen.
Defined.

(** Deleting "x" when nothing else holds proxy 1. *)
Lemma store_delete_witness :
  ProxifyHostFile_contains "x" ex_hostfile_p1 = true
  ∧ ∃ ws self',
      ProxifyHostFile_delitem ex_held_proxies ∅ "x" ex_hostfile_p1 = Ok ws self'
      ∧ ProxifyHostFile_contains "x" self' = false
      ∧ ProxyManager_contains 1 (manager (world self')) = false
      ∧ heap (world self') !! 1%nat = None.
Proof.
  split; [reflexivity|].
  assert (manager_inv (manager (world ex_hostfile_p1))) as Hinv.
  { eapply run_manager_ops_inv; [|exact ex_hostfile_p1_reached]. apply ProxyManager_init_inv. }
  destruct (proj2 (store_delete_and_missing_keys ex_held_proxies
                     ex_unproxify_device_objects ∅ false "x" ex_hostfile_p1)
              eq_refl Hinv ex_hostfile_p1_heap_ok)
    as (old & ws & self' & Hold & Hdel & Hout & _ & _ & _ & Hgone & _).
  injection Hold as <-.
  assert (store self' = []) as Hstore.
  { revert Hdel. unfold ProxifyHostFile_delitem.
    intros (? & d & ? & [= _ <-] & Hrest & _)%bind_Ok.
    apply bind_Ok in Hrest as (? & ? & ? & _ & [= _ <-] & _). reflexivity. }
  destruct (Hgone 1%nat) as (Huntracked & Hdead).
  - left.
  - rewrite Hstore. refine (bool_decide_unpack _ _). vm_compute. exact I.
  - by eexists.
  - exists ws, self'. split; [exact Hdel|]. split; [exact Hout|].
    split; [exact Huntracked|exact Hdead].
Defined.

Definition ex_world : World :=
  {| manager :=
       {| _disk := Proxies_init tt;
          _host := Proxies_init tt;
          _dev := ex_dev;
          _device_memory_limit := 100;
          _host_memory_limit := 100 |};
     heap := {[2%nat := ex_p2]} |}.

Lemma oom_witness :
  (∀ b, 0 < sizeof b)
  ∧ oom (λ w, mret w) 10 ex_world = Ok [] (true, ex_world)
  ∧ (true = true ↔
       ∃ p, p ∈ get_proxies (heap ex_world) (_dev (manager ex_world))
            ∧ _pxy_get_device_memory_objects p ≠ []).
Proof.
  assert (∀ b, 0 < sizeof b) as Hpos by (intros b; reflexivity).
  assert (oom (λ w, mret w) 10 ex_world = Ok [] (true, ex_world)) as Hoom
    by (vm_compute; reflexivity).
  split; [exact Hpos|]. split; [exact Hoom|].
  exact (proj1 (oom_retries_iff_something_to_spill (λ w, mret w) 10 ex_world ex_world []
                  true Hpos Hoom)).
Defined.

Lemma proxify_registers_witness :
  run_manager_ops [] (ProxyManager_init 100 100) = Ok [] (manager (world ex_hostfile))
  ∧ ∃ w1,
      proxify ex_proxify_device_objects 3 1%nat (world ex_hostfile)
      = (w' ← maybe_evict 0 w1; mret (1%nat, w'))
      ∧ (∀ p, p ∈ [ex_p1] →
              ProxyManager_contains (proxy_id p) (manager w1) = true
              ∧ ∃ q, heap w1 !! proxy_id p = Some q ∧ last_access q = 3).
Proof.
  split; [reflexivity|].
  destruct (proxify_registers_found_proxies ex_proxify_device_objects 100 100 3 [] []
              1%nat (world ex_hostfile) eq_refl) as (w1 & Hrun & Hfound & _).
  exists w1. split; [exact Hrun|exact Hfound].
Defined.
